(** * godot-mcp: the debug-protocol client, the GDScript scope analyzer and
      the runtime telemetry classifier, embedded and verified.

    Sources embedded here:
    - [src/index.ts]            (telemetry classifier, FIFO buffers),
    - [src/dap/dap-client.ts]   (DAP client: framing, correlator, events,
                                 breakpoint registry),
    - [src/dap/gdscript-parser.ts] (scope analyzer).

    JavaScript strings are sequences of UTF-16 code units; they are modelled
    as [list N].  Regular expressions are kept as syntax trees and run by a
    backtracking matcher that follows the ECMAScript priorities (greedy
    quantifiers, left alternative first, leftmost start position first).
    The numbers the code computes with are sequence numbers, ids, line
    numbers and lengths, on which JavaScript arithmetic is exact; they are
    modelled as integers ([Z], [N], [nat]).  Promises, timers and the queue
    of promise jobs of the JavaScript runtime are explicit in the state of
    the client. *)

From Stdlib Require Import ZArith NArith Ascii String Lia Sorted.
From stdpp Require Import base option list gmap.

Local Open Scope N_scope.
Set Warnings "-register-all".

(* ===================================================================== *)
(** ** JavaScript strings                                                  *)
(* ===================================================================== *)

Module JS.

Definition jsstring := list N.

(** A Rocq literal read as a string of code units below 256. *)
Definition js (s : string) : jsstring :=
  map N_of_ascii (list_ascii_of_string s).

Definition unit_eqb (a b : N) : bool := N.eqb a b.

(** WhiteSpace and LineTerminator of ECMAScript: the set used by
    [String.prototype.trim], [trimStart] and by the class [\s]. *)
Definition is_space (c : N) : bool :=
  (c =? 9) || (c =? 10) || (c =? 11) || (c =? 12) || (c =? 13) || (c =? 32)
  || (c =? 160) || (c =? 5760) || ((8192 <=? c) && (c <=? 8202))
  || (c =? 8232) || (c =? 8233) || (c =? 8239) || (c =? 8287)
  || (c =? 12288) || (c =? 65279).

(** [\d] *)
Definition is_digit (c : N) : bool := (48 <=? c) && (c <=? 57).

(** [\w] without the unicode flag: [A-Za-z0-9_]. *)
Definition is_word (c : N) : bool :=
  ((65 <=? c) && (c <=? 90)) || ((97 <=? c) && (c <=? 122))
  || is_digit c || (c =? 95).

(** [.] without the [s] flag: anything but a line terminator. *)
Definition is_dot (c : N) : bool :=
  negb ((c =? 10) || (c =? 13) || (c =? 8232) || (c =? 8233)).

Fixpoint drop_while (p : N -> bool) (s : jsstring) : jsstring :=
  match s with
  | [] => []
  | c :: s' => if p c then drop_while p s' else s
  end.

Fixpoint take_while (p : N -> bool) (s : jsstring) : jsstring :=
  match s with
  | [] => []
  | c :: s' => if p c then c :: take_while p s' else []
  end.

Definition trimStart (s : jsstring) : jsstring := drop_while is_space s.
Definition trimEnd (s : jsstring) : jsstring :=
  rev (drop_while is_space (rev s)).
Definition trim (s : jsstring) : jsstring := trimEnd (trimStart s).

Fixpoint startsWith (s p : jsstring) : bool :=
  match p, s with
  | [], _ => true
  | _ :: _, [] => false
  | a :: p', b :: s' => unit_eqb a b && startsWith s' p'
  end.

(** [s.indexOf(p)]: [None] stands for -1. *)
Fixpoint indexOf_from (i : nat) (s p : jsstring) : option nat :=
  if startsWith s p then Some i
  else match s with
       | [] => None
       | _ :: s' => indexOf_from (S i) s' p
       end.
Definition indexOf (s p : jsstring) : option nat := indexOf_from 0 s p.

Definition includes (s p : jsstring) : bool :=
  match indexOf s p with Some _ => true | None => false end.

(** [s.substring(a, b)] for indices [0 <= a <= b]; indices past the end are
    clamped to the length, as [take] and [drop] do. *)
Definition substring (s : jsstring) (a b : nat) : jsstring :=
  take (b - a) (drop a s).
Definition substring_from (s : jsstring) (a : nat) : jsstring := drop a s.

(** [s.split(sep)] for a one-unit separator: always at least one piece. *)
Fixpoint split_on (sep : N) (s : jsstring) : list jsstring :=
  match s with
  | [] => [[]]
  | c :: s' =>
      if unit_eqb c sep then [] :: split_on sep s'
      else match split_on sep s' with
           | [] => [[c]]
           | p :: ps => (c :: p) :: ps
           end
  end.

(** [parseInt(s, 10)] on a string of decimal digits (the callers pass a
    [(\d+)] capture, on which the result is never NaN). *)
Definition parseInt10 (s : jsstring) : N :=
  fold_left (fun acc c => 10 * acc + (c - 48)) (take_while is_digit s) 0.

(** Decimal rendering of a number, as template literals do. *)
Fixpoint digits_fuel (fuel : nat) (n : N) (acc : jsstring) : jsstring :=
  match fuel with
  | O => acc
  | S f =>
      let acc' := (48 + n mod 10) :: acc in
      if n / 10 =? 0 then acc' else digits_fuel f (n / 10) acc'
  end.
Definition toDecimal (n : N) : jsstring :=
  digits_fuel (S (N.to_nat (N.log2 n))) n [].

(** Truthiness of a string value that may be [null] or [undefined]. *)
Definition truthy (o : option jsstring) : bool :=
  match o with
  | Some (_ :: _) => true
  | _ => false
  end.

End JS.

(* ===================================================================== *)
(** ** Regular expressions                                                 *)
(* ===================================================================== *)

Module Regex.
Import JS.

Inductive regex : Type :=
| Eps
| Chr (p : N -> bool)
| Seq (a b : regex)
| Alt (a b : regex)
| Star (a : regex)
| Grp (i : nat) (a : regex)
| Bol
| Eol.

(** Captures, most recent first. *)
Definition caps := list (nat * jsstring).

Fixpoint group (i : nat) (c : caps) : option jsstring :=
  match c with
  | [] => None
  | (j, s) :: c' => if Nat.eqb i j then Some s else group i c'
  end.

(** What is left to match: the index of the next unit, the input from
    there on, and the captures so far. *)
Definition cont := nat -> jsstring -> caps -> option caps.

(** The greedy loop of a starred expression [a], given the matcher [ra] of
    [a]: one more round of [a] is tried first, then what follows the star.
    A round that consumes nothing is refused, as ECMAScript does, so the
    loop needs no more rounds than there are units left. *)
Fixpoint star_loop (ra : nat -> jsstring -> caps -> cont -> option caps)
    (k : cont) (fuel : nat) (pos : nat) (s : jsstring) (c : caps)
  : option caps :=
  match fuel with
  | O => k pos s c
  | S fuel' =>
      match ra pos s c
              (fun pos' s' c' =>
                 if Nat.eqb pos' pos then None
                 else star_loop ra k fuel' pos' s' c')
      with
      | Some res => Some res
      | None => k pos s c
      end
  end.

(** The matcher, in continuation-passing style: [pos] is the index of the
    next unit, [s] the input from there on, [k] what remains to be
    matched. *)
Fixpoint run (r : regex) (pos : nat) (s : jsstring) (c : caps) (k : cont)
    {struct r} : option caps :=
  match r with
  | Eps => k pos s c
  | Chr p =>
      match s with
      | x :: s' => if p x then k (S pos) s' c else None
      | [] => None
      end
  | Seq a b => run a pos s c (fun pos' s' c' => run b pos' s' c' k)
  | Alt a b =>
      match run a pos s c k with
      | Some res => Some res
      | None => run b pos s c k
      end
  | Star a => star_loop (run a) k (S (length s)) pos s c
  | Grp i a =>
      run a pos s c
        (fun pos' s' c' => k pos' s' ((i, take (pos' - pos) s) :: c'))
  | Bol => if Nat.eqb pos 0 then k pos s c else None
  | Eol => match s with [] => k pos s c | _ :: _ => None end
  end.

Definition accept : cont := fun _ _ c => Some c.

(** [s.match(re)] for a regular expression without the [g] flag: the
    leftmost start position that matches wins; group 0 is the whole match.
    [None] stands for [null]. *)
Fixpoint search (r : regex) (pos : nat) (s : jsstring) : option caps :=
  match run (Grp 0 r) pos s [] accept with
  | Some c => Some c
  | None =>
      match s with
      | [] => None
      | _ :: s' => search r (S pos) s'
      end
  end.

Definition js_match (s : jsstring) (r : regex) : option caps := search r 0 s.

(** Building blocks. *)
Definition Plus (a : regex) : regex := Seq a (Star a).
Definition Opt (a : regex) : regex := Alt a Eps.
Definition Unit (c : N) : regex := Chr (unit_eqb c).
Definition Lit (s : string) : regex :=
  fold_right (fun c r => Seq (Unit c) r) Eps (js s).
Definition NotOneOf (s : string) : regex :=
  Chr (fun c => negb (existsb (unit_eqb c) (js s))).
Definition OneOf (s : string) : regex :=
  Chr (fun c => existsb (unit_eqb c) (js s)).

(** A letter under the [i] flag matches its two ASCII cases only: without
    the unicode flag no unit of 128 or more canonicalizes to an ASCII one. *)
Definition fold_case (c : N) : N :=
  if (97 <=? c) && (c <=? 122) then c - 32 else c.
Definition LitI (s : string) : regex :=
  fold_right (fun c r => Seq (Chr (fun x => unit_eqb (fold_case x) (fold_case c))) r)
    Eps (js s).

Fixpoint Seqs (l : list regex) : regex :=
  match l with
  | [] => Eps
  | [a] => a
  | a :: l' => Seq a (Seqs l')
  end.

Definition ws : regex := Chr is_space.
Definition word : regex := Chr is_word.
Definition digit : regex := Chr is_digit.

End Regex.

(* ===================================================================== *)
(** ** Telemetry classifier and FIFO buffers ([src/index.ts])              *)
(* ===================================================================== *)

Module Telemetry.
Import JS Regex.

(** "Maximum number of runtime errors to keep in buffer (FIFO)" *)
Definition MAX_RUNTIME_ERRORS : nat := 100.
(** "Maximum number of debug messages to keep in buffer (FIFO)" *)
Definition MAX_DEBUG_MESSAGES : nat := 500.

(** *** [ERROR_PATTERNS] *)

(** [errorStart: /^(ERROR|SCRIPT ERROR|WARNING):\s*(.+)$/] *)
Definition errorStart : regex :=
  Seqs [Bol;
        Grp 1 (Alt (Lit "ERROR") (Alt (Lit "SCRIPT ERROR") (Lit "WARNING")));
        Lit ":"; Star ws; Grp 2 (Plus (Chr is_dot)); Eol].

(** [atLine: /^\s*at:\s*(\w+)\s*\((?:res:\/\/)?([^:]+):(\d+)\)$/] *)
Definition atLine : regex :=
  Seqs [Bol; Star ws; Lit "at:"; Star ws; Grp 1 (Plus word); Star ws;
        Lit "("; Opt (Lit "res://"); Grp 2 (Plus (NotOneOf ":")); Lit ":";
        Grp 3 (Plus digit); Lit ")"; Eol].

(** [atLineAlt: /^\s*at:\s*([^\(]+)\s*\(([^:]+):(\d+)\)$/], commented in the
    source as "Alternative format: at: GDScript::reload
    (res://path/to/script.gd:28)". *)
Definition atLineAlt : regex :=
  Seqs [Bol; Star ws; Lit "at:"; Star ws; Grp 1 (Plus (NotOneOf "("));
        Star ws; Lit "("; Grp 2 (Plus (NotOneOf ":")); Lit ":";
        Grp 3 (Plus digit); Lit ")"; Eol].

Inductive Severity := error | warning.
Inductive Category := cat_print | cat_warning | cat_error.

(** [interface RuntimeError].  [timestamp] holds the reading of
    [Date.now()], in milliseconds; the source stores it divided by 1000. *)
Module RuntimeError.
Record t := {
  timestamp : Z;
  type : Severity;
  message : jsstring;
  script : jsstring;
  line : N;
  function : option jsstring;
}.
End RuntimeError.

(** [interface RuntimeErrorBuffer] *)
Module RuntimeErrorBuffer.
Record t := {
  errors : list RuntimeError.t;
  maxSize : nat;
}.
End RuntimeErrorBuffer.

(** [interface DebugMessage] *)
Module DebugMessage.
Record t := {
  timestamp : Z;
  category : Category;
  message : jsstring;
  source : jsstring;
}.
End DebugMessage.

(** [Array.prototype.shift]: drops the first element; nothing to drop on
    an empty array. *)
Definition shift {A} (l : list A) : list A := tail l.

(** The insertion of [parseAndStoreError] (it occurs twice there):
<<
  if (buffer.errors.length >= buffer.maxSize) { buffer.errors.shift(); }
  buffer.errors.push(runtimeError);
>> *)
Definition store (buffer : RuntimeErrorBuffer.t) (e : RuntimeError.t)
  : RuntimeErrorBuffer.t :=
  let errs :=
    if Nat.leb (RuntimeErrorBuffer.maxSize buffer)
               (length (RuntimeErrorBuffer.errors buffer))
    then shift (RuntimeErrorBuffer.errors buffer)
    else RuntimeErrorBuffer.errors buffer in
  {| RuntimeErrorBuffer.errors := errs ++ [e];
     RuntimeErrorBuffer.maxSize := RuntimeErrorBuffer.maxSize buffer |}.

(** The insertion of the stdout and stderr handlers:
<<
  debugMessages.push(msg);
  if (debugMessages.length > MAX_DEBUG_MESSAGES) { debugMessages.shift(); }
>> *)
Definition pushDebugMessage (debugMessages : list DebugMessage.t)
    (msg : DebugMessage.t) : list DebugMessage.t :=
  let pushed := debugMessages ++ [msg] in
  if Nat.ltb MAX_DEBUG_MESSAGES (length pushed) then shift pushed else pushed.

Definition group_or_empty (i : nat) (c : caps) : jsstring :=
  default [] (group i c).

(** [errorStartMatch[1].includes('WARNING') ? 'warning' : 'error'] *)
Definition errorType (errorStartMatch : caps) : Severity :=
  if includes (group_or_empty 1 errorStartMatch) (js "WARNING")
  then warning else error.

(** [parseAndStoreError(line, buffer, pendingLine)].  The source mutates
    [buffer] and returns the new pending line; here both are returned.
    [now] is the reading of [Date.now()]. *)
Definition parseAndStoreError (now : Z) (line : jsstring)
    (buffer : RuntimeErrorBuffer.t) (pendingLine : option jsstring)
  : RuntimeErrorBuffer.t * option jsstring :=
  let trimmedLine := trim line in
  match trimmedLine with
  | [] => (buffer, pendingLine)
  | _ :: _ =>
      (* the tail of the function: is this line itself an error start? *)
      let errorStartOfLine :=
        match js_match trimmedLine errorStart with
        | Some _ => Some trimmedLine
        | None => None
        end in
      if truthy pendingLine then
        let pending := default [] pendingLine in
        let atMatch :=
          match js_match trimmedLine atLine with
          | Some m => Some m
          | None => js_match trimmedLine atLineAlt
          end in
        match atMatch, js_match pending errorStart with
        | Some at_, Some errorStartMatch =>
            let func := trim (group_or_empty 1 at_) in
            let script0 := group_or_empty 2 at_ in
            let lineNum := parseInt10 (group_or_empty 3 at_) in
            let script1 :=
              if startsWith script0 (js "res://") then script0
              else js "res://" ++ script0 in
            (store buffer
               {| RuntimeError.timestamp := now;
                  RuntimeError.type := errorType errorStartMatch;
                  RuntimeError.message := group_or_empty 2 errorStartMatch;
                  RuntimeError.script := script1;
                  RuntimeError.line := lineNum;
                  RuntimeError.function := Some func |},
             None)
        | _, Some errorStartMatch =>
            (* "store the error without location info" *)
            (store buffer
               {| RuntimeError.timestamp := now;
                  RuntimeError.type := errorType errorStartMatch;
                  RuntimeError.message := group_or_empty 2 errorStartMatch;
                  RuntimeError.script := [];
                  RuntimeError.line := 0;
                  RuntimeError.function := None |},
             errorStartOfLine)
        | _, None => (buffer, errorStartOfLine)
        end
      else (buffer, errorStartOfLine)
  end.

(** The process started by [handleRunProject]: the variables captured by
    its stdout and stderr handlers, which [this.activeProcess] shares.
    [rebound] is [this.activeProcess.debugMessages] once it no longer is
    the array of the handlers ([None]: it still is). *)
Module GodotProcess.
Record t := {
  output : list jsstring;
  errors : list jsstring;
  runtimeErrors : RuntimeErrorBuffer.t;
  pendingErrorLine : option jsstring;
  debugMessages : list DebugMessage.t;
  rebound : option (list DebugMessage.t);
}.
End GodotProcess.

(** The state [handleRunProject] starts a process with. *)
Definition spawned : GodotProcess.t :=
  {| GodotProcess.output := [];
     GodotProcess.errors := [];
     GodotProcess.runtimeErrors :=
       {| RuntimeErrorBuffer.errors := [];
          RuntimeErrorBuffer.maxSize := MAX_RUNTIME_ERRORS |};
     GodotProcess.pendingErrorLine := None;
     GodotProcess.debugMessages := [];
     GodotProcess.rebound := None |}.

Definition nonblank (line : jsstring) : bool :=
  match trim line with [] => false | _ :: _ => true end.

(** One line of the [process.stdout] handler's [forEach]. *)
Definition stdoutLine (now : Z) (p : GodotProcess.t) (line : jsstring)
  : GodotProcess.t :=
  if nonblank line then
    {| GodotProcess.output := GodotProcess.output p;
       GodotProcess.errors := GodotProcess.errors p;
       GodotProcess.runtimeErrors := GodotProcess.runtimeErrors p;
       GodotProcess.pendingErrorLine := GodotProcess.pendingErrorLine p;
       GodotProcess.debugMessages :=
         pushDebugMessage (GodotProcess.debugMessages p)
           {| DebugMessage.timestamp := now;
              DebugMessage.category := cat_print;
              DebugMessage.message := trim line;
              DebugMessage.source := js "stdout" |};
       GodotProcess.rebound := GodotProcess.rebound p |}
  else p.

(** [process.stdout.on('data', ...)]; [data] is [data.toString()]. *)
Definition onStdout (now : Z) (p : GodotProcess.t) (data : jsstring)
  : GodotProcess.t :=
  let lines := split_on 10 data in
  let p1 :=
    {| GodotProcess.output := GodotProcess.output p ++ lines;
       GodotProcess.errors := GodotProcess.errors p;
       GodotProcess.runtimeErrors := GodotProcess.runtimeErrors p;
       GodotProcess.pendingErrorLine := GodotProcess.pendingErrorLine p;
       GodotProcess.debugMessages := GodotProcess.debugMessages p;
       GodotProcess.rebound := GodotProcess.rebound p |} in
  fold_left (stdoutLine now) lines p1.

(** [this.activeProcess.runtimeErrors.errors = []], in
    [handleGetRuntimeErrors] with [clearAfterRead]: the buffer object is
    the one the stderr handler stores into. *)
Definition clearRuntimeErrors (p : GodotProcess.t) : GodotProcess.t :=
  {| GodotProcess.output := GodotProcess.output p;
     GodotProcess.errors := GodotProcess.errors p;
     GodotProcess.runtimeErrors :=
       {| RuntimeErrorBuffer.errors := [];
          RuntimeErrorBuffer.maxSize :=
            RuntimeErrorBuffer.maxSize (GodotProcess.runtimeErrors p) |};
     GodotProcess.pendingErrorLine := GodotProcess.pendingErrorLine p;
     GodotProcess.debugMessages := GodotProcess.debugMessages p;
     GodotProcess.rebound := GodotProcess.rebound p |}.

(** [this.activeProcess.debugMessages = []], in [handleGetDebugOutput]
    with [clearAfterRead]: the member is bound to a new array, and the
    handlers go on pushing to the array they captured. *)
Definition clearDebugMessages (p : GodotProcess.t) : GodotProcess.t :=
  {| GodotProcess.output := GodotProcess.output p;
     GodotProcess.errors := GodotProcess.errors p;
     GodotProcess.runtimeErrors := GodotProcess.runtimeErrors p;
     GodotProcess.pendingErrorLine := GodotProcess.pendingErrorLine p;
     GodotProcess.debugMessages := GodotProcess.debugMessages p;
     GodotProcess.rebound := Some [] |}.

(** [this.activeProcess.debugMessages], as [handleGetDebugOutput] reads
    it. *)
Definition shownDebugMessages (p : GodotProcess.t) : list DebugMessage.t :=
  match GodotProcess.rebound p with
  | Some l => l
  | None => GodotProcess.debugMessages p
  end.

Section Stderr.
(** [parseStderrLine] only builds the message that is pushed; the buffers
    do not depend on how, so it is a parameter of the handler here. *)
Variable parseStderrLine : Z -> jsstring -> DebugMessage.t.

(** One line of the [process.stderr] handler's [forEach]. *)
Definition stderrLine (now : Z) (p : GodotProcess.t) (line : jsstring)
  : GodotProcess.t :=
  if nonblank line then
    let '(buffer, pending) :=
      parseAndStoreError now line (GodotProcess.runtimeErrors p)
        (GodotProcess.pendingErrorLine p) in
    {| GodotProcess.output := GodotProcess.output p;
       GodotProcess.errors := GodotProcess.errors p;
       GodotProcess.runtimeErrors := buffer;
       GodotProcess.pendingErrorLine := pending;
       GodotProcess.debugMessages :=
         pushDebugMessage (GodotProcess.debugMessages p)
           (parseStderrLine now line);
       GodotProcess.rebound := GodotProcess.rebound p |}
  else p.

(** [process.stderr.on('data', ...)] *)
Definition onStderr (now : Z) (p : GodotProcess.t) (data : jsstring)
  : GodotProcess.t :=
  let lines := split_on 10 data in
  let p1 :=
    {| GodotProcess.output := GodotProcess.output p;
       GodotProcess.errors := GodotProcess.errors p ++ lines;
       GodotProcess.runtimeErrors := GodotProcess.runtimeErrors p;
       GodotProcess.pendingErrorLine := GodotProcess.pendingErrorLine p;
       GodotProcess.debugMessages := GodotProcess.debugMessages p;
       GodotProcess.rebound := GodotProcess.rebound p |} in
  fold_left (stderrLine now) lines p1.

(** What happens to the buffers of a running process: output arrives, in
    chunks, with the clock reading at each chunk, and the two tools that
    read a buffer may clear it. *)
Inductive Operation :=
| Stdout (now : Z) (data : jsstring)
| Stderr (now : Z) (data : jsstring)
| ClearRuntimeErrors
| ClearDebugMessages.

Definition perform (p : GodotProcess.t) (op : Operation) : GodotProcess.t :=
  match op with
  | Stdout now data => onStdout now p data
  | Stderr now data => onStderr now p data
  | ClearRuntimeErrors => clearRuntimeErrors p
  | ClearDebugMessages => clearDebugMessages p
  end.

End Stderr.

(** The classifier fed with stderr lines one after the other, as the
    stderr handler does: the runtime-error side only. *)
Definition classify (buffer : RuntimeErrorBuffer.t)
    (pendingLine : option jsstring) (lines : list (Z * jsstring))
  : RuntimeErrorBuffer.t * option jsstring :=
  fold_left
    (fun st nl =>
       if nonblank (snd nl)
       then parseAndStoreError (fst nl) (snd nl) (fst st) (snd st)
       else st)
    lines (buffer, pendingLine).

(** *** The tools that read the buffers *)

Definition categoryName (c : Category) : jsstring :=
  match c with
  | cat_print => js "print"
  | cat_warning => js "warning"
  | cat_error => js "error"
  end.


(** [array.slice(-n)] for [n >= 1]: the last [n] elements. *)
Definition slice_last {A} (n : nat) (l : list A) : list A :=
  drop (length l - n) l.

(** The arguments of [get_debug_output] once [normalizeParameters] has
    renamed them; [None] is [undefined].  [sinceTimestamp] is a reading of
    the clock in the unit of the model's timestamps (the source compares
    the stored quotients by 1000, which keeps the order of the readings);
    a value [parseFloat] turns into NaN filters nothing, like [None].
    [limit] is an integer, as the tool's schema and its default are. *)
Module DebugOutputArgs.
Record t := {
  sinceTimestamp : option Z;
  category : option jsstring;
  limit : option Z;
  clearAfterRead : option bool;
}.
End DebugOutputArgs.

(** The object [handleGetDebugOutput] prints. *)
Module DebugOutput.
Record t := {
  messages : list DebugMessage.t;
  total_buffered : nat;
  oldest_timestamp : option Z;
}.
End DebugOutput.

(** [handleGetDebugOutput(args)] on [this.activeProcess]: the answer
    ([None]: the error response "No active Godot process.") and
    [this.activeProcess] afterwards. *)
Definition handleGetDebugOutput (args : DebugOutputArgs.t)
    (activeProcess : option GodotProcess.t)
  : option DebugOutput.t * option GodotProcess.t :=
  match activeProcess with
  | None => (None, None)
  | Some p =>
      let category := default (js "all") (DebugOutputArgs.category args) in
      let limit := default 100%Z (DebugOutputArgs.limit args) in
      let clearAfterRead := default false (DebugOutputArgs.clearAfterRead args) in
      let filtered0 := shownDebugMessages p in
      let filtered1 :=
        match DebugOutputArgs.sinceTimestamp args with
        | Some ts =>
            List.filter (fun msg => (ts <? DebugMessage.timestamp msg)%Z)
              filtered0
        | None => filtered0
        end in
      let filtered2 :=
        if bool_decide (category = js "all") then filtered1
        else List.filter
               (fun msg =>
                  bool_decide (categoryName (DebugMessage.category msg)
                               = category))
               filtered1 in
      let totalBuffered := length (shownDebugMessages p) in
      let oldestTimestamp :=
        match shownDebugMessages p with
        | msg :: _ => Some (DebugMessage.timestamp msg)
        | [] => None
        end in
      let effectiveLimit := Z.min (Z.max limit 1) 1000 in
      let filtered3 :=
        if (effectiveLimit <? Z.of_nat (length filtered2))%Z
        then slice_last (Z.to_nat effectiveLimit) filtered2
        else filtered2 in
      (Some {| DebugOutput.messages := filtered3;
               DebugOutput.total_buffered := totalBuffered;
               DebugOutput.oldest_timestamp := oldestTimestamp |},
       Some (if clearAfterRead then clearDebugMessages p else p))
  end.

(** The arguments of [get_runtime_errors]. *)
Module RuntimeErrorsArgs.
Record t := {
  sinceTimestamp : option Z;
  severity : option jsstring;
  clearAfterRead : option bool;
}.
End RuntimeErrorsArgs.

(** The object [handleGetRuntimeErrors] prints; each error is printed with
    one more member, [time], its timestamp as a time of day. *)
Module RuntimeErrorsOutput.
Record t := {
  errors : list RuntimeError.t;
  error_count : nat;
  warning_count : nat;
}.
End RuntimeErrorsOutput.



End Telemetry.

(* ===================================================================== *)
(** ** The runtime's UTF-8 codec and JSON printer                          *)
(* ===================================================================== *)

Module Runtime.
Import JS.

Definition is_high_surrogate (c : N) : bool := (55296 <=? c) && (c <=? 56319).
Definition is_low_surrogate (c : N) : bool := (56320 <=? c) && (c <=? 57343).
Definition is_cont (b : N) : bool := (128 <=? b) && (b <=? 191).

(** The UTF-8 bytes of one code point. *)
Definition utf8_point (p : N) : list N :=
  if p <? 128 then [p]
  else if p <? 2048 then [192 + p / 64; 128 + p mod 64]
  else if p <? 65536 then
    [224 + p / 4096; 128 + (p / 64) mod 64; 128 + p mod 64]
  else [240 + p / 262144; 128 + (p / 4096) mod 64;
        128 + (p / 64) mod 64; 128 + p mod 64].

(** [Buffer.from(s, 'utf8')], which is how [socket.write(s)] puts a string
    on the wire: a surrogate pair is one code point, a lone surrogate is
    written as U+FFFD. *)
Fixpoint utf8Encode (s : jsstring) : list N :=
  match s with
  | [] => []
  | c :: s' =>
      if is_high_surrogate c then
        match s' with
        | d :: s'' =>
            if is_low_surrogate d
            then utf8_point (65536 + (c - 55296) * 1024 + (d - 56320))
                   ++ utf8Encode s''
            else utf8_point 65533 ++ utf8Encode s'
        | [] => utf8_point 65533
        end
      else if is_low_surrogate c then utf8_point 65533 ++ utf8Encode s'
      else utf8_point c ++ utf8Encode s'
  end.

(** [Buffer.byteLength(s)] *)
Definition byteLength (s : jsstring) : N := N.of_nat (length (utf8Encode s)).

(** The UTF-16 units of one code point. *)
Definition utf16_point (p : N) : jsstring :=
  if p <? 65536 then [p]
  else [55296 + (p - 65536) / 1024; 56320 + (p - 65536) mod 1024].

(** [data.toString()] on the bytes of one chunk: well-formed sequences are
    decoded, and a malformed or truncated sequence is replaced by one
    U+FFFD for its longest well-formed prefix. *)
Fixpoint utf8Decode_fuel (fuel : nat) (b : list N) : jsstring :=
  match fuel with
  | O => []
  | S f =>
      match b with
      | [] => []
      | b0 :: r0 =>
          if b0 <? 128 then b0 :: utf8Decode_fuel f r0
          else if (194 <=? b0) && (b0 <=? 223) then
            match r0 with
            | b1 :: r1 =>
                if is_cont b1
                then ((b0 - 192) * 64 + (b1 - 128)) :: utf8Decode_fuel f r1
                else 65533 :: utf8Decode_fuel f r0
            | [] => [65533]
            end
          else if (224 <=? b0) && (b0 <=? 239) then
            let lo := if b0 =? 224 then 160 else 128 in
            let hi := if b0 =? 237 then 159 else 191 in
            match r0 with
            | b1 :: r1 =>
                if (lo <=? b1) && (b1 <=? hi) then
                  match r1 with
                  | b2 :: r2 =>
                      if is_cont b2
                      then ((b0 - 224) * 4096 + (b1 - 128) * 64 + (b2 - 128))
                             :: utf8Decode_fuel f r2
                      else 65533 :: utf8Decode_fuel f r1
                  | [] => [65533]
                  end
                else 65533 :: utf8Decode_fuel f r0
            | [] => [65533]
            end
          else if (240 <=? b0) && (b0 <=? 244) then
            let lo := if b0 =? 240 then 144 else 128 in
            let hi := if b0 =? 244 then 143 else 191 in
            match r0 with
            | b1 :: r1 =>
                if (lo <=? b1) && (b1 <=? hi) then
                  match r1 with
                  | b2 :: r2 =>
                      if is_cont b2 then
                        match r2 with
                        | b3 :: r3 =>
                            if is_cont b3
                            then utf16_point
                                   ((b0 - 240) * 262144 + (b1 - 128) * 4096
                                    + (b2 - 128) * 64 + (b3 - 128))
                                   ++ utf8Decode_fuel f r3
                            else 65533 :: utf8Decode_fuel f r2
                        | [] => [65533]
                        end
                      else 65533 :: utf8Decode_fuel f r1
                  | [] => [65533]
                  end
                else 65533 :: utf8Decode_fuel f r0
            | [] => [65533]
            end
          else 65533 :: utf8Decode_fuel f r0
      end
  end.

(** Every round consumes a byte, so [length b] rounds reach the end. *)
Definition utf8Decode (b : list N) : jsstring := utf8Decode_fuel (length b) b.

(** JSON values as the client builds them: the numbers it sends are
    integers (sequence numbers, thread and frame ids, line numbers). *)
Inductive json : Type :=
| JNull
| JBool (b : bool)
| JNum (z : Z)
| JStr (s : jsstring)
| JArr (l : list json)
| JObj (members : list (jsstring * json)).

Definition hex_digit (n : N) : N := if n <? 10 then 48 + n else 87 + n.
Definition hex4 (c : N) : jsstring :=
  [hex_digit (c / 4096 mod 16); hex_digit (c / 256 mod 16);
   hex_digit (c / 16 mod 16); hex_digit (c mod 16)].

(** [QuoteJSONString]: the body between the quotes. *)
Fixpoint quote_units (s : jsstring) : jsstring :=
  match s with
  | [] => []
  | c :: s' =>
      if c =? 8 then js "\b" ++ quote_units s'
      else if c =? 9 then js "\t" ++ quote_units s'
      else if c =? 10 then js "\n" ++ quote_units s'
      else if c =? 12 then js "\f" ++ quote_units s'
      else if c =? 13 then js "\r" ++ quote_units s'
      else if c =? 34 then [92; 34] ++ quote_units s'
      else if c =? 92 then [92; 92] ++ quote_units s'
      else if c <? 32 then js "\u" ++ hex4 c ++ quote_units s'
      else if is_high_surrogate c then
        match s' with
        | d :: s'' =>
            if is_low_surrogate d then c :: d :: quote_units s''
            else js "\u" ++ hex4 c ++ quote_units s'
        | [] => js "\u" ++ hex4 c
        end
      else if is_low_surrogate c then js "\u" ++ hex4 c ++ quote_units s'
      else c :: quote_units s'
  end.

Definition quote (s : jsstring) : jsstring := [34] ++ quote_units s ++ [34].

Definition number_text (z : Z) : jsstring :=
  match z with
  | Zneg p => js "-" ++ toDecimal (Npos p)
  | _ => toDecimal (Z.to_N z)
  end.

(** [JSON.stringify(v)] without indentation. *)
Fixpoint stringify (v : json) : jsstring :=
  match v with
  | JNull => js "null"
  | JBool true => js "true"
  | JBool false => js "false"
  | JNum z => number_text z
  | JStr s => quote s
  | JArr l =>
      js "[" ++
      (fix items (l : list json) : jsstring :=
         match l with
         | [] => []
         | [x] => stringify x
         | x :: l' => stringify x ++ js "," ++ items l'
         end) l ++ js "]"
  | JObj members =>
      js "{" ++
      (fix fields (l : list (jsstring * json)) : jsstring :=
         match l with
         | [] => []
         | [(k, x)] => quote k ++ js ":" ++ stringify x
         | (k, x) :: l' => quote k ++ js ":" ++ stringify x ++ js "," ++ fields l'
         end) members ++ js "}"
  end.

End Runtime.

(* ===================================================================== *)
(** ** The DAP client ([src/dap/dap-client.ts], [src/dap/dap-types.ts])    *)
(* ===================================================================== *)

Module DAP.
Import JS Regex Runtime.

(** *** Messages ([dap-types.ts]) *)

(** [interface Breakpoint]: the members the client reads, and [id]. *)
Module Breakpoint.
Record t := {
  id : option Z;
  verified : bool;
  line : option Z;
}.
End Breakpoint.

(** A response body ([Record<string, unknown>]) through the casts the
    client applies to it: [breakpoints] is the member read by
    [setBreakpoints], [members] is the rest of the object. *)
Module Body.
Record t := {
  breakpoints : option (list Breakpoint.t);
  members : list (jsstring * json);
}.
End Body.

(** [interface DAPRequest] *)
Module DAPRequest.
Record t := {
  seq : Z;
  command : jsstring;
  arguments : json;
}.
End DAPRequest.

(** [interface DAPResponse] *)
Module DAPResponse.
Record t := {
  seq : Z;
  request_seq : Z;
  success : bool;
  command : jsstring;
  body : option Body.t;
  message : option jsstring;
}.
End DAPResponse.

(** The body of an event through the cast to [StoppedEventBody]: the
    member the client acts on (the others are only logged). *)
Module EventBody.
Record t := {
  threadId : option Z;
}.
End EventBody.

(** [interface DAPEvent] *)
Module DAPEvent.
Record t := {
  seq : Z;
  event : jsstring;
  body : option EventBody.t;
}.
End DAPEvent.

(** What [JSON.parse] hands to [handleMessage], by the [type] member. *)
Inductive Message :=
| MsgRequest (r : DAPRequest.t)
| MsgResponse (r : DAPResponse.t)
| MsgEvent (e : DAPEvent.t)
| MsgOther.

(** *** Promises of the runtime *)

(** How the promise of a [sendRequest] is settled. *)
Inductive Outcome :=
| Resolved (response : DAPResponse.t)
| Rejected (error : jsstring).

(** What a method returns to its caller, once its own promise is settled:
    the value it returned or the error it threw. *)
Inductive Value :=
| VBreakpoints (l : list Breakpoint.t)
| VCapabilities (c : option Body.t)
| VResult (r : DAPResponse.t)   (* what the method reads out of [r] *)
| VVoid.

Inductive Result :=
| Returned (v : Value)
| Thrown (error : jsstring).

(** The rest of an async method after its [await this.sendRequest(...)];
    [call] identifies the promise the method returned to its caller. *)
Inductive Cont :=
| KInitialize (call : nat)
| KConfigurationDone (call : nat)
| KSetBreakpoints (sourcePath : jsstring) (call : nat)
| KResult (call : nat)   (* getThreads, stackTrace, scopes, variables, evaluate *)
| KVoid (call : nat).    (* continue, next, stepIn, stepOut, pause *)

(** A promise made by [sendRequest], with the method that awaits it. *)
Module Promise.
Record t := {
  outcome : option Outcome;   (* [None]: still pending *)
  awaiter : Cont;
}.
End Promise.

(** *** The client *)

(** An entry of [pendingRequests]: [resolver] is the promise whose
    [resolve] and [reject] the entry holds. *)
Module Pending.
Record t := {
  resolver : nat;
  command : jsstring;
}.
End Pending.

(** The [setTimeout] callback of [sendRequest], with what it closes over. *)
Module Timer.
Record t := {
  seq : Z;
  command : jsstring;
  reject : nat;
}.
End Timer.

(** [net.Socket]: what has been written to it. *)
Module Socket.
Record t := {
  written : list jsstring;
}.
End Socket.

(** The fields of [class DAPClient].  [breakpoints] is a [Map], which
    iterates in insertion order: an association list. *)
Record DAPClient := {
  socket : option Socket.t;
  connected : bool;
  paused : bool;
  currentThreadId : Z;
  sequenceNumber : Z;
  pendingRequests : gmap Z Pending.t;
  buffer : jsstring;
  capabilities : option Body.t;
  breakpoints : list (jsstring * list Breakpoint.t);
}.

(** The client with the part of the runtime it lives in: the promises
    made by [sendRequest] (a promise is named by its index), the promises
    returned by the calls of the async methods ([None]: not settled yet),
    the armed timers and the queue of promise jobs (microtasks). *)
Record World := {
  client : DAPClient;
  promises : list Promise.t;
  calls : list (option Result);
  timers : list Timer.t;
  jobs : list (Cont * Outcome);
}.

(** The field initializers of the class. *)
Definition newClient : DAPClient :=
  {| socket := None; connected := false; paused := false;
     currentThreadId := 1%Z; sequenceNumber := 1%Z;
     pendingRequests := ∅; buffer := []; capabilities := None;
     breakpoints := [] |}.

Definition newWorld : World :=
  {| client := newClient; promises := []; calls := [];
     timers := []; jobs := [] |}.

(** Field updates. *)
Definition with_client (f : DAPClient -> DAPClient) (w : World) : World :=
  {| client := f (client w); promises := promises w; calls := calls w;
     timers := timers w; jobs := jobs w |}.
Definition with_promises (ps : list Promise.t) (w : World) : World :=
  {| client := client w; promises := ps; calls := calls w;
     timers := timers w; jobs := jobs w |}.
Definition with_calls (cs : list (option Result)) (w : World) : World :=
  {| client := client w; promises := promises w; calls := cs;
     timers := timers w; jobs := jobs w |}.
Definition with_timers (ts : list Timer.t) (w : World) : World :=
  {| client := client w; promises := promises w; calls := calls w;
     timers := ts; jobs := jobs w |}.
Definition with_jobs (js : list (Cont * Outcome)) (w : World) : World :=
  {| client := client w; promises := promises w; calls := calls w;
     timers := timers w; jobs := js |}.

Definition set_socket (v : option Socket.t) (c : DAPClient) : DAPClient :=
  {| socket := v; connected := connected c; paused := paused c;
     currentThreadId := currentThreadId c; sequenceNumber := sequenceNumber c;
     pendingRequests := pendingRequests c; buffer := buffer c;
     capabilities := capabilities c; breakpoints := breakpoints c |}.
Definition set_connected (v : bool) (c : DAPClient) : DAPClient :=
  {| socket := socket c; connected := v; paused := paused c;
     currentThreadId := currentThreadId c; sequenceNumber := sequenceNumber c;
     pendingRequests := pendingRequests c; buffer := buffer c;
     capabilities := capabilities c; breakpoints := breakpoints c |}.
Definition set_paused (v : bool) (c : DAPClient) : DAPClient :=
  {| socket := socket c; connected := connected c; paused := v;
     currentThreadId := currentThreadId c; sequenceNumber := sequenceNumber c;
     pendingRequests := pendingRequests c; buffer := buffer c;
     capabilities := capabilities c; breakpoints := breakpoints c |}.
Definition set_currentThreadId (v : Z) (c : DAPClient) : DAPClient :=
  {| socket := socket c; connected := connected c; paused := paused c;
     currentThreadId := v; sequenceNumber := sequenceNumber c;
     pendingRequests := pendingRequests c; buffer := buffer c;
     capabilities := capabilities c; breakpoints := breakpoints c |}.
Definition set_sequenceNumber (v : Z) (c : DAPClient) : DAPClient :=
  {| socket := socket c; connected := connected c; paused := paused c;
     currentThreadId := currentThreadId c; sequenceNumber := v;
     pendingRequests := pendingRequests c; buffer := buffer c;
     capabilities := capabilities c; breakpoints := breakpoints c |}.
Definition set_pendingRequests (v : gmap Z Pending.t) (c : DAPClient)
  : DAPClient :=
  {| socket := socket c; connected := connected c; paused := paused c;
     currentThreadId := currentThreadId c; sequenceNumber := sequenceNumber c;
     pendingRequests := v; buffer := buffer c;
     capabilities := capabilities c; breakpoints := breakpoints c |}.
Definition set_buffer (v : jsstring) (c : DAPClient) : DAPClient :=
  {| socket := socket c; connected := connected c; paused := paused c;
     currentThreadId := currentThreadId c; sequenceNumber := sequenceNumber c;
     pendingRequests := pendingRequests c; buffer := v;
     capabilities := capabilities c; breakpoints := breakpoints c |}.
Definition set_capabilities (v : option Body.t) (c : DAPClient) : DAPClient :=
  {| socket := socket c; connected := connected c; paused := paused c;
     currentThreadId := currentThreadId c; sequenceNumber := sequenceNumber c;
     pendingRequests := pendingRequests c; buffer := buffer c;
     capabilities := v; breakpoints := breakpoints c |}.
Definition set_breakpoints (v : list (jsstring * list Breakpoint.t))
    (c : DAPClient) : DAPClient :=
  {| socket := socket c; connected := connected c; paused := paused c;
     currentThreadId := currentThreadId c; sequenceNumber := sequenceNumber c;
     pendingRequests := pendingRequests c; buffer := buffer c;
     capabilities := capabilities c; breakpoints := v |}.

(** [Map.prototype.set]: an existing key keeps its place in the iteration
    order, a new key goes last. *)
Fixpoint map_set {V} (k : jsstring) (v : V) (m : list (jsstring * V))
  : list (jsstring * V) :=
  match m with
  | [] => [(k, v)]
  | (k', v') :: m' =>
      if bool_decide (k = k') then (k, v) :: m'
      else (k', v') :: map_set k v m'
  end.

(** [Map.prototype.get] *)
Fixpoint map_get {V} (k : jsstring) (m : list (jsstring * V)) : option V :=
  match m with
  | [] => None
  | (k', v') :: m' => if bool_decide (k = k') then Some v' else map_get k m'
  end.

(** *** Promise operations *)

(** [new Promise(...)] in [sendRequest], awaited by [k]. *)
Definition newPromise (k : Cont) (w : World) : nat * World :=
  (length (promises w),
   with_promises
     (promises w ++ [{| Promise.outcome := None; Promise.awaiter := k |}]) w).

(** The promise an async method returns when it is called. *)
Definition newCall (w : World) : nat * World :=
  (length (calls w), with_calls (calls w ++ [None]) w).

(** [resolve(response)] or [reject(error)] of promise [p]: a settled
    promise ignores it; otherwise the outcome is recorded and the awaiting
    continuation is queued as a promise job. *)
Definition settle (p : nat) (o : Outcome) (w : World) : World :=
  match promises w !! p with
  | Some {| Promise.outcome := None; Promise.awaiter := k |} =>
      with_jobs (jobs w ++ [(k, o)])
        (with_promises
           (<[p := {| Promise.outcome := Some o; Promise.awaiter := k |}]>
              (promises w)) w)
  | _ => w
  end.

(** An async method returns or throws: the promise of that call is
    settled.  Its caller is outside the client. *)
Definition conclude (call : nat) (r : Result) (w : World) : World :=
  match calls w !! call with
  | Some None => with_calls (<[call := Some r]> (calls w)) w
  | _ => w
  end.

(** *** [getBreakpoints] *)

Module BreakpointView.
Record t := {
  script : jsstring;
  line : Z;
  enabled : bool;
}.
End BreakpointView.

(** [bp.line || 0] *)
Definition line_or_0 (l : option Z) : Z :=
  match l with
  | Some n => if (n =? 0)%Z then 0%Z else n
  | None => 0%Z
  end.

Definition getBreakpoints (c : DAPClient) : list BreakpointView.t :=
  flat_map
    (fun '(sourcePath, bps) =>
       map (fun bp =>
              {| BreakpointView.script :=
                   if startsWith sourcePath (js "res://") then sourcePath
                   else js "res://" ++ sourcePath;
                 BreakpointView.line := line_or_0 (Breakpoint.line bp);
                 BreakpointView.enabled := Breakpoint.verified bp |})
           bps)
    (breakpoints c).

(** *** [sendRequest] *)

Definition CRLFCRLF : jsstring := [13; 10; 13; 10].

Definition stringifyRequest (r : DAPRequest.t) : jsstring :=
  stringify
    (JObj [(js "seq", JNum (DAPRequest.seq r));
           (js "type", JStr (js "request"));
           (js "command", JStr (DAPRequest.command r));
           (js "arguments", DAPRequest.arguments r)]).

(** [header + message] as [sendRequest] writes it. *)
Definition frame (message : jsstring) : jsstring :=
  js "Content-Length: " ++ toDecimal (byteLength message) ++ CRLFCRLF
  ++ message.

Definition encodeRequest (r : DAPRequest.t) : jsstring :=
  frame (stringifyRequest r).

Definition sendRequest (command : jsstring) (args : json) (k : Cont)
    (w : World) : World :=
  let '(p, w1) := newPromise k w in
  let c := client w1 in
  match socket c with
  | Some sock =>
      if connected c then
        let seq := sequenceNumber c in
        let request :=
          {| DAPRequest.seq := seq; DAPRequest.command := command;
             DAPRequest.arguments := args |} in
        let c1 := set_sequenceNumber (seq + 1)%Z c in
        let c2 :=
          set_pendingRequests
            (<[seq := {| Pending.resolver := p; Pending.command := command |}]>
               (pendingRequests c1)) c1 in
        let c3 :=
          set_socket
            (Some {| Socket.written :=
                       Socket.written sock ++ [encodeRequest request] |}) c2 in
        with_timers
          (timers w1 ++
           [{| Timer.seq := seq; Timer.command := command;
               Timer.reject := p |}])
          (with_client (fun _ => c3) w1)
      else settle p (Rejected (js "Not connected to DAP server")) w1
  | None => settle p (Rejected (js "Not connected to DAP server")) w1
  end.

(** The timer of [sendRequest] fires. *)
Definition onTimeout (t : Timer.t) (w : World) : World :=
  let c := client w in
  match pendingRequests c !! Timer.seq t with
  | Some _ =>
      settle (Timer.reject t)
        (Rejected (js "DAP request timeout: " ++ Timer.command t))
        (with_client
           (set_pendingRequests (delete (Timer.seq t) (pendingRequests c))) w)
  | None => w
  end.

(** *** [handleEvent] and [handleMessage] *)

Definition handleEvent (e : DAPEvent.t) (c : DAPClient) : DAPClient :=
  if bool_decide (DAPEvent.event e = js "stopped") then
    let c1 := set_paused true c in
    match DAPEvent.body e with
    | Some body =>
        match EventBody.threadId body with
        | Some threadId =>
            (* [if (body.threadId)]: 0 is falsy *)
            if (threadId =? 0)%Z then c1 else set_currentThreadId threadId c1
        | None => c1
        end
    | None => c1
    end
  else if bool_decide (DAPEvent.event e = js "continued") then
    set_paused false c
  else if bool_decide (DAPEvent.event e = js "terminated") then
    set_paused false c
  else c.

(** [response.message || `DAP request failed: ${response.command}`] *)
Definition failureMessage (r : DAPResponse.t) : jsstring :=
  if truthy (DAPResponse.message r) then default [] (DAPResponse.message r)
  else js "DAP request failed: " ++ DAPResponse.command r.

Definition handleMessage (m : Message) (w : World) : World :=
  match m with
  | MsgResponse response =>
      let c := client w in
      match pendingRequests c !! DAPResponse.request_seq response with
      | Some pending =>
          let w1 :=
            with_client
              (set_pendingRequests
                 (delete (DAPResponse.request_seq response)
                    (pendingRequests c))) w in
          if DAPResponse.success response
          then settle (Pending.resolver pending) (Resolved response) w1
          else settle (Pending.resolver pending)
                 (Rejected (failureMessage response)) w1
      | None => w
      end
  | MsgEvent event => with_client (handleEvent event) w
  | _ => w
  end.

(** *** [handleData]: the frame decoder *)

(** [/Content-Length:\s*(\d+)/i] *)
Definition contentLengthPattern : regex :=
  Seqs [LitI "Content-Length:"; Star ws; Grp 1 (Plus digit)].

Section Decoder.
(** [JSON.parse] followed by the cast to the message types; [None] when it
    throws.  It is the runtime's, so the decoder takes it as a parameter. *)
Variable JSON_parse : jsstring -> option Message.

(** The [while (true)] loop of [handleData], over any handler of the
    decoded messages.  Every round that does not [break] removes at
    least four units from the buffer. *)
Fixpoint decodeLoop {W} (handle : Message -> W -> W) (fuel : nat)
    (buf : jsstring) (w : W) : jsstring * W :=
  match fuel with
  | O => (buf, w)
  | S fuel' =>
      match indexOf buf CRLFCRLF with
      | None => (buf, w)
      | Some headerEnd =>
          let header := substring buf 0 headerEnd in
          match js_match header contentLengthPattern with
          | None =>
              decodeLoop handle fuel' (substring_from buf (headerEnd + 4)) w
          | Some contentLengthMatch =>
              let contentLength :=
                N.to_nat (parseInt10 (default [] (group 1 contentLengthMatch))) in
              let messageStart := (headerEnd + 4)%nat in
              let messageEnd := (messageStart + contentLength)%nat in
              if Nat.ltb (length buf) messageEnd then (buf, w)
              else
                let messageStr := substring buf messageStart messageEnd in
                let buf' := substring_from buf messageEnd in
                let w' :=
                  match JSON_parse messageStr with
                  | Some message => handle message w
                  | None => w
                  end in
                decodeLoop handle fuel' buf' w'
          end
      end
  end.

(** [this.buffer += data.toString()] and the loop. *)
Definition decode {W} (handle : Message -> W -> W) (buf : jsstring)
    (data : list N) (w : W) : jsstring * W :=
  let buf1 := buf ++ utf8Decode data in
  decodeLoop handle (S (length buf1)) buf1 w.

Definition handleData (data : list N) (w : World) : World :=
  let '(buf, w') := decode handleMessage (buffer (client w)) data w in
  with_client (set_buffer buf) w'.

(** The decoder alone, fed chunk by chunk: the messages it hands over. *)
Definition feed (st : jsstring * list Message) (data : list N)
  : jsstring * list Message :=
  decode (fun m log => log ++ [m]) (fst st) data (snd st).

Definition decodeChunks (chunks : list (list N)) : jsstring * list Message :=
  fold_left feed chunks ([], []).

End Decoder.

(** *** The async methods *)

(** The continuation of a method once the promise of its [sendRequest] is
    settled; a rejection is the exception thrown by [await], which none of
    these methods catches.  ([evaluateMultiple], a loop of [evaluate] calls
    that skips the ones that throw, sends nothing itself.) *)
Definition runJob (j : Cont * Outcome) (w : World) : World :=
  match j with
  | (KSetBreakpoints sourcePath call, Resolved response) =>
      match DAPResponse.success response, DAPResponse.body response with
      | true, Some body =>
          let bps := default [] (Body.breakpoints body) in
          conclude call (Returned (VBreakpoints bps))
            (with_client
               (fun c => set_breakpoints (map_set sourcePath bps (breakpoints c)) c)
               w)
      | _, _ => conclude call (Returned (VBreakpoints [])) w
      end
  | (KInitialize call, Resolved response) =>
      let w1 :=
        match DAPResponse.success response, DAPResponse.body response with
        | true, Some body => with_client (set_capabilities (Some body)) w
        | _, _ => w
        end in
      sendRequest (js "configurationDone") (JObj []) (KConfigurationDone call) w1
  | (KConfigurationDone call, Resolved _) =>
      conclude call (Returned (VCapabilities (capabilities (client w)))) w
  | (KResult call, Resolved response) =>
      conclude call (Returned (VResult response)) w
  | (KVoid call, Resolved _) => conclude call (Returned VVoid) w
  | (KInitialize call, Rejected e)
  | (KConfigurationDone call, Rejected e)
  | (KSetBreakpoints _ call, Rejected e)
  | (KResult call, Rejected e)
  | (KVoid call, Rejected e) => conclude call (Thrown e) w
  end.

(** The promise jobs run in the order they were queued, once the current
    handler has returned.  A job queues at most one more job, and that one
    queues none, so twice the length of the queue is fuel enough. *)
Fixpoint drain (fuel : nat) (w : World) : World :=
  match fuel with
  | O => w
  | S fuel' =>
      match jobs w with
      | [] => w
      | j :: rest => drain fuel' (runJob j (with_jobs rest w))
      end
  end.

Definition runJobs (w : World) : World := drain (2 * length (jobs w)) w.

(** The public methods that send a request. *)
Inductive Call :=
| Initialize
| GetThreads
| StackTrace (threadId startFrame levels : Z)
| Scopes (frameId : Z)
| Variables (variablesReference : Z) (start count : option Z)
| Evaluate (expression : jsstring) (frameId : Z)
| SetBreakpoints (sourcePath : jsstring) (lines : list Z)
| Continue (threadId : Z)
| Next (threadId : Z)
| StepIn (threadId : Z)
| StepOut (threadId : Z)
| Pause (threadId : Z).

Definition threadArgs (threadId : Z) : json :=
  JObj [(js "threadId", JNum threadId)].

Definition optional (key : string) (v : option Z) : list (jsstring * json) :=
  match v with
  | Some z => [(js key, JNum z)]
  | None => []
  end.

(** The call of a method up to its [await]. *)
Definition invoke (method : Call) (w : World) : World :=
  let '(outer, w1) := newCall w in
  match method with
  | Initialize =>
      sendRequest (js "initialize")
        (JObj [(js "clientID", JStr (js "godot-mcp"));
               (js "clientName", JStr (js "Godot MCP Server"));
               (js "adapterID", JStr (js "godot"));
               (js "linesStartAt1", JBool true);
               (js "columnsStartAt1", JBool true);
               (js "pathFormat", JStr (js "path"));
               (js "supportsVariableType", JBool true)])
        (KInitialize outer) w1
  | GetThreads => sendRequest (js "threads") (JObj []) (KResult outer) w1
  | StackTrace threadId startFrame levels =>
      sendRequest (js "stackTrace")
        (JObj [(js "threadId", JNum threadId);
               (js "startFrame", JNum startFrame);
               (js "levels", JNum levels)])
        (KResult outer) w1
  | Scopes frameId =>
      sendRequest (js "scopes") (JObj [(js "frameId", JNum frameId)])
        (KResult outer) w1
  | Variables variablesReference start count =>
      sendRequest (js "variables")
        (JObj ([(js "variablesReference", JNum variablesReference)]
               ++ optional "start" start ++ optional "count" count))
        (KResult outer) w1
  | Evaluate expression frameId =>
      sendRequest (js "evaluate")
        (JObj [(js "expression", JStr expression);
               (js "frameId", JNum frameId);
               (js "context", JStr (js "hover"))])
        (KResult outer) w1
  | SetBreakpoints sourcePath lines =>
      sendRequest (js "setBreakpoints")
        (JObj [(js "source", JObj [(js "path", JStr sourcePath)]);
               (js "breakpoints",
                JArr (map (fun line => JObj [(js "line", JNum line)]) lines))])
        (KSetBreakpoints sourcePath outer) w1
  | Continue threadId =>
      sendRequest (js "continue") (threadArgs threadId) (KVoid outer) w1
  | Next threadId =>
      sendRequest (js "next") (threadArgs threadId) (KVoid outer) w1
  | StepIn threadId =>
      sendRequest (js "stepIn") (threadArgs threadId) (KVoid outer) w1
  | StepOut threadId =>
      sendRequest (js "stepOut") (threadArgs threadId) (KVoid outer) w1
  | Pause threadId =>
      sendRequest (js "pause") (threadArgs threadId) (KVoid outer) w1
  end.

(** *** Socket handlers *)

(** [connect()]: [this.socket = new net.Socket()]. *)
Definition openSocket (c : DAPClient) : DAPClient :=
  set_socket (Some {| Socket.written := [] |}) c.

(** [this.socket.on('connect', ...)] *)
Definition onConnect (c : DAPClient) : DAPClient := set_connected true c.

(** [this.socket.on('close', ...)] *)
Definition onClose (c : DAPClient) : DAPClient :=
  set_socket None (set_paused false (set_connected false c)).

(** [this.socket.on('error', ...)] *)
Definition onError (c : DAPClient) : DAPClient := set_connected false c.

(** [disconnect()] *)
Definition disconnect (c : DAPClient) : DAPClient :=
  match socket c with
  | Some _ => set_paused false (set_connected false (set_socket None c))
  | None => c
  end.

(** *** The event loop *)

(** What the event loop runs, one task at a time. *)
Inductive Event :=
| Invoke (method : Call)
| Connect
| OnConnect
| OnData (data : list N)
| OnClose
| OnError
| Disconnect
| OnTimeout (seq : Z).

(** The first armed timer of request [seq], taken off the list. *)
Fixpoint takeTimer (seq : Z) (ts : list Timer.t)
  : option (Timer.t * list Timer.t) :=
  match ts with
  | [] => None
  | t :: ts' =>
      if bool_decide (Timer.seq t = seq) then Some (t, ts')
      else match takeTimer seq ts' with
           | Some (t', rest) => Some (t', t :: rest)
           | None => None
           end
  end.

(** A chunk that completes exactly the frame of [m]: [handleData] calls
    [handleMessage(m)], and the promise jobs run once it has returned. *)
Definition receive (m : Message) (w : World) : World :=
  runJobs (handleMessage m w).

Section Loop.
Variable JSON_parse : jsstring -> option Message.

Definition handler (e : Event) (w : World) : World :=
  match e with
  | Invoke method => invoke method w
  | Connect => with_client openSocket w
  | OnConnect => with_client onConnect w
  | OnData data => handleData JSON_parse data w
  | OnClose => with_client onClose w
  | OnError => with_client onError w
  | Disconnect => with_client disconnect w
  | OnTimeout seq =>
      match takeTimer seq (timers w) with
      | Some (t, rest) => onTimeout t (with_timers rest w)
      | None => w
      end
  end.

(** One task, then the promise jobs it queued. *)
Definition step (w : World) (e : Event) : World := runJobs (handler e w).

Definition runEvents (w : World) (es : list Event) : World :=
  fold_left step es w.

Definition reachable (w : World) : Prop :=
  exists es, w = runEvents newWorld es.

End Loop.

End DAP.

(* ===================================================================== *)
(** ** The scope analyzer ([src/dap/gdscript-parser.ts])                   *)
(* ===================================================================== *)

Module GDScript.
Import JS Regex.

Inductive Scope := class | local | parameter.

(** [interface VariableInfo] *)
Module VariableInfo.
Record t := {
  name : jsstring;
  type : option jsstring;
  line : Z;
  scope : Scope;
}.
End VariableInfo.

(** [interface FunctionInfo] *)
Module FunctionInfo.
Record t := {
  name : jsstring;
  startLine : Z;
  endLine : Z;
  parameters : list jsstring;
  localVariables : list VariableInfo.t;
}.
End FunctionInfo.

(** [interface ScriptInfo] *)
Record ScriptInfo := {
  classVariables : list VariableInfo.t;
  functions : list FunctionInfo.t;
}.

(** *** The patterns of [parseGDScriptContent] *)

(** [/^(var|const|@onready\s+var|@export\s+var)\s+(\w+)/] *)
Definition classVarPattern : regex :=
  Seqs [Bol;
        Grp 1 (Alt (Lit "var")
              (Alt (Lit "const")
              (Alt (Seqs [Lit "@onready"; Plus ws; Lit "var"])
                   (Seqs [Lit "@export"; Plus ws; Lit "var"]))));
        Plus ws; Grp 2 (Plus word)].

(** [/^\s+(var|const)\s+(\w+)/] *)
Definition localVarPattern : regex :=
  Seqs [Bol; Plus ws; Grp 1 (Alt (Lit "var") (Lit "const")); Plus ws;
        Grp 2 (Plus word)].

(** [/^func\s+(\w+)\s*\(PARAMS\)/] where [PARAMS] is the group
    [([^)]STAR)], the class [[^)]] under the star quantifier. *)
Definition funcPattern : regex :=
  Seqs [Bol; Lit "func"; Plus ws; Grp 1 (Plus word); Star ws; Lit "(";
        Grp 2 (Star (NotOneOf ")")); Lit ")"].

(** [/^\s+for\s+(\w+)\s+in/] *)
Definition forPattern : regex :=
  Seqs [Bol; Plus ws; Lit "for"; Plus ws; Grp 1 (Plus word); Plus ws;
        Lit "in"].

(** [/^\s+(\w+)\s*:?=\s*/] *)
Definition assignPattern : regex :=
  Seqs [Bol; Plus ws; Grp 1 (Plus word); Star ws; Opt (Lit ":"); Lit "=";
        Star ws].

(** [/^\s*$/] *)
Definition blankPattern : regex := Seqs [Bol; Star ws; Eol].

(** [new RegExp(`${varName}\\s*:\\s*(\\w+)`)]; [varName] is a [(\w+)]
    capture, so it stands for itself in the pattern. *)
Definition typePattern (varName : jsstring) : regex :=
  Seqs [fold_right (fun c r => Seq (Unit c) r) Eps varName;
        Star ws; Lit ":"; Star ws; Grp 1 (Plus word)].

(** [/^(\w+)/] *)
Definition paramPattern : regex := Seqs [Bol; Grp 1 (Plus word)].

Definition matches (s : jsstring) (r : regex) : bool :=
  match js_match s r with Some _ => true | None => false end.

(** [parseParameters(paramsStr)] *)
Definition parseParameters (paramsStr : jsstring) : list jsstring :=
  match trim paramsStr with
  | [] => []
  | _ :: _ =>
      flat_map
        (fun part =>
           match js_match (trim part) paramPattern with
           | Some m => [default [] (group 1 m)]
           | None => []
           end)
        (split_on 44 paramsStr)
  end.

(** The variables of the loop of [parseGDScriptContent]. *)
Record Scan := {
  currentFunction : option FunctionInfo.t;
  functionIndent : nat;
  classVars : list VariableInfo.t;
  funcs : list FunctionInfo.t;
}.

Definition setEndLine (e : Z) (f : FunctionInfo.t) : FunctionInfo.t :=
  {| FunctionInfo.name := FunctionInfo.name f;
     FunctionInfo.startLine := FunctionInfo.startLine f;
     FunctionInfo.endLine := e;
     FunctionInfo.parameters := FunctionInfo.parameters f;
     FunctionInfo.localVariables := FunctionInfo.localVariables f |}.

(** [currentFunction.localVariables.push(v)] *)
Definition pushLocal (v : VariableInfo.t) (f : FunctionInfo.t)
  : FunctionInfo.t :=
  {| FunctionInfo.name := FunctionInfo.name f;
     FunctionInfo.startLine := FunctionInfo.startLine f;
     FunctionInfo.endLine := FunctionInfo.endLine f;
     FunctionInfo.parameters := FunctionInfo.parameters f;
     FunctionInfo.localVariables := FunctionInfo.localVariables f ++ [v] |}.

Definition isComment (trimmedLine : jsstring) : bool :=
  startsWith trimmedLine (js "#").

Definition declaredType (line varName : jsstring) : option jsstring :=
  match js_match line (typePattern varName) with
  | Some m => group 1 m
  | None => None
  end.

Definition hasName (varName : jsstring) (vs : list VariableInfo.t) : bool :=
  existsb (fun v => bool_decide (VariableInfo.name v = varName)) vs.

(** "Check if we've exited the current function": the first block of the
    loop body; [i] is the index of the line. *)
Definition exitFunction (i : nat) (line : jsstring) (st : Scan) : Scan :=
  let trimmedLine := trimStart line in
  let currentIndent := (length line - length trimmedLine)%nat in
  match currentFunction st with
  | Some f =>
      if negb (Nat.eqb (length trimmedLine) 0) && negb (isComment trimmedLine)
         && Nat.leb currentIndent (functionIndent st)
         && negb (matches line blankPattern)
      then {| currentFunction := None;
              functionIndent := functionIndent st;
              classVars := classVars st;
              funcs := funcs st ++ [setEndLine (Z.of_nat i) f] |}
      else st
  | None => st
  end.

(** The function opened by a line that [funcPattern] matches. *)
Definition openFunction (lineNum : Z) (funcMatch : caps) : FunctionInfo.t :=
  let funcName := default [] (group 1 funcMatch) in
  let paramsStr := default [] (group 2 funcMatch) in
  let parameters := parseParameters paramsStr in
  {| FunctionInfo.name := funcName;
     FunctionInfo.startLine := lineNum;
     FunctionInfo.endLine := lineNum;
     FunctionInfo.parameters := parameters;
     FunctionInfo.localVariables :=
       map (fun param =>
              {| VariableInfo.name := param; VariableInfo.type := None;
                 VariableInfo.line := lineNum;
                 VariableInfo.scope := parameter |})
           parameters |}.

(** "Check for local variables inside functions": the last block of the
    loop body, for a line inside function [f]. *)
Definition scanLocal (lineNum : Z) (line : jsstring)
    (classVariables : list VariableInfo.t) (f : FunctionInfo.t)
  : FunctionInfo.t :=
  match js_match line localVarPattern with
  | Some localVarMatch =>
      let varName := default [] (group 2 localVarMatch) in
      pushLocal {| VariableInfo.name := varName;
                   VariableInfo.type := declaredType line varName;
                   VariableInfo.line := lineNum;
                   VariableInfo.scope := local |} f
  | None =>
      match js_match line forPattern with
      | Some forMatch =>
          pushLocal {| VariableInfo.name := default [] (group 1 forMatch);
                       VariableInfo.type := None;
                       VariableInfo.line := lineNum;
                       VariableInfo.scope := local |} f
      | None =>
          match js_match line assignPattern with
          | Some assignMatch =>
              let varName := default [] (group 1 assignMatch) in
              let alreadyDeclared :=
                hasName varName (FunctionInfo.localVariables f)
                || hasName varName classVariables in
              if negb alreadyDeclared && negb (includes varName (js "."))
                 && negb (bool_decide (varName = js "self"))
              then pushLocal {| VariableInfo.name := varName;
                                VariableInfo.type := None;
                                VariableInfo.line := lineNum;
                                VariableInfo.scope := local |} f
              else f
          | None => f
          end
      end
  end.

(** The loop body after the exit check. *)
Definition scanBody (i : nat) (line : jsstring) (st : Scan) : Scan :=
  let lineNum := (Z.of_nat i + 1)%Z in
  let trimmedLine := trimStart line in
  let currentIndent := (length line - length trimmedLine)%nat in
  if Nat.eqb (length trimmedLine) 0 || isComment trimmedLine then st
  else
    match js_match line funcPattern with
    | Some funcMatch =>
        (* "Save previous function if exists" *)
        let saved :=
          match currentFunction st with
          | Some f => funcs st ++ [setEndLine (Z.of_nat i) f]
          | None => funcs st
          end in
        {| currentFunction := Some (openFunction lineNum funcMatch);
           functionIndent := currentIndent;
           classVars := classVars st;
           funcs := saved |}
    | None =>
        let classVarMatch :=
          if Nat.eqb currentIndent 0 then js_match line classVarPattern
          else None in
        match classVarMatch with
        | Some m =>
            let varName := default [] (group 2 m) in
            {| currentFunction := currentFunction st;
               functionIndent := functionIndent st;
               classVars :=
                 classVars st ++
                 [{| VariableInfo.name := varName;
                     VariableInfo.type := declaredType line varName;
                     VariableInfo.line := lineNum;
                     VariableInfo.scope := class |}];
               funcs := funcs st |}
        | None =>
            match currentFunction st with
            | Some f =>
                {| currentFunction :=
                     Some (scanLocal lineNum line (classVars st) f);
                   functionIndent := functionIndent st;
                   classVars := classVars st;
                   funcs := funcs st |}
            | None => st
            end
        end
    end.

(** One round of the [for] loop. *)
Definition scanLine (i : nat) (line : jsstring) (st : Scan) : Scan :=
  scanBody i line (exitFunction i line st).

Fixpoint scanLines (i : nat) (lines : list jsstring) (st : Scan) : Scan :=
  match lines with
  | [] => st
  | line :: rest => scanLines (S i) rest (scanLine i line st)
  end.

Definition scanStart : Scan :=
  {| currentFunction := None; functionIndent := 0%nat;
     classVars := []; funcs := [] |}.

(** "Don't forget the last function" *)
Definition finish (n : nat) (st : Scan) : ScriptInfo :=
  {| classVariables := classVars st;
     functions :=
       match currentFunction st with
       | Some f => funcs st ++ [setEndLine (Z.of_nat n) f]
       | None => funcs st
       end |}.

(** [parseGDScriptContent(content)] *)
Definition parseGDScriptContent (content : jsstring) : ScriptInfo :=
  let lines := split_on 10 content in
  finish (length lines) (scanLines 0 lines scanStart).

Definition contains (line : Z) (func : FunctionInfo.t) : bool :=
  (FunctionInfo.startLine func <=? line)%Z
  && (line <=? FunctionInfo.endLine func)%Z.

Definition declaredBy (line : Z) (func : FunctionInfo.t)
  : list VariableInfo.t :=
  List.filter (fun localVar => (VariableInfo.line localVar <=? line)%Z)
    (FunctionInfo.localVariables func).

(** The [for ... break] of [getVariablesAtLine]: the first function that
    contains the line, and no other. *)
Fixpoint localsAtLine (funcs : list FunctionInfo.t) (line : Z)
  : list VariableInfo.t :=
  match funcs with
  | [] => []
  | func :: rest =>
      if contains line func then declaredBy line func
      else localsAtLine rest line
  end.

(** [getVariablesAtLine(scriptInfo, line)] *)
Definition getVariablesAtLine (scriptInfo : ScriptInfo) (line : Z)
  : list VariableInfo.t :=
  classVariables scriptInfo ++ localsAtLine (functions scriptInfo) line.

(** [names.add(name)] on a [Set], which keeps its elements in the order
    they were first added. *)
Definition set_add (name : jsstring) (names : list jsstring) : list jsstring :=
  if bool_decide (name ∈ names) then names else names ++ [name].

(** [getVariableNamesAtLine(scriptInfo, line)] *)
Definition getVariableNamesAtLine (scriptInfo : ScriptInfo) (line : Z)
  : list jsstring :=
  let variables := getVariablesAtLine scriptInfo line in
  fold_left (fun names v => set_add (VariableInfo.name v) names) variables
    (set_add (js "self") []).

(** [parseGDScript(filePath)]; [file] is what [readFileSync] returns,
    [None] when it throws. *)
Definition parseGDScript (file : option jsstring) : ScriptInfo :=
  match file with
  | Some content => parseGDScriptContent content
  | None => {| classVariables := []; functions := [] |}
  end.

End GDScript.

(* ===================================================================== *)
(** ** Variable discovery of [get_local_variables] ([src/index.ts])        *)
(* ===================================================================== *)

Module Locals.
Import JS Regex GDScript.

(** [/^-?\d+$/] *)
Definition intPattern : regex :=
  Seqs [Bol; Opt (Lit "-"); Plus digit; Eol].

(** [/^-?\d+\.\d+$/] *)
Definition floatPattern : regex :=
  Seqs [Bol; Opt (Lit "-"); Plus digit; Lit "."; Plus digit; Eol].

(** [(val.match(/,/g) || []).length] *)
Definition commaCount (val : jsstring) : nat :=
  length (List.filter (unit_eqb 44) val).

(** The chain that infers a type from the text of an evaluated value, in
    the loop of [handleGetLocalVariables]. *)
Definition inferType (val : jsstring) : jsstring :=
  if startsWith val (js "(") && includes val (js ",") then
    if Nat.eqb (commaCount val) 1 then js "Vector2"
    else if Nat.eqb (commaCount val) 2 then js "Vector3"
    else if Nat.eqb (commaCount val) 3 then js "Vector4/Color"
    else js "Variant"
  else if bool_decide (val = js "true") || bool_decide (val = js "false")
  then js "bool"
  else if matches val intPattern then js "int"
  else if matches val floatPattern then js "float"
  else if startsWith val [34] || startsWith val [39] then js "String"
  else if startsWith val (js "[") then js "Array"
  else if startsWith val (js "{") then js "Dictionary"
  else if includes val (js "<") && includes val (js ">") then js "Object"
  else if bool_decide (val = js "null") || bool_decide (val = js "<null>")
  then js "null"
  else js "Variant".

(** The names [handleGetLocalVariables] evaluates for a frame.  [script]
    is [None] when the frame has no script path or [existsSync] finds no
    file there, else what [readFileSync] gives for it; [frameName] is
    [frame.name]. *)
Definition variableNames (script : option (option jsstring)) (line : Z)
    (frameName : jsstring) : list jsstring :=
  let names0 :=
    match script with
    | Some file => getVariableNamesAtLine (parseGDScript file) line
    | None => [js "self"]
    end in
  if negb (Nat.eqb (length frameName) 0)
     && negb (bool_decide (frameName = js "_ready"))
     && negb (bool_decide (frameName = js "_init"))
     && includes frameName (js "process")
     && negb (bool_decide (js "delta" ∈ names0))
  then names0 ++ [js "delta"]
  else names0.

End Locals.

(* ===================================================================== *)
(** * Telemetry: the FIFO buffers                                          *)
(* ===================================================================== *)

Section Fifo.
Import JS Telemetry.
Local Open Scope nat_scope.

(** The [C] most recently inserted items of an insertion history. *)
Definition mostRecent {A} (C : nat) (history : list A) : list A :=
  drop (length history - C) history.

Lemma mostRecent_length {A} C (h : list A) :
  length (mostRecent C h) = Nat.min C (length h).
Proof. unfold mostRecent. rewrite length_drop. lia. Qed.

Lemma mostRecent_short {A} C (h : list A) :
  length h <= C -> mostRecent C h = h.
Proof.
  intros H. unfold mostRecent.
  replace (length h - C) with 0 by lia. reflexivity.
Qed.

Lemma mostRecent_snoc {A} C (h : list A) x :
  mostRecent C (mostRecent C h ++ [x]) = mostRecent C (h ++ [x]).
Proof.
  unfold mostRecent.
  rewrite <- (drop_app_le h [x] (length h - C)) by lia.
  rewrite drop_drop. f_equal.
  rewrite length_drop, !length_app. simpl. lia.
Qed.

Lemma shift_is_drop {A} (l : list A) : shift l = drop 1 l.
Proof. destruct l; reflexivity. Qed.

(** One insertion into the runtime-error buffer keeps the most recent
    [maxSize] items of what was there followed by the new one. *)
Lemma store_mostRecent (b : RuntimeErrorBuffer.t) (e : RuntimeError.t) :
  0 < RuntimeErrorBuffer.maxSize b ->
  length (RuntimeErrorBuffer.errors b) <= RuntimeErrorBuffer.maxSize b ->
  RuntimeErrorBuffer.errors (store b e)
  = mostRecent (RuntimeErrorBuffer.maxSize b)
      (RuntimeErrorBuffer.errors b ++ [e]).
Proof.
  intros Hpos Hle. unfold store, mostRecent. simpl.
  rewrite length_app. simpl.
  destruct (Nat.leb_spec (RuntimeErrorBuffer.maxSize b)
              (length (RuntimeErrorBuffer.errors b))) as [Hfull|Hroom].
  - rewrite shift_is_drop.
    replace (length (RuntimeErrorBuffer.errors b) + 1
             - RuntimeErrorBuffer.maxSize b) with 1 by lia.
    rewrite drop_app_le by lia. reflexivity.
  - replace (length (RuntimeErrorBuffer.errors b) + 1
             - RuntimeErrorBuffer.maxSize b) with 0 by lia.
    reflexivity.
Qed.

Lemma store_maxSize b e :
  RuntimeErrorBuffer.maxSize (store b e) = RuntimeErrorBuffer.maxSize b.
Proof. reflexivity. Qed.

Lemma store_bounded b e :
  0 < RuntimeErrorBuffer.maxSize b ->
  length (RuntimeErrorBuffer.errors b) <= RuntimeErrorBuffer.maxSize b ->
  length (RuntimeErrorBuffer.errors (store b e))
  <= RuntimeErrorBuffer.maxSize b.
Proof.
  intros Hpos Hle. rewrite store_mostRecent by assumption.
  rewrite mostRecent_length. lia.
Qed.

(** Insertions into an empty runtime-error buffer of capacity [C]. *)
Lemma store_history C (es : list RuntimeError.t) :
  0 < C ->
  RuntimeErrorBuffer.maxSize
    (fold_left store es
       {| RuntimeErrorBuffer.errors := []; RuntimeErrorBuffer.maxSize := C |})
  = C
  /\ RuntimeErrorBuffer.errors
       (fold_left store es
          {| RuntimeErrorBuffer.errors := [];
             RuntimeErrorBuffer.maxSize := C |})
     = mostRecent C es.
Proof.
  intros Hpos. induction es as [|e es IH] using rev_ind.
  - split; reflexivity.
  - rewrite fold_left_app.
    destruct IH as [Hmax Herr].
    change (fold_left store [e] ?b) with (store b e).
    split; [rewrite store_maxSize; exact Hmax|].
    rewrite store_mostRecent.
    + rewrite Hmax, Herr. apply mostRecent_snoc.
    + rewrite Hmax. exact Hpos.
    + rewrite Hmax, Herr, mostRecent_length. lia.
Qed.

(** One insertion into the debug-message buffer. *)
Lemma pushDebugMessage_mostRecent (d : list DebugMessage.t) m :
  length d <= MAX_DEBUG_MESSAGES ->
  pushDebugMessage d m = mostRecent MAX_DEBUG_MESSAGES (d ++ [m]).
Proof.
  intros Hle. unfold pushDebugMessage, mostRecent.
  rewrite length_app. simpl.
  destruct (Nat.ltb_spec MAX_DEBUG_MESSAGES (length d + 1)) as [Hover|Hfit].
  - rewrite shift_is_drop. f_equal. lia.
  - replace (length d + 1 - MAX_DEBUG_MESSAGES) with 0 by lia. reflexivity.
Qed.

Lemma pushDebugMessage_bounded (d : list DebugMessage.t) m :
  length d <= MAX_DEBUG_MESSAGES ->
  length (pushDebugMessage d m) <= MAX_DEBUG_MESSAGES.
Proof.
  intros Hle. rewrite pushDebugMessage_mostRecent by assumption.
  rewrite mostRecent_length. lia.
Qed.

Lemma pushDebugMessage_history (ms : list DebugMessage.t) :
  fold_left pushDebugMessage ms [] = mostRecent MAX_DEBUG_MESSAGES ms.
Proof.
  induction ms as [|m ms IH] using rev_ind.
  - reflexivity.
  - rewrite fold_left_app. simpl. rewrite IH.
    rewrite pushDebugMessage_mostRecent
      by (rewrite mostRecent_length; lia).
    apply mostRecent_snoc.
Qed.

(** The classifier keeps the capacity of the buffer and its bound. *)
Lemma parseAndStoreError_bounded now line b pending :
  0 < RuntimeErrorBuffer.maxSize b ->
  length (RuntimeErrorBuffer.errors b) <= RuntimeErrorBuffer.maxSize b ->
  let b' := fst (parseAndStoreError now line b pending) in
  RuntimeErrorBuffer.maxSize b' = RuntimeErrorBuffer.maxSize b
  /\ length (RuntimeErrorBuffer.errors b') <= RuntimeErrorBuffer.maxSize b.
Proof.
  intros Hpos Hle. unfold parseAndStoreError.
  destruct (trim line); [cbn [fst]; auto|].
  destruct (truthy pending); [|cbn [fst]; auto].
  repeat match goal with
         | |- context [match ?x with _ => _ end] => destruct x
         end; cbn [fst];
    (split; [reflexivity | auto using store_bounded]).
Qed.

Definition withinCapacity (p : GodotProcess.t) : Prop :=
  RuntimeErrorBuffer.maxSize (GodotProcess.runtimeErrors p)
  = MAX_RUNTIME_ERRORS
  /\ length (RuntimeErrorBuffer.errors (GodotProcess.runtimeErrors p))
     <= MAX_RUNTIME_ERRORS
  /\ length (GodotProcess.debugMessages p) <= MAX_DEBUG_MESSAGES
  /\ length (shownDebugMessages p) <= MAX_DEBUG_MESSAGES.

Lemma stdoutLine_withinCapacity now p line :
  withinCapacity p -> withinCapacity (stdoutLine now p line).
Proof.
  intros (Hm & He & Hd & Hs). unfold stdoutLine.
  destruct (nonblank line); [|repeat split; assumption].
  unfold withinCapacity, shownDebugMessages in *.
  cbn [GodotProcess.runtimeErrors GodotProcess.debugMessages
       GodotProcess.rebound].
  split; [exact Hm|]. split; [exact He|].
  split; [apply pushDebugMessage_bounded, Hd|].
  destruct (GodotProcess.rebound p);
    [exact Hs | apply pushDebugMessage_bounded, Hd].
Qed.

Lemma stderrLine_withinCapacity parse now p line :
  withinCapacity p -> withinCapacity (stderrLine parse now p line).
Proof.
  intros (Hm & He & Hd & Hs). unfold stderrLine.
  destruct (nonblank line); [|repeat split; assumption].
  pose proof (parseAndStoreError_bounded now line
                (GodotProcess.runtimeErrors p)
                (GodotProcess.pendingErrorLine p)) as Hb.
  destruct (parseAndStoreError now line _ _) as [b' pending'].
  simpl in Hb. rewrite Hm in Hb.
  destruct Hb as [Hm' He']; [unfold MAX_RUNTIME_ERRORS; lia | exact He |].
  unfold withinCapacity, shownDebugMessages in *.
  cbn [GodotProcess.runtimeErrors GodotProcess.debugMessages
       GodotProcess.rebound].
  split; [congruence|]. split; [exact He'|].
  split; [apply pushDebugMessage_bounded, Hd|].
  destruct (GodotProcess.rebound p);
    [exact Hs | apply pushDebugMessage_bounded, Hd].
Qed.

Lemma fold_withinCapacity (f : GodotProcess.t -> jsstring -> GodotProcess.t)
    lines p :
  (forall q l, withinCapacity q -> withinCapacity (f q l)) ->
  withinCapacity p -> withinCapacity (fold_left f lines p).
Proof.
  intros Hf. revert p. induction lines as [|l lines IH]; simpl; auto.
Qed.

Lemma perform_withinCapacity parse p op :
  withinCapacity p -> withinCapacity (perform parse p op).
Proof.
  intros Hp. destruct op as [now data|now data| |]; cbn [perform].
  - apply fold_withinCapacity; [apply stdoutLine_withinCapacity|exact Hp].
  - apply fold_withinCapacity; [apply stderrLine_withinCapacity|exact Hp].
  - destruct Hp as (Hm & He & Hd & Hs).
    unfold withinCapacity, shownDebugMessages, clearRuntimeErrors in *.
    cbn [GodotProcess.runtimeErrors GodotProcess.debugMessages
         GodotProcess.rebound RuntimeErrorBuffer.errors
         RuntimeErrorBuffer.maxSize length].
    repeat split; try assumption. lia.
  - destruct Hp as (Hm & He & Hd & Hs).
    unfold withinCapacity, shownDebugMessages, clearDebugMessages in *.
    cbn [GodotProcess.runtimeErrors GodotProcess.debugMessages
         GodotProcess.rebound length].
    repeat split; try assumption. lia.
Qed.

Lemma spawned_withinCapacity : withinCapacity spawned.
Proof. repeat split; cbn; lia. Qed.

(** C2. More than [C] insertions into a FIFO buffer of capacity [C] (the
    runtime-error buffer, [C = 100], and the debug-message buffer,
    [C = 500]) leave exactly [C] entries, the [C] most recently inserted
    items in insertion order; and after any sequence of insertions, and
    after any sequence of operations on a running process (output on
    stdout or stderr, clearing either buffer), the length of either buffer
    is at most its capacity. *)
Theorem fifo_keeps_most_recent :
  forall (es : list RuntimeError.t) (ms : list DebugMessage.t),
    let b := fold_left store es (GodotProcess.runtimeErrors spawned) in
    let d := fold_left pushDebugMessage ms (GodotProcess.debugMessages spawned) in
    (MAX_RUNTIME_ERRORS < length es ->
       length (RuntimeErrorBuffer.errors b) = MAX_RUNTIME_ERRORS
       /\ RuntimeErrorBuffer.errors b
          = drop (length es - MAX_RUNTIME_ERRORS) es)
    /\ (MAX_DEBUG_MESSAGES < length ms ->
          length d = MAX_DEBUG_MESSAGES
          /\ d = drop (length ms - MAX_DEBUG_MESSAGES) ms)
    /\ length (RuntimeErrorBuffer.errors b) <= MAX_RUNTIME_ERRORS
    /\ length d <= MAX_DEBUG_MESSAGES
    /\ (forall parseStderrLine (ops : list Operation),
          let p := fold_left (perform parseStderrLine) ops spawned in
          length (RuntimeErrorBuffer.errors (GodotProcess.runtimeErrors p))
          <= MAX_RUNTIME_ERRORS
          /\ length (GodotProcess.debugMessages p) <= MAX_DEBUG_MESSAGES
          /\ length (shownDebugMessages p) <= MAX_DEBUG_MESSAGES).
Proof.
  intros es ms b d.
  assert (Hb : RuntimeErrorBuffer.errors b = mostRecent MAX_RUNTIME_ERRORS es).
  { apply (store_history MAX_RUNTIME_ERRORS es). unfold MAX_RUNTIME_ERRORS. lia. }
  assert (Hd : d = mostRecent MAX_DEBUG_MESSAGES ms)
    by apply pushDebugMessage_history.
  split; [|split; [|split; [|split]]].
  - intros Hlong. rewrite Hb, mostRecent_length. split; [lia|reflexivity].
  - intros Hlong. rewrite Hd, mostRecent_length. split; [lia|reflexivity].
  - rewrite Hb, mostRecent_length. lia.
  - rewrite Hd, mostRecent_length. lia.
  - intros parse ops p.
    assert (Hp : withinCapacity p).
    { subst p. generalize spawned_withinCapacity. generalize spawned.
      induction ops as [|op ops IH]; simpl; intros q Hq; [exact Hq|].
      apply IH, perform_withinCapacity, Hq. }
    destruct Hp as (_ & He & Hdm & Hs). repeat split; assumption.
Qed.

Definition sampleError : RuntimeError.t :=
  {| RuntimeError.timestamp := 0; RuntimeError.type := error;
     RuntimeError.message := js "boom"; RuntimeError.script := [];
     RuntimeError.line := 0%N; RuntimeError.function := None |}.

Definition sampleMessage : DebugMessage.t :=
  {| DebugMessage.timestamp := 0; DebugMessage.category := cat_print;
     DebugMessage.message := js "hello"; DebugMessage.source := js "stdout" |}.

(** 101 errors and 501 messages: one more than each buffer holds. *)
Lemma fifo_keeps_most_recent_witness :
  length (RuntimeErrorBuffer.errors
            (fold_left store (replicate 101 sampleError)
               (GodotProcess.runtimeErrors spawned))) = MAX_RUNTIME_ERRORS
  /\ length (fold_left pushDebugMessage (replicate 501 sampleMessage)
               (GodotProcess.debugMessages spawned)) = MAX_DEBUG_MESSAGES.
Proof.
  destruct (fifo_keeps_most_recent (replicate 101 sampleError)
              (replicate 501 sampleMessage)) as (He & Hm & _).
  split.
  - apply He. vm_compute. lia.
  - apply Hm. vm_compute. lia.
Defined.

End Fifo.

(* ===================================================================== *)
(** * Telemetry: the classifier                                            *)
(* ===================================================================== *)

Section Classifier.
Import JS Regex Telemetry.

Definition emptyBuffer : RuntimeErrorBuffer.t :=
  {| RuntimeErrorBuffer.errors := [];
     RuntimeErrorBuffer.maxSize := MAX_RUNTIME_ERRORS |}.

(** Neither "at:" pattern matches the continuation line of the example:
    [atLine] wants a function name made of word characters only, and in
    [atLineAlt] the path group [[^:]+] cannot get past the colon of
    [res://]. *)
Example atLine_rejects_qualified_name :
  js_match (trim (js "   at: GDScript::reload (res://a.gd:4)")) atLine = None.
Proof. vm_compute. reflexivity. Qed.

Example atLineAlt_rejects_res_path :
  js_match (trim (js "   at: GDScript::reload (res://a.gd:4)")) atLineAlt = None.
Proof. vm_compute. reflexivity. Qed.

(** With a plain function name [atLine] matches, and the location is kept. *)
Example classify_plain_function : forall now1 now2,
  classify emptyBuffer None
    [(now1, js "ERROR: Parse Error: unexpected token");
     (now2, js "   at: reload (res://a.gd:4)")]
  = ({| RuntimeErrorBuffer.errors :=
          [{| RuntimeError.timestamp := now2;
              RuntimeError.type := error;
              RuntimeError.message := js "Parse Error: unexpected token";
              RuntimeError.script := js "res://a.gd";
              RuntimeError.line := 4;
              RuntimeError.function := Some (js "reload") |}];
        RuntimeErrorBuffer.maxSize := MAX_RUNTIME_ERRORS |}, None).
Proof. intros. vm_compute. reflexivity. Qed.

(** [atLineAlt] does match a qualified name when the path has no
    [res://] prefix. *)
Example classify_qualified_relative : forall now1 now2,
  classify emptyBuffer None
    [(now1, js "ERROR: Parse Error: unexpected token");
     (now2, js "   at: GDScript::reload (a.gd:4)")]
  = ({| RuntimeErrorBuffer.errors :=
          [{| RuntimeError.timestamp := now2;
              RuntimeError.type := error;
              RuntimeError.message := js "Parse Error: unexpected token";
              RuntimeError.script := js "res://a.gd";
              RuntimeError.line := 4;
              RuntimeError.function := Some (js "GDScript::reload") |}];
        RuntimeErrorBuffer.maxSize := MAX_RUNTIME_ERRORS |}, None).
Proof. intros. vm_compute. reflexivity. Qed.

(** C3, on the code.  The classifier fed [ERROR: Parse Error: unexpected
    token] and then [   at: GDScript::reload (res://a.gd:4)] records
    exactly one RuntimeError of type "error", but with an empty script
    and line 0 and no function: the continuation line matches neither
    [atLine] nor [atLineAlt], so the error is stored without location. *)
Theorem classifier_loses_location : forall now1 now2,
  classify emptyBuffer None
    [(now1, js "ERROR: Parse Error: unexpected token");
     (now2, js "   at: GDScript::reload (res://a.gd:4)")]
  = ({| RuntimeErrorBuffer.errors :=
          [{| RuntimeError.timestamp := now2;
              RuntimeError.type := error;
              RuntimeError.message := js "Parse Error: unexpected token";
              RuntimeError.script := [];
              RuntimeError.line := 0;
              RuntimeError.function := None |}];
        RuntimeErrorBuffer.maxSize := MAX_RUNTIME_ERRORS |}, None).
Proof. intros. vm_compute. reflexivity. Qed.

End Classifier.

(* ===================================================================== *)
(** * DAP client: getBreakpoints, events, the registry                    *)
(* ===================================================================== *)

Section Registry.
Import JS Regex Runtime DAP.

Lemma startsWith_app (p s : jsstring) : startsWith (p ++ s) p = true.
Proof.
  induction p as [|a p IH]; simpl; [destruct s; reflexivity|].
  unfold unit_eqb. rewrite N.eqb_refl. exact IH.
Qed.

Lemma line_or_0_default l : line_or_0 l = default 0%Z l.
Proof.
  destruct l as [n|]; simpl; [|reflexivity].
  destruct (Z.eqb_spec n 0); congruence.
Qed.

(** The view [getBreakpoints] builds of one stored breakpoint. *)
Definition viewOf (sourcePath : jsstring) (bp : Breakpoint.t)
  : BreakpointView.t :=
  {| BreakpointView.script :=
       if startsWith sourcePath (js "res://") then sourcePath
       else js "res://" ++ sourcePath;
     BreakpointView.line := line_or_0 (Breakpoint.line bp);
     BreakpointView.enabled := Breakpoint.verified bp |}.

Lemma getBreakpoints_elem c view :
  view ∈ getBreakpoints c ->
  exists sourcePath bps bp,
    (sourcePath, bps) ∈ breakpoints c /\ bp ∈ bps
    /\ view = viewOf sourcePath bp.
Proof.
  unfold getBreakpoints. rewrite list_elem_of_In, in_flat_map.
  intros ([sourcePath bps] & Hin & Hview).
  apply in_map_iff in Hview as (bp & <- & Hbp).
  exists sourcePath, bps, bp.
  rewrite !list_elem_of_In. auto.
Qed.

(** C10. Every entry of [getBreakpoints()] comes from a stored breakpoint
    and has a script path that begins with "res://": the stored source
    path itself when it already begins so, the path prefixed with
    "res://" otherwise; its line is 0 when the breakpoint has no line
    number (and the reported number otherwise), and [enabled] is the
    breakpoint's [verified] flag. *)
Theorem getBreakpoints_entries : forall (c : DAPClient) (view : BreakpointView.t),
  view ∈ getBreakpoints c ->
  exists sourcePath bps bp,
    (sourcePath, bps) ∈ breakpoints c /\ bp ∈ bps
    /\ startsWith (BreakpointView.script view) (js "res://") = true
    /\ (startsWith sourcePath (js "res://") = true ->
        BreakpointView.script view = sourcePath)
    /\ (startsWith sourcePath (js "res://") = false ->
        BreakpointView.script view = js "res://" ++ sourcePath)
    /\ (Breakpoint.line bp = None -> BreakpointView.line view = 0%Z)
    /\ (forall n, Breakpoint.line bp = Some n -> BreakpointView.line view = n)
    /\ BreakpointView.enabled view = Breakpoint.verified bp.
Proof.
  intros c view Hin.
  destruct (getBreakpoints_elem c view Hin) as (sourcePath & bps & bp & Hs & Hb & ->).
  exists sourcePath, bps, bp. unfold viewOf. cbn [BreakpointView.script
    BreakpointView.line BreakpointView.enabled].
  split; [exact Hs|]. split; [exact Hb|].
  destruct (startsWith sourcePath (js "res://")) eqn:Hpre.
  - repeat split; try congruence.
    + intros ->. reflexivity.
    + intros n ->. rewrite line_or_0_default. reflexivity.
  - repeat split; try congruence.
    + apply startsWith_app.
    + intros ->. reflexivity.
    + intros n ->. rewrite line_or_0_default. reflexivity.
Qed.

Definition storedClient : DAPClient :=
  set_breakpoints
    [(js "a.gd",
      [{| Breakpoint.id := Some 1%Z; Breakpoint.verified := true;
          Breakpoint.line := None |}])]
    newClient.

Lemma getBreakpoints_entries_witness :
  exists sourcePath bps bp,
    (sourcePath, bps) ∈ breakpoints storedClient /\ bp ∈ bps
    /\ startsWith (js "res://a.gd") (js "res://") = true
    /\ (startsWith sourcePath (js "res://") = true ->
        js "res://a.gd" = sourcePath)
    /\ (startsWith sourcePath (js "res://") = false ->
        js "res://a.gd" = js "res://" ++ sourcePath)
    /\ (Breakpoint.line bp = None -> 0%Z = 0%Z)
    /\ (forall n, Breakpoint.line bp = Some n -> 0%Z = n)
    /\ true = Breakpoint.verified bp.
Proof.
  apply (getBreakpoints_entries storedClient
           {| BreakpointView.script := js "res://a.gd";
              BreakpointView.line := 0%Z;
              BreakpointView.enabled := true |}).
  vm_compute. left.
Defined.

End Registry.

Section Session.
Import JS Regex Runtime DAP.

(** What the session-scoped data look like once cleared: the values the
    class starts with. *)
Definition sessionCleared (c : DAPClient) : Prop :=
  connected c = false /\ currentThreadId c = 1%Z /\ capabilities c = None.

Definition terminated : DAPEvent.t :=
  {| DAPEvent.seq := 9; DAPEvent.event := js "terminated";
     DAPEvent.body := None |}.

Definition someCapabilities : Body.t :=
  {| Body.breakpoints := None;
     Body.members := [(js "supportsConfigurationDoneRequest", JBool true)] |}.

(** A client stopped on thread 7 after [initialize]. *)
Definition pausedClient : DAPClient :=
  {| socket := Some {| Socket.written := [] |}; connected := true;
     paused := true; currentThreadId := 7%Z; sequenceNumber := 3%Z;
     pendingRequests := ∅; buffer := [];
     capabilities := Some someCapabilities;
     breakpoints := [] |}.

(** C6, as stated, fails on the code: after [terminated] the client is
    still connected, and neither [terminated] nor the close of the socket
    resets the thread id or the capabilities. *)
Lemma terminated_keeps_session :
  connected (handleEvent terminated pausedClient) = true
  /\ currentThreadId (handleEvent terminated pausedClient) = 7%Z
  /\ capabilities (handleEvent terminated pausedClient) = Some someCapabilities
  /\ currentThreadId (onClose pausedClient) = 7%Z
  /\ capabilities (onClose pausedClient) = Some someCapabilities
  /\ ~ sessionCleared (handleEvent terminated pausedClient)
  /\ ~ sessionCleared (onClose pausedClient).
Proof.
  repeat split; try reflexivity.
  - intros (H & _). vm_compute in H. discriminate.
  - intros (_ & H & _). vm_compute in H. discriminate.
Qed.

(** C6, amended.  A [terminated] event only sets [paused] to false: the
    connection flag, the socket, the current thread id, the cached
    capabilities and the breakpoint registry are left as they were.  The
    close of the transport sets [connected] and [paused] to false and
    drops the socket; the current thread id, the cached capabilities and
    the breakpoint registry are left as they were. *)
Theorem terminated_and_close : forall (c : DAPClient) (e : DAPEvent.t),
  DAPEvent.event e = js "terminated" ->
  handleEvent e c = set_paused false c
  /\ (forall w, client w = c ->
        handleMessage (MsgEvent e) w = with_client (set_paused false) w)
  /\ (forall parse w, client w = c -> jobs w = [] ->
        step parse w OnClose = with_client onClose w)
  /\ paused (handleEvent e c) = false
  /\ connected (handleEvent e c) = connected c
  /\ currentThreadId (handleEvent e c) = currentThreadId c
  /\ capabilities (handleEvent e c) = capabilities c
  /\ breakpoints (handleEvent e c) = breakpoints c
  /\ connected (onClose c) = false
  /\ paused (onClose c) = false
  /\ socket (onClose c) = None
  /\ currentThreadId (onClose c) = currentThreadId c
  /\ capabilities (onClose c) = capabilities c
  /\ breakpoints (onClose c) = breakpoints c.
Proof.
  intros c e He.
  assert (Hev : handleEvent e c = set_paused false c).
  { unfold handleEvent. rewrite He.
    rewrite (bool_decide_eq_false_2 (js "terminated" = js "stopped"))
      by (vm_compute; discriminate).
    rewrite (bool_decide_eq_false_2 (js "terminated" = js "continued"))
      by (vm_compute; discriminate).
    rewrite bool_decide_eq_true_2 by reflexivity. reflexivity. }
  split; [exact Hev|]. split.
  { intros w Hw. unfold handleMessage, with_client. rewrite Hw, Hev.
    reflexivity. }
  split.
  { intros parse w Hw Hjobs. unfold step, runJobs. cbn [handler].
    cbn [jobs with_client]. rewrite Hjobs. reflexivity. }
  rewrite Hev. repeat split.
Qed.

Lemma terminated_and_close_witness :
  handleEvent terminated pausedClient = set_paused false pausedClient
  /\ connected (onClose pausedClient) = false.
Proof.
  destruct (terminated_and_close pausedClient terminated eq_refl)
    as (H1 & _ & _ & _ & _ & _ & _ & _ & H2 & _).
  split; [exact H1 | exact H2].
Defined.

End Session.

Section Breakpoints.
Import JS Regex Runtime DAP.

Lemma map_get_set_eq {V} k (v : V) m : map_get k (map_set k v m) = Some v.
Proof.
  induction m as [|[k' v'] m IH]; simpl.
  - rewrite bool_decide_eq_true_2 by reflexivity. reflexivity.
  - destruct (bool_decide (k = k')) eqn:E; simpl.
    + rewrite bool_decide_eq_true_2 by reflexivity. reflexivity.
    + rewrite E. exact IH.
Qed.

Lemma map_get_set_ne {V} k k0 (v : V) m :
  k0 <> k -> map_get k0 (map_set k v m) = map_get k0 m.
Proof.
  intros Hne. induction m as [|[k' v'] m IH]; simpl.
  - rewrite bool_decide_eq_false_2 by exact Hne. reflexivity.
  - destruct (bool_decide (k = k')) eqn:E; simpl.
    + apply bool_decide_eq_true_1 in E. subst k'.
      rewrite !bool_decide_eq_false_2 by exact Hne. reflexivity.
    + destruct (bool_decide (k0 = k')); [reflexivity | exact IH].
Qed.

(** The promise of a request in flight, awaited by [k]. *)
Definition awaiting (k : Cont) : Promise.t :=
  {| Promise.outcome := None; Promise.awaiter := k |}.

(** A client whose socket is connected, fresh from the constructor. *)
Definition connectedWorld : World :=
  with_client onConnect (with_client openSocket newWorld).

Lemma connectedWorld_run parse :
  runEvents parse newWorld [Connect; OnConnect] = connectedWorld.
Proof. reflexivity. Qed.

Definition breakpointAt (id : option Z) (verified : bool) (line : Z)
  : Breakpoint.t :=
  {| Breakpoint.id := id; Breakpoint.verified := verified;
     Breakpoint.line := Some line |}.

(** A successful [setBreakpoints] response carrying [bps]. *)
Definition verifiedResponse (seq request_seq : Z) (bps : list Breakpoint.t)
  : DAPResponse.t :=
  {| DAPResponse.seq := seq; DAPResponse.request_seq := request_seq;
     DAPResponse.success := true;
     DAPResponse.command := js "setBreakpoints";
     DAPResponse.body :=
       Some {| Body.breakpoints := Some bps; Body.members := [] |};
     DAPResponse.message := None |}.

(** C8. On a freshly connected client, [setBreakpoints("a.gd",[1,2])]
    answered with breakpoints at lines 1 and 2, then
    [setBreakpoints("a.gd",[5])] answered with a breakpoint at line 5,
    leave [getBreakpoints()] with exactly one entry, at line 5 of
    res://a.gd.  In general the continuation of a successful
    [setBreakpoints] replaces the entry of its source path by the returned
    breakpoints and leaves the other paths alone, and [getBreakpoints]
    reads nothing but the stored registry. *)
Theorem reregistration_replaces :
  forall parse (s1 s2 : Z) (id1 id2 id5 : option Z) (v1 v2 v5 : bool),
    let w1 := step parse connectedWorld
                (Invoke (SetBreakpoints (js "a.gd") [1%Z; 2%Z])) in
    let w2 := receive (MsgResponse
                (verifiedResponse s1 1 [breakpointAt id1 v1 1;
                                        breakpointAt id2 v2 2])) w1 in
    let w3 := step parse w2 (Invoke (SetBreakpoints (js "a.gd") [5%Z])) in
    let w4 := receive (MsgResponse
                (verifiedResponse s2 2 [breakpointAt id5 v5 5])) w3 in
    getBreakpoints (client w2)
    = [{| BreakpointView.script := js "res://a.gd";
          BreakpointView.line := 1%Z; BreakpointView.enabled := v1 |};
       {| BreakpointView.script := js "res://a.gd";
          BreakpointView.line := 2%Z; BreakpointView.enabled := v2 |}]
    /\ getBreakpoints (client w4)
       = [{| BreakpointView.script := js "res://a.gd";
             BreakpointView.line := 5%Z; BreakpointView.enabled := v5 |}]
    /\ breakpoints (client w4) = [(js "a.gd", [breakpointAt id5 v5 5])]
    /\ (forall w sourcePath outer seq request_seq bps,
          let w' := runJob (KSetBreakpoints sourcePath outer,
                            Resolved (verifiedResponse seq request_seq bps))
                      w in
          map_get sourcePath (breakpoints (client w')) = Some bps
          /\ forall other, other <> sourcePath ->
               map_get other (breakpoints (client w'))
               = map_get other (breakpoints (client w)))
    /\ (forall c c', breakpoints c = breakpoints c' ->
          getBreakpoints c = getBreakpoints c').
Proof.
  intros. split; [|split; [|split; [|split]]].
  - vm_compute. reflexivity.
  - vm_compute. reflexivity.
  - vm_compute. reflexivity.
  - intros w sourcePath outer seq request_seq bps w'. subst w'.
    unfold runJob, verifiedResponse.
    cbn [DAPResponse.success DAPResponse.body Body.breakpoints default].
    unfold conclude.
    match goal with
    | |- context [calls ?W !! outer] =>
        destruct (calls W !! outer) as [[r|]|]
    end; cbn [client with_client with_calls breakpoints set_breakpoints];
      (split; [apply map_get_set_eq | intros; apply map_get_set_ne; assumption]).
  - intros c c' H. unfold getBreakpoints. rewrite H. reflexivity.
Qed.

Lemma reregistration_replaces_witness :
  let parse := fun _ : jsstring => @None Message in
  let w1 := step parse connectedWorld
              (Invoke (SetBreakpoints (js "a.gd") [1%Z; 2%Z])) in
  let w2 := receive (MsgResponse
              (verifiedResponse 10 1 [breakpointAt (Some 1%Z) true 1;
                                      breakpointAt (Some 2%Z) true 2])) w1 in
  let w3 := step parse w2 (Invoke (SetBreakpoints (js "a.gd") [5%Z])) in
  let w4 := receive (MsgResponse
              (verifiedResponse 11 2 [breakpointAt (Some 3%Z) true 5])) w3 in
  getBreakpoints (client w4)
  = [{| BreakpointView.script := js "res://a.gd";
        BreakpointView.line := 5%Z; BreakpointView.enabled := true |}]
  /\ map_get (js "b.gd")
       (breakpoints (client
          (runJob (KSetBreakpoints (js "a.gd") 0,
                   Resolved (verifiedResponse 11 2
                               [breakpointAt (Some 3%Z) true 5])) w3)))
     = map_get (js "b.gd") (breakpoints (client w3)).
Proof.
  intros parse w1 w2 w3 w4.
  destruct (reregistration_replaces parse 10 11 (Some 1%Z) (Some 2%Z)
              (Some 3%Z) true true true) as (_ & H4 & _ & Hgen & _).
  split; [exact H4|].
  destruct (Hgen w3 (js "a.gd") 0%nat 11%Z 2%Z
              [breakpointAt (Some 3%Z) true 5]) as [_ Hother].
  apply Hother. vm_compute. discriminate.
Defined.

(** C9. While a [setBreakpoints(sourcePath, lines)] call is in flight
    (request [k] pending, the method awaiting its promise, the call not
    settled), a response to [k] with success=false, or the timeout of
    [k], rejects the call and leaves the registry, and so the stored entry
    of [sourcePath], exactly as it was. *)
Theorem failed_setBreakpoints_keeps_registry :
  forall (w : World) (k : Z) (p : Pending.t) (sourcePath : jsstring)
         (call : nat),
    jobs w = [] ->
    pendingRequests (client w) !! k = Some p ->
    promises w !! Pending.resolver p
      = Some (awaiting (KSetBreakpoints sourcePath call)) ->
    calls w !! call = Some None ->
    (forall r : DAPResponse.t,
        DAPResponse.request_seq r = k ->
        DAPResponse.success r = false ->
        let w' := receive (MsgResponse r) w in
        breakpoints (client w') = breakpoints (client w)
        /\ calls w' !! call = Some (Some (Thrown (failureMessage r)))
        /\ pendingRequests (client w') !! k = None)
    /\ (forall parse t rest,
          takeTimer k (timers w) = Some (t, rest) ->
          Timer.reject t = Pending.resolver p ->
          let w' := step parse w (OnTimeout k) in
          breakpoints (client w') = breakpoints (client w)
          /\ calls w' !! call
             = Some (Some (Thrown
                       (js "DAP request timeout: " ++ Timer.command t)))
          /\ pendingRequests (client w') !! k = None).
Proof.
  intros w k p sourcePath call Hjobs Hpend Hinner Hcall.
  pose proof (lookup_lt_Some _ _ _ Hcall) as Hlt.
  split.
  - intros r Hk Hfail w'. subst w'.
    unfold receive, handleMessage. rewrite Hk, Hpend, Hfail.
    unfold settle. cbn [promises with_client]. rewrite Hinner.
    unfold awaiting. cbn [jobs with_promises with_client with_jobs].
    rewrite Hjobs. unfold runJobs.
    cbn [jobs with_jobs with_promises app length Nat.mul Nat.add drain runJob].
    unfold conclude. cbn [calls with_jobs with_promises with_client].
    rewrite Hcall.
    cbn [drain jobs with_jobs with_promises with_calls client with_client
         calls breakpoints set_pendingRequests pendingRequests].
    split; [reflexivity|]. split.
    + apply list_lookup_insert_eq. exact Hlt.
    + apply lookup_delete_eq.
  - intros parse t rest Htake Hrej w'. subst w'.
    assert (Hseq : Timer.seq t = k).
    { clear -Htake. revert t rest Htake.
      induction (timers w) as [|t0 ts IH]; simpl; intros t rest H;
        [discriminate|].
      destruct (bool_decide (Timer.seq t0 = k)) eqn:E.
      - inversion H; subst. apply bool_decide_eq_true_1 in E. exact E.
      - destruct (takeTimer k ts) as [[t' rest']|]; [|discriminate].
        inversion H; subst. eapply IH. reflexivity. }
    unfold step, handler. rewrite Htake. unfold onTimeout.
    cbn [client with_timers]. rewrite Hseq, Hpend.
    unfold settle. cbn [promises with_client with_timers].
    rewrite Hrej, Hinner.
    unfold awaiting. cbn [jobs with_promises with_client with_jobs with_timers].
    rewrite Hjobs. unfold runJobs.
    cbn [jobs with_jobs with_promises app length Nat.mul Nat.add drain runJob].
    unfold conclude.
    cbn [calls with_jobs with_promises with_client with_timers].
    rewrite Hcall.
    cbn [drain jobs with_jobs with_promises with_calls client with_client
         calls breakpoints set_pendingRequests pendingRequests with_timers].
    split; [reflexivity|]. split.
    + apply list_lookup_insert_eq. exact Hlt.
    + apply lookup_delete_eq.
Qed.

(** A call of [setBreakpoints("a.gd", [5])] in flight on a connected
    client, and a response that fails it. *)
Definition inFlight : World :=
  step (fun _ => None) connectedWorld
    (Invoke (SetBreakpoints (js "a.gd") [5%Z])).

Definition failure : DAPResponse.t :=
  {| DAPResponse.seq := 5; DAPResponse.request_seq := 1;
     DAPResponse.success := false;
     DAPResponse.command := js "setBreakpoints";
     DAPResponse.body := None;
     DAPResponse.message := Some (js "no such file") |}.

Lemma failed_setBreakpoints_keeps_registry_witness :
  (breakpoints (client (receive (MsgResponse failure) inFlight))
   = breakpoints (client inFlight)
   /\ calls (receive (MsgResponse failure) inFlight) !! 0%nat
      = Some (Some (Thrown (js "no such file"))))
  /\ calls (step (fun _ => None) inFlight (OnTimeout 1)) !! 0%nat
     = Some (Some (Thrown (js "DAP request timeout: setBreakpoints"))).
Proof.
  destruct (failed_setBreakpoints_keeps_registry inFlight 1
              {| Pending.resolver := 0; Pending.command := js "setBreakpoints" |}
              (js "a.gd") 0)
    as [Hresp Htime]; try (vm_compute; reflexivity).
  split.
  - destruct (Hresp failure eq_refl eq_refl) as (H1 & H2 & _).
    split; [exact H1 | exact H2].
  - destruct (Htime (fun _ => None)
                {| Timer.seq := 1; Timer.command := js "setBreakpoints";
                   Timer.reject := 0 |} []
                ltac:(vm_compute; reflexivity) eq_refl) as (_ & H2 & _).
    exact H2.
Defined.

End Breakpoints.

(* ===================================================================== *)
(** * Facts about the matcher                                              *)
(* ===================================================================== *)

Section Matcher.
Import JS Regex.
Local Open Scope nat_scope.

Definition units (l : jsstring) : regex :=
  fold_right (fun c r => Seq (Unit c) r) Eps l.

Lemma Lit_units str : Lit str = units (js str).
Proof. reflexivity. Qed.

Lemma startsWith_nil s : startsWith s [] = true.
Proof. destruct s; reflexivity. Qed.

Lemma startsWith_prefix p : forall s,
  startsWith s p = true -> s = p ++ drop (length p) s.
Proof.
  induction p as [|a p IH]; intros s H; [reflexivity|].
  destruct s as [|x s]; [discriminate|].
  cbn [startsWith] in H. apply andb_prop in H as [Hx Hs].
  apply N.eqb_eq in Hx. subst x. cbn [app length drop].
  f_equal. apply IH. exact Hs.
Qed.

(** A literal consumes itself or fails. *)
Lemma run_units l : forall pos s c k,
  run (units l) pos s c k
  = if startsWith s l then k (pos + length l) (drop (length l) s) c
    else None.
Proof.
  induction l as [|a l IH]; intros pos s c k.
  - simpl. rewrite startsWith_nil, Nat.add_0_r. destruct s; reflexivity.
  - destruct s as [|x s]; [reflexivity|].
    cbn [units fold_right run Unit startsWith length drop].
    fold (units l).
    destruct (unit_eqb a x); [|reflexivity].
    rewrite IH. cbn [andb].
    replace (S pos + length l) with (pos + S (length l)) by lia.
    reflexivity.
Qed.

(** An anchored pattern can only match from index 0. *)
Lemma search_Bol r : forall s pos,
  pos <> 0 -> search (Seq Bol r) pos s = None.
Proof.
  induction s as [|x s IH]; intros pos Hpos; cbn [search run].
  - destruct (Nat.eqb_spec pos 0); [contradiction|reflexivity].
  - destruct (Nat.eqb_spec pos 0); [contradiction|]. apply IH. lia.
Qed.

Lemma js_match_Bol r s :
  js_match s (Seq Bol r)
  = run r 0 s [] (fun pos' s' c' => Some ((0, take (pos' - 0) s) :: c')).
Proof.
  unfold js_match. destruct s as [|x s]; cbn [search run Nat.eqb accept].
  - destruct (run r 0 [] [] _); reflexivity.
  - rewrite search_Bol by lia. destruct (run r 0 (x :: s) [] _); reflexivity.
Qed.

Lemma run_Seq a b pos s c k :
  run (Seq a b) pos s c k
  = run a pos s c (fun pos' s' c' => run b pos' s' c' k).
Proof. reflexivity. Qed.

Lemma run_Grp i a pos s c k :
  run (Grp i a) pos s c k
  = run a pos s c
      (fun pos' s' c' => k pos' s' ((i, take (pos' - pos) s) :: c')).
Proof. reflexivity. Qed.

Lemma run_Chr p pos s c k :
  run (Chr p) pos s c k
  = match s with
    | x :: s' => if p x then k (S pos) s' c else None
    | [] => None
    end.
Proof. reflexivity. Qed.

Lemma run_Alt a b pos s c k :
  run (Alt a b) pos s c k
  = match run a pos s c k with
    | Some res => Some res
    | None => run b pos s c k
    end.
Proof. reflexivity. Qed.

Lemma run_Eps pos s c k : run Eps pos s c k = k pos s c.
Proof. reflexivity. Qed.

Lemma run_Eol pos s c k :
  run Eol pos s c k = match s with [] => k pos s c | _ :: _ => None end.
Proof. reflexivity. Qed.

Lemma take_while_drop_while p s : take_while p s ++ drop_while p s = s.
Proof.
  induction s as [|x s IH]; simpl; [reflexivity|].
  destruct (p x); simpl; [f_equal; exact IH | reflexivity].
Qed.

(** A starred class is greedy: when what follows accepts the input left
    after the longest run of the class, that is the match. *)
Lemma star_loop_class p k : forall s fuel pos c res,
  length (take_while p s) < fuel ->
  k (pos + length (take_while p s)) (drop_while p s) c = Some res ->
  star_loop (run (Chr p)) k fuel pos s c = Some res.
Proof.
  induction s as [|x s IH]; intros fuel pos c res Hfuel Hk.
  - destruct fuel; [simpl in Hfuel; lia|].
    simpl in *. rewrite Nat.add_0_r in Hk. exact Hk.
  - destruct fuel; [simpl in Hfuel; lia|].
    cbn [star_loop run take_while drop_while length] in *.
    destruct (p x).
    + destruct (Nat.eqb_spec (S pos) pos); [lia|].
      rewrite (IH fuel (S pos) c res); [reflexivity | simpl in Hfuel; lia |].
      simpl in Hk. rewrite <- Hk. f_equal. lia.
    + simpl in Hk. rewrite Nat.add_0_r in Hk. exact Hk.
Qed.

Lemma run_Star_class p k pos s c res :
  k (pos + length (take_while p s)) (drop_while p s) c = Some res ->
  run (Star (Chr p)) pos s c k = Some res.
Proof.
  intros Hk. change (run (Star (Chr p)) pos s c k)
    with (star_loop (run (Chr p)) k (S (length s)) pos s c).
  apply star_loop_class; [|exact Hk].
  assert (length (take_while p s) <= length s); [|lia].
  rewrite <- (take_while_drop_while p s) at 2. rewrite length_app. lia.
Qed.

(** ** The fuel of the star is enough *)

(** Two continuations that agree on the input left after any number of
    units. *)
Definition agree (pos : nat) (s : jsstring) (k k' : cont) : Prop :=
  forall i c, i <= length s -> k (pos + i) (drop i s) c = k' (pos + i) (drop i s) c.

Lemma agree_drop pos s k k' j :
  j <= length s -> agree pos s k k' -> agree (pos + j) (drop j s) k k'.
Proof.
  intros Hj H i c Hi. rewrite length_drop in Hi.
  rewrite drop_drop, <- Nat.add_assoc. apply H. lia.
Qed.

Lemma star_loop_agree ra k k' :
  (forall pos s c k1 k2, agree pos s k1 k2 -> ra pos s c k1 = ra pos s c k2) ->
  forall fuel pos s c,
    agree pos s k k' ->
    star_loop ra k fuel pos s c = star_loop ra k' fuel pos s c.
Proof.
  intros Hra. induction fuel as [|fuel IH]; intros pos s c Hk.
  - cbn. specialize (Hk 0 c). rewrite Nat.add_0_r, drop_0 in Hk.
    apply Hk. lia.
  - cbn [star_loop].
    rewrite (Hra pos s c _
               (fun pos' s' c' =>
                  if Nat.eqb pos' pos then None
                  else star_loop ra k' fuel pos' s' c')).
    + specialize (Hk 0 c). rewrite Nat.add_0_r, drop_0 in Hk.
      rewrite Hk by lia. reflexivity.
    + intros i c' Hi. destruct (Nat.eqb (pos + i) pos); [reflexivity|].
      apply IH. apply agree_drop; assumption.
Qed.

(** The matcher only calls its continuation on what is left of its
    input. *)
Lemma run_agree r : forall pos s c k k',
  agree pos s k k' -> run r pos s c k = run r pos s c k'.
Proof.
  induction r as [|p|a IHa b IHb|a IHa b IHb|a IHa|i a IHa| |];
    intros pos s c k k' Hk.
  - cbn. specialize (Hk 0 c). rewrite Nat.add_0_r, drop_0 in Hk.
    apply Hk. lia.
  - rewrite !run_Chr. destruct s as [|x s]; [reflexivity|].
    destruct (p x); [|reflexivity].
    specialize (Hk 1 c). cbn [drop length] in Hk. rewrite drop_0 in Hk.
    replace (pos + 1) with (S pos) in Hk by lia. apply Hk. lia.
  - rewrite !run_Seq. apply IHa. intros i c' Hi. apply IHb.
    apply agree_drop; assumption.
  - rewrite !run_Alt. rewrite (IHa pos s c k k' Hk), (IHb pos s c k k' Hk).
    reflexivity.
  - change (run (Star a) pos s c k)
      with (star_loop (run a) k (S (length s)) pos s c).
    change (run (Star a) pos s c k')
      with (star_loop (run a) k' (S (length s)) pos s c).
    apply star_loop_agree; [exact IHa | exact Hk].
  - rewrite !run_Grp. apply IHa. intros j c' Hj. apply Hk. exact Hj.
  - cbn. destruct (Nat.eqb pos 0); [|reflexivity].
    specialize (Hk 0 c). rewrite Nat.add_0_r, drop_0 in Hk. apply Hk. lia.
  - cbn. destruct s; [|reflexivity].
    specialize (Hk 0 c). rewrite Nat.add_0_r in Hk. apply Hk. cbn. lia.
Qed.

(** Every round of a star consumes a unit, so any number of rounds above
    the number of units left gives the same match. *)
Lemma star_loop_fuel a k : forall n fuel fuel' pos s c,
  length s <= n -> n < fuel -> n < fuel' ->
  star_loop (run a) k fuel pos s c = star_loop (run a) k fuel' pos s c.
Proof.
  induction n as [|n IH]; intros fuel fuel' pos s c Hs Hf Hf';
    (destruct fuel as [|fuel]; [lia|]);
    (destruct fuel' as [|fuel']; [lia|]); cbn [star_loop].
  - rewrite (run_agree a pos s c _
               (fun pos' s' c' =>
                  if Nat.eqb pos' pos then None
                  else star_loop (run a) k fuel' pos' s' c'));
      [reflexivity|].
    intros i c' Hi. assert (i = 0) as -> by lia.
    rewrite Nat.add_0_r, Nat.eqb_refl. reflexivity.
  - rewrite (run_agree a pos s c _
               (fun pos' s' c' =>
                  if Nat.eqb pos' pos then None
                  else star_loop (run a) k fuel' pos' s' c'));
      [reflexivity|].
    intros i c' Hi. destruct (Nat.eqb_spec (pos + i) pos); [reflexivity|].
    apply IH; [rewrite length_drop|..]; lia.
Qed.

End Matcher.

(* ===================================================================== *)
(** * Scope analyzer: where a function begins, and its parameters         *)
(* ===================================================================== *)

Section FunctionStart.
Import JS Regex GDScript.
Local Open Scope nat_scope.



Lemma take_while_length_le p s : length (take_while p s) <= length s.
Proof.
  rewrite <- (take_while_drop_while p s) at 2. rewrite length_app. lia.
Qed.





(** [funcPattern] only matches a line that begins with [func]. *)
Lemma funcPattern_start line m :
  js_match line funcPattern = Some m ->
  exists rest, line = js "func" ++ rest.
Proof.
  unfold funcPattern. cbn [Seqs]. rewrite js_match_Bol.
  rewrite run_Seq, Lit_units, run_units.
  destruct (startsWith line (js "func")) eqn:E; [|discriminate].
  intros _. exists (drop (length (js "func")) line).
  apply startsWith_prefix. exact E.
Qed.

Lemma trimStart_func rest : trimStart (js "func" ++ rest) = js "func" ++ rest.
Proof. reflexivity. Qed.

Lemma isComment_func rest : isComment (trimStart (js "func" ++ rest)) = false.
Proof. reflexivity. Qed.







(** The same method at zero indentation is found. *)
Example toplevel_func_found :
  map FunctionInfo.parameters
    (functions (parseGDScriptContent
       (js "func foo(a: int, b := 2, c = [1]):" ++ [10%N] ++
        [9%N] ++ js "var x = a")))
  = [[js "a"; js "b"; js "c"]].
Proof. vm_compute. reflexivity. Qed.



End FunctionStart.

(* ===================================================================== *)
(** * Scope analyzer: the variables in scope at a line                    *)
(* ===================================================================== *)

Section ScopeAt.
Import JS Regex GDScript.
Local Open Scope Z_scope.

(** The functions of a list lie one after the other, each on a non-empty
    range of lines above [lo]. *)
Fixpoint ordered (lo : Z) (fs : list FunctionInfo.t) : Prop :=
  match fs with
  | [] => True
  | f :: fs' =>
      lo < FunctionInfo.startLine f
      /\ FunctionInfo.startLine f <= FunctionInfo.endLine f
      /\ ordered (FunctionInfo.endLine f) fs'
  end.

Lemma ordered_snoc fs : forall lo hi g,
  ordered lo fs ->
  (forall f, f ∈ fs -> FunctionInfo.endLine f <= hi) ->
  lo <= hi ->
  hi < FunctionInfo.startLine g ->
  FunctionInfo.startLine g <= FunctionInfo.endLine g ->
  ordered lo (fs ++ [g]).
Proof.
  induction fs as [|f fs IH]; intros lo hi g Hord Hend Hlo Hg1 Hg2.
  - simpl. repeat split; lia.
  - destruct Hord as (H1 & H2 & H3). simpl. repeat split; try assumption.
    apply (IH _ hi); try assumption.
    + intros f' Hf'. apply Hend. right. exact Hf'.
    + apply Hend. left.
Qed.

Lemma ordered_above fs : forall lo g,
  ordered lo fs -> g ∈ fs -> lo < FunctionInfo.startLine g.
Proof.
  induction fs as [|f fs IH]; intros lo g Hord Hg.
  - inversion Hg.
  - destruct Hord as (H1 & H2 & H3).
    apply elem_of_cons in Hg as [->|Hg]; [exact H1|].
    specialize (IH _ _ H3 Hg). lia.
Qed.

Lemma contains_spec line f :
  contains line f = true
  <-> FunctionInfo.startLine f <= line <= FunctionInfo.endLine f.
Proof. unfold contains. rewrite andb_true_iff, !Z.leb_le. tauto. Qed.

Definition scoped (line : Z) (f : FunctionInfo.t) : list VariableInfo.t :=
  if contains line f then declaredBy line f else [].

Lemma scoped_beyond fs : forall line lo,
  ordered lo fs -> line <= lo -> flat_map (scoped line) fs = [].
Proof.
  induction fs as [|f fs IH]; intros line lo Hord Hline; [reflexivity|].
  destruct Hord as (H1 & H2 & H3). cbn [flat_map].
  rewrite (IH line (FunctionInfo.endLine f)) by (assumption || lia).
  unfold scoped. destruct (contains line f) eqn:E; [|reflexivity].
  apply contains_spec in E. lia.
Qed.

(** On ordered functions the loop with [break] collects what a loop over
    all the functions would. *)
Lemma localsAtLine_all fs : forall lo line,
  ordered lo fs -> localsAtLine fs line = flat_map (scoped line) fs.
Proof.
  induction fs as [|f fs IH]; intros lo line Hord; [reflexivity|].
  destruct Hord as (H1 & H2 & H3). cbn [localsAtLine flat_map].
  unfold scoped at 1. destruct (contains line f) eqn:E.
  - apply contains_spec in E.
    rewrite (scoped_beyond fs line (FunctionInfo.endLine f))
      by (assumption || lia).
    symmetry. apply app_nil_r.
  - apply (IH _ _ H3).
Qed.

Lemma ordered_unique fs : forall lo line i j f g,
  ordered lo fs ->
  fs !! i = Some f -> fs !! j = Some g ->
  contains line f = true -> contains line g = true -> i = j.
Proof.
  induction fs as [|h fs IH]; intros lo line i j f g Hord Hi Hj Hf Hg.
  - discriminate.
  - destruct Hord as (H1 & H2 & H3).
    apply contains_spec in Hf. apply contains_spec in Hg.
    destruct i as [|i], j as [|j]; simpl in Hi, Hj.
    + reflexivity.
    + injection Hi as ->.
      apply list_elem_of_lookup_2 in Hj.
      pose proof (ordered_above _ _ _ H3 Hj). lia.
    + injection Hj as ->.
      apply list_elem_of_lookup_2 in Hi.
      pose proof (ordered_above _ _ _ H3 Hi). lia.
    + f_equal. apply (IH (FunctionInfo.endLine h) line i j f g);
        try assumption; apply contains_spec; assumption.
Qed.

Lemma localsAtLine_of fs : forall lo line f,
  ordered lo fs -> f ∈ fs -> contains line f = true ->
  localsAtLine fs line = declaredBy line f.
Proof.
  induction fs as [|h fs IH]; intros lo line f Hord Hf Hc.
  - inversion Hf.
  - destruct Hord as (H1 & H2 & H3). cbn [localsAtLine].
    apply elem_of_cons in Hf as [->|Hf].
    + rewrite Hc. reflexivity.
    + destruct (contains line h) eqn:E.
      * apply contains_spec in E. apply contains_spec in Hc.
        pose proof (ordered_above _ _ _ H3 Hf). lia.
      * apply (IH _ _ _ H3 Hf Hc).
Qed.

Lemma localsAtLine_none fs : forall line,
  (forall f, f ∈ fs -> contains line f = false) -> localsAtLine fs line = [].
Proof.
  induction fs as [|h fs IH]; intros line Hnone; [reflexivity|].
  cbn [localsAtLine]. rewrite (Hnone h) by left.
  apply IH. intros f Hf. apply Hnone. right. exact Hf.
Qed.

(** The record [parseGDScriptContent] pushes for a parameter. *)
Definition parameterVariable (lineNum : Z) (param : jsstring)
  : VariableInfo.t :=
  {| VariableInfo.name := param; VariableInfo.type := None;
     VariableInfo.line := lineNum; VariableInfo.scope := parameter |}.

(** The parameters of a function are among its variables, declared on its
    first line. *)
Definition parametersDeclared (f : FunctionInfo.t) : Prop :=
  forall p, p ∈ FunctionInfo.parameters f ->
    parameterVariable (FunctionInfo.startLine f) p
    ∈ FunctionInfo.localVariables f.

Lemma openFunction_declared lineNum m :
  parametersDeclared (openFunction lineNum m).
Proof.
  intros p Hp. unfold openFunction in *.
  cbn [FunctionInfo.parameters FunctionInfo.localVariables
       FunctionInfo.startLine] in *.
  apply (list_elem_of_fmap_2 (parameterVariable lineNum)). exact Hp.
Qed.

Lemma pushLocal_declared v f :
  parametersDeclared f -> parametersDeclared (pushLocal v f).
Proof.
  intros H p Hp. cbn. apply elem_of_app. left. apply H. exact Hp.
Qed.

Lemma setEndLine_declared e f :
  parametersDeclared f -> parametersDeclared (setEndLine e f).
Proof. intros H p Hp. apply H. exact Hp. Qed.

Lemma scanLocal_declared lineNum line cvs f :
  parametersDeclared f -> parametersDeclared (scanLocal lineNum line cvs f).
Proof.
  intros H. unfold scanLocal.
  repeat match goal with
         | |- context [match ?x with _ => _ end] => destruct x
         end; auto using pushLocal_declared.
Qed.

Lemma scanLocal_startLine lineNum line cvs f :
  FunctionInfo.startLine (scanLocal lineNum line cvs f)
  = FunctionInfo.startLine f.
Proof.
  unfold scanLocal.
  repeat match goal with
         | |- context [match ?x with _ => _ end] => destruct x
         end; reflexivity.
Qed.

(** The invariant of the scan before the line of index [i]. *)
Record scanInv (i : Z) (st : Scan) : Prop := {
  inv_ordered : ordered 0 (funcs st);
  inv_ended : forall f, f ∈ funcs st -> FunctionInfo.endLine f <= i;
  inv_declared : forall f, f ∈ funcs st -> parametersDeclared f;
  inv_current : forall f, currentFunction st = Some f ->
      0 < FunctionInfo.startLine f <= i
      /\ parametersDeclared f
      /\ forall g, g ∈ funcs st ->
           FunctionInfo.endLine g < FunctionInfo.startLine f;
}.

Lemma scanInv_mono i j st : i <= j -> scanInv i st -> scanInv j st.
Proof.
  intros Hij [H1 H2 H3 H4]. split; try assumption.
  - intros f Hf. specialize (H2 f Hf). lia.
  - intros f Hf. destruct (H4 f Hf) as (? & ? & ?). repeat split; auto; lia.
Qed.

(** Closing the current function at line [i]. *)
Lemma close_inv i st f :
  scanInv i st -> currentFunction st = Some f ->
  ordered 0 (funcs st ++ [setEndLine i f])
  /\ (forall g, g ∈ funcs st ++ [setEndLine i f] ->
        FunctionInfo.endLine g <= i)
  /\ (forall g, g ∈ funcs st ++ [setEndLine i f] -> parametersDeclared g).
Proof.
  intros [H1 H2 H3 H4] Hf. destruct (H4 f Hf) as (Hs & Hd & Hg).
  split; [|split].
  - apply (ordered_snoc _ 0 (FunctionInfo.startLine f - 1)); cbn; try lia.
    + exact H1.
    + intros g Hgin. specialize (Hg g Hgin). lia.
  - intros g Hgin. apply elem_of_app in Hgin as [Hgin|Hgin]; [auto|].
    apply list_elem_of_singleton in Hgin. subst g. cbn. lia.
  - intros g Hgin. apply elem_of_app in Hgin as [Hgin|Hgin]; [auto|].
    apply list_elem_of_singleton in Hgin. subst g.
    apply setEndLine_declared. exact Hd.
Qed.

Lemma exitFunction_inv (i : nat) line st :
  scanInv (Z.of_nat i) st -> scanInv (Z.of_nat i) (exitFunction i line st).
Proof.
  intros Hinv. unfold exitFunction.
  destruct (currentFunction st) as [f|] eqn:Hf; [|exact Hinv].
  match goal with |- context [if ?b then _ else _] => destruct b end;
    [|exact Hinv].
  destruct (close_inv _ _ _ Hinv Hf) as (Ho & He & Hd).
  split; cbn [funcs currentFunction]; try assumption. discriminate.
Qed.

Lemma scanBody_inv (i : nat) line st :
  scanInv (Z.of_nat i) st ->
  scanInv (Z.of_nat (S i)) (scanBody i line st).
Proof.
  intros Hinv.
  assert (Hstep : Z.of_nat i <= Z.of_nat (S i)) by lia.
  unfold scanBody. destruct (_ || _); [eapply scanInv_mono; eassumption|].
  destruct (js_match line funcPattern) as [m|].
  - assert (Hsaved :
      ordered 0 (match currentFunction st with
                 | Some f => funcs st ++ [setEndLine (Z.of_nat i) f]
                 | None => funcs st end)
      /\ (forall g, g ∈ match currentFunction st with
                        | Some f => funcs st ++ [setEndLine (Z.of_nat i) f]
                        | None => funcs st end ->
                    FunctionInfo.endLine g <= Z.of_nat i)
      /\ (forall g, g ∈ match currentFunction st with
                        | Some f => funcs st ++ [setEndLine (Z.of_nat i) f]
                        | None => funcs st end -> parametersDeclared g)).
    { destruct (currentFunction st) as [f|] eqn:Hf.
      - apply close_inv; assumption.
      - destruct Hinv; auto. }
    destruct Hsaved as (Ho & He & Hd).
    split; cbn [funcs currentFunction]; try assumption.
    + intros g Hg. specialize (He g Hg). lia.
    + intros f [= <-]. cbn [openFunction FunctionInfo.startLine].
      split; [lia|]. split; [apply openFunction_declared|].
      intros g Hg. specialize (He g Hg). lia.
  - destruct (if length line - length (trimStart line) =? 0
              then js_match line classVarPattern else None)%nat.
    + apply (scanInv_mono (Z.of_nat i)); [lia|].
      destruct Hinv; split; assumption.
    + destruct (currentFunction st) as [f|] eqn:Hf;
        [|eapply scanInv_mono; eassumption].
      destruct Hinv as [H1 H2 H3 H4]. destruct (H4 f Hf) as (Hs & Hd & Hg).
      split; cbn [funcs currentFunction]; try assumption.
      * intros g Hgin. specialize (H2 g Hgin). lia.
      * intros f' [= <-]. rewrite scanLocal_startLine.
        split; [lia|]. split; [apply scanLocal_declared; exact Hd|exact Hg].
Qed.

Lemma scanLines_inv lines : forall (i : nat) st,
  scanInv (Z.of_nat i) st ->
  scanInv (Z.of_nat (i + length lines)) (scanLines i lines st).
Proof.
  induction lines as [|line lines IH]; intros i st Hinv.
  - simpl. rewrite Nat.add_0_r. exact Hinv.
  - cbn [scanLines length].
    replace (i + S (length lines))%nat with (S i + length lines)%nat by lia.
    apply IH. unfold scanLine. apply scanBody_inv, exitFunction_inv, Hinv.
Qed.

Lemma scanStart_inv : scanInv 0 scanStart.
Proof.
  split; cbn; try (intros f Hf; inversion Hf); exact I.
Qed.

(** The functions of a parsed script are ordered. *)
Lemma parsed_ordered content :
  ordered 0 (functions (parseGDScriptContent content))
  /\ forall f, f ∈ functions (parseGDScriptContent content) ->
       parametersDeclared f.
Proof.
  unfold parseGDScriptContent.
  pose proof (scanLines_inv (split_on 10 content) 0 scanStart scanStart_inv)
    as Hinv.
  cbn [Nat.add] in Hinv.
  set (st := scanLines 0 (split_on 10 content) scanStart) in *.
  unfold finish. cbn [functions].
  destruct (currentFunction st) as [f|] eqn:Hf.
  - destruct (close_inv _ _ _ Hinv Hf) as (Ho & _ & Hd). split; assumption.
  - destruct Hinv; split; assumption.
Qed.

Lemma parameter_in_scope line f p :
  parametersDeclared f -> contains line f = true ->
  p ∈ FunctionInfo.parameters f ->
  parameterVariable (FunctionInfo.startLine f) p ∈ declaredBy line f.
Proof.
  intros Hd Hc Hp. unfold declaredBy.
  apply list_elem_of_In, filter_In. split.
  - apply list_elem_of_In, Hd, Hp.
  - cbn. apply Z.leb_le. apply contains_spec in Hc. lia.
Qed.

(** C5. For every parsed script and every line, at most one function has
    the line in its range (startLine <= line <= endLine), and
    [getVariablesAtLine] returns exactly the class variables followed by
    the variables recorded for that function (parameters and locals) whose
    declaration line is at or before the line (declaration line <= line),
    in the order recorded; all its parameters are among them, declared on
    its first line; the variables of every other function are left out,
    and when no function has the line in its range only the class
    variables are returned. *)
Theorem variables_in_scope : forall (content : jsstring) (line : Z),
  let info := parseGDScriptContent content in
  (forall i j f g,
      functions info !! i = Some f -> functions info !! j = Some g ->
      FunctionInfo.startLine f <= line <= FunctionInfo.endLine f ->
      FunctionInfo.startLine g <= line <= FunctionInfo.endLine g ->
      i = j)
  /\ (forall f, f ∈ functions info ->
        FunctionInfo.startLine f <= line <= FunctionInfo.endLine f ->
        getVariablesAtLine info line
        = classVariables info
          ++ List.filter (fun v => VariableInfo.line v <=? line)
               (FunctionInfo.localVariables f)
        /\ (forall v, v ∈ getVariablesAtLine info line <->
              v ∈ classVariables info
              \/ (v ∈ FunctionInfo.localVariables f
                  /\ VariableInfo.line v <= line))
        /\ forall p, p ∈ FunctionInfo.parameters f ->
             {| VariableInfo.name := p; VariableInfo.type := None;
                VariableInfo.line := FunctionInfo.startLine f;
                VariableInfo.scope := parameter |}
             ∈ getVariablesAtLine info line)
  /\ ((forall f, f ∈ functions info ->
         ~ (FunctionInfo.startLine f <= line <= FunctionInfo.endLine f)) ->
        getVariablesAtLine info line = classVariables info)
  /\ (forall v, v ∈ getVariablesAtLine info line <->
        v ∈ classVariables info
        \/ exists f, f ∈ functions info
             /\ FunctionInfo.startLine f <= line <= FunctionInfo.endLine f
             /\ v ∈ FunctionInfo.localVariables f
             /\ VariableInfo.line v <= line).
Proof.
  intros content line info.
  destruct (parsed_ordered content) as [Hord Hdecl]. fold info in Hord, Hdecl.
  assert (Hfilter : forall f v,
            v ∈ List.filter (fun v => VariableInfo.line v <=? line)
                  (FunctionInfo.localVariables f)
            <-> v ∈ FunctionInfo.localVariables f
                /\ VariableInfo.line v <= line).
  { intros f v. rewrite list_elem_of_In, filter_In, Z.leb_le.
    rewrite <- list_elem_of_In. tauto. }
  unfold getVariablesAtLine. split; [|split; [|split]].
  - intros i j f g Hf Hg Hcf Hcg.
    apply (ordered_unique _ 0 line i j f g Hord Hf Hg);
      apply contains_spec; assumption.
  - intros f Hf Hc.
    assert (Hcontains : contains line f = true)
      by (apply contains_spec; exact Hc).
    rewrite (localsAtLine_of _ 0 line f Hord Hf Hcontains).
    unfold declaredBy. split; [reflexivity|]. split.
    + intros v. rewrite elem_of_app, Hfilter. tauto.
    + intros p Hp. apply elem_of_app. right. apply Hfilter. split.
      * apply (Hdecl f Hf p Hp).
      * cbn. lia.
  - intros Hnone. rewrite localsAtLine_none; [apply app_nil_r|].
    intros f Hf. destruct (contains line f) eqn:Hc; [|reflexivity].
    apply contains_spec in Hc. destruct (Hnone f Hf Hc).
  - intros v. rewrite (localsAtLine_all _ 0 line Hord), elem_of_app.
    assert (Hflat : v ∈ flat_map (scoped line) (functions info)
                    <-> exists f, f ∈ functions info
                          /\ FunctionInfo.startLine f <= line
                             <= FunctionInfo.endLine f
                          /\ v ∈ FunctionInfo.localVariables f
                          /\ VariableInfo.line v <= line).
    { rewrite list_elem_of_In, in_flat_map. split.
      - intros (f & Hf & Hv). exists f. unfold scoped in Hv.
        destruct (contains line f) eqn:Hc; [|destruct Hv].
        apply contains_spec in Hc. apply list_elem_of_In in Hf.
        unfold declaredBy in Hv. apply list_elem_of_In, Hfilter in Hv.
        tauto.
      - intros (f & Hf & Hc & Hv & Hle). exists f.
        split; [apply list_elem_of_In, Hf|].
        unfold scoped. apply contains_spec in Hc. rewrite Hc.
        unfold declaredBy. apply list_elem_of_In, Hfilter. tauto. }
    rewrite Hflat. tauto.
Qed.

(** The script of the example: a class variable on line 1, [f1] on lines
    3 to 10, [f2] on lines 12 to 20. *)
Definition twoFunctions : jsstring :=
  let nl := [10%N] in
  let tab := [9%N] in
  js "var hp = 3" ++ nl ++
  nl ++
  js "func f1(a):" ++ nl ++
  tab ++ js "var x = 1" ++ nl ++
  tab ++ js "x += a" ++ nl ++
  tab ++ js "var y = 2" ++ nl ++
  tab ++ js "print(y)" ++ nl ++
  tab ++ js "var late = 4" ++ nl ++
  tab ++ js "for i in range(3):" ++ nl ++
  tab ++ tab ++ js "print(i)" ++ nl ++
  js "signal done" ++ nl ++
  js "func f2(b):" ++ nl ++
  tab ++ js "var z = 0" ++ nl ++
  tab ++ js "pass" ++ nl ++
  tab ++ js "pass" ++ nl ++
  tab ++ js "pass" ++ nl ++
  tab ++ js "pass" ++ nl ++
  tab ++ js "pass" ++ nl ++
  tab ++ js "pass" ++ nl ++
  tab ++ js "pass".

Example twoFunctions_ranges :
  map (fun f => (FunctionInfo.name f, FunctionInfo.startLine f,
                 FunctionInfo.endLine f))
    (functions (parseGDScriptContent twoFunctions))
  = [(js "f1", 3, 10); (js "f2", 12, 20)].
Proof. vm_compute. reflexivity. Qed.

(** At line 7: the class variable, the parameter of [f1] and its locals
    of lines 4 and 6; not [late] (line 8) nor [i] (line 9), and nothing
    of [f2]. *)
Example twoFunctions_line7 :
  map (fun v => (VariableInfo.name v, VariableInfo.line v,
                 VariableInfo.scope v))
    (getVariablesAtLine (parseGDScriptContent twoFunctions) 7)
  = [(js "hp", 1, class); (js "a", 3, parameter);
     (js "x", 4, local); (js "y", 6, local)].
Proof. vm_compute. reflexivity. Qed.

Lemma variables_in_scope_witness :
  getVariablesAtLine (parseGDScriptContent twoFunctions) 11
  = classVariables (parseGDScriptContent twoFunctions)
  /\ {| VariableInfo.name := js "a"; VariableInfo.type := None;
        VariableInfo.line := 3; VariableInfo.scope := parameter |}
     ∈ getVariablesAtLine (parseGDScriptContent twoFunctions) 3.
Proof.
  split.
  - destruct (variables_in_scope twoFunctions 11) as (_ & _ & Hnone & _).
    apply Hnone. intros f Hf.
    remember (functions (parseGDScriptContent twoFunctions)) as fs eqn:E.
    vm_compute in E. subst fs.
    apply list_elem_of_In in Hf. cbn [In] in Hf.
    destruct Hf as [<-|[<-|[]]]; cbn; lia.
  - destruct (variables_in_scope twoFunctions 3) as (_ & Hin & _).
    assert (Hf : exists f,
               functions (parseGDScriptContent twoFunctions) !! 0%nat = Some f
               /\ FunctionInfo.endLine f = 10
               /\ FunctionInfo.parameters f = [js "a"]
               /\ FunctionInfo.startLine f = 3)
      by (vm_compute; eexists; repeat split).
    destruct Hf as (f & Hf & He & Hp & Hs).
    destruct (Hin f (list_elem_of_lookup_2 _ _ _ Hf)) as (_ & _ & Hparam);
      [lia|].
    specialize (Hparam (js "a")). rewrite Hs in Hparam.
    apply Hparam. rewrite Hp. left.
Defined.

End ScopeAt.

(* ===================================================================== *)
(** * DAP client: the request correlator                                   *)
(* ===================================================================== *)

Section Correlator.
Import JS Regex Runtime DAP.
Local Open Scope Z_scope.

Ltac wsimpl :=
  cbn [client promises calls timers jobs
       with_client with_promises with_calls with_timers with_jobs
       socket connected paused currentThreadId sequenceNumber
       pendingRequests buffer capabilities breakpoints
       set_socket set_connected set_paused set_currentThreadId
       set_sequenceNumber set_pendingRequests set_buffer set_capabilities
       set_breakpoints
       Pending.resolver Pending.command Timer.seq Timer.command Timer.reject
       Promise.outcome Promise.awaiter fst snd] in *.

Definition awaited (k : Cont) : Promise.t :=
  {| Promise.outcome := None; Promise.awaiter := k |}.

(** ** How entry [k] of [pendingRequests] can change *)

(** From [w] to [w']: the sequence counter does not go back, and once [k]
    is below it the entry of [k] can only go away. *)
Definition evolves (k : Z) (w w' : World) : Prop :=
  sequenceNumber (client w) <= sequenceNumber (client w')
  /\ (k < sequenceNumber (client w) ->
      forall p, pendingRequests (client w') !! k = Some p ->
                pendingRequests (client w) !! k = Some p).

Lemma evolves_refl k w : evolves k w w.
Proof. split; [lia | auto]. Qed.

Lemma evolves_trans k w1 w2 w3 :
  evolves k w1 w2 -> evolves k w2 w3 -> evolves k w1 w3.
Proof.
  intros [H1 H2] [H3 H4]. split; [lia|].
  intros Hk p Hp. apply H2; [exact Hk|]. apply H4; [lia | exact Hp].
Qed.

Lemma evolves_same_client k w w' :
  client w' = client w -> evolves k w w'.
Proof. intros E. unfold evolves. rewrite E. split; [lia | auto]. Qed.

Lemma evolves_frame k f w :
  pendingRequests (f (client w)) = pendingRequests (client w) ->
  sequenceNumber (f (client w)) = sequenceNumber (client w) ->
  evolves k w (with_client f w).
Proof.
  intros Hp Hs. unfold evolves. wsimpl. rewrite Hp, Hs. split; [lia | auto].
Qed.

Lemma settle_client p o w : client (settle p o w) = client w.
Proof.
  unfold settle. destruct (promises w !! p) as [[[?|] ?]|]; reflexivity.
Qed.

Lemma conclude_client c r w : client (conclude c r w) = client w.
Proof.
  unfold conclude. destruct (calls w !! c) as [[?|]|]; reflexivity.
Qed.

Lemma evolves_sendRequest k command args kont w :
  evolves k w (sendRequest command args kont w).
Proof.
  unfold sendRequest, newPromise. wsimpl.
  destruct (socket (client w)) as [sock|];
    [destruct (connected (client w))|].
  - unfold evolves. wsimpl. split; [lia|]. intros Hk p.
    rewrite lookup_insert_ne by lia. auto.
  - apply evolves_same_client. rewrite settle_client. reflexivity.
  - apply evolves_same_client. rewrite settle_client. reflexivity.
Qed.

Lemma evolves_delete k k' w :
  evolves k w
    (with_client
       (set_pendingRequests (delete k' (pendingRequests (client w)))) w).
Proof.
  unfold evolves. wsimpl. split; [lia|]. intros _ p Hp.
  apply lookup_delete_Some in Hp. tauto.
Qed.

Lemma evolves_handleEvent_fields e c :
  pendingRequests (handleEvent e c) = pendingRequests c
  /\ sequenceNumber (handleEvent e c) = sequenceNumber c.
Proof.
  unfold handleEvent.
  repeat match goal with
         | |- context [if ?b then _ else _] => destruct b
         | |- context [match ?x with _ => _ end] => destruct x
         end; split; reflexivity.
Qed.

Lemma evolves_handleMessage k m w : evolves k w (handleMessage m w).
Proof.
  destruct m as [r|r|e|]; try apply evolves_refl.
  - unfold handleMessage.
    destruct (pendingRequests (client w) !! DAPResponse.request_seq r)
      as [pending|]; [|apply evolves_refl].
    eapply evolves_trans; [apply (evolves_delete k (DAPResponse.request_seq r))|].
    apply evolves_same_client.
    destruct (DAPResponse.success r); apply settle_client.
  - unfold handleMessage.
    apply evolves_frame; apply evolves_handleEvent_fields.
Qed.

Lemma evolves_onTimeout k t w : evolves k w (onTimeout t w).
Proof.
  unfold onTimeout.
  destruct (pendingRequests (client w) !! Timer.seq t); [|apply evolves_refl].
  eapply evolves_trans; [apply (evolves_delete k (Timer.seq t))|].
  apply evolves_same_client, settle_client.
Qed.

Lemma evolves_runJob k j w : evolves k w (runJob j w).
Proof.
  destruct j as [[call|call|sourcePath call|call|call] [response|e]];
    unfold runJob;
    try (apply evolves_same_client, conclude_client).
  - eapply evolves_trans; [|apply evolves_sendRequest].
    destruct (DAPResponse.success response), (DAPResponse.body response);
      try apply evolves_refl.
    apply evolves_frame; reflexivity.
  - destruct (DAPResponse.success response), (DAPResponse.body response);
      try (apply evolves_same_client, conclude_client).
    eapply evolves_trans;
      [|apply evolves_same_client, conclude_client].
    apply evolves_frame; reflexivity.
Qed.

Lemma evolves_drain k fuel : forall w, evolves k w (drain fuel w).
Proof.
  induction fuel as [|fuel IH]; intros w; [apply evolves_refl|].
  cbn [drain]. destruct (jobs w) as [|j rest]; [apply evolves_refl|].
  eapply evolves_trans; [|apply IH].
  eapply evolves_trans; [|apply evolves_runJob].
  apply evolves_same_client. reflexivity.
Qed.

(** The decoder loop keeps whatever every handled message keeps. *)
Lemma decodeLoop_keeps {W} parse (handle : Message -> W -> W)
    (P : W -> Prop) :
  (forall m w, P w -> P (handle m w)) ->
  forall fuel buf w, P w -> P (snd (decodeLoop parse handle fuel buf w)).
Proof.
  intros Hh. induction fuel as [|fuel IH]; intros buf w Hw; [exact Hw|].
  cbn [decodeLoop].
  destruct (indexOf buf CRLFCRLF) as [headerEnd|]; [|exact Hw].
  destruct (js_match _ contentLengthPattern) as [m|]; [|apply IH, Hw].
  destruct (Nat.ltb _ _); [exact Hw|].
  apply IH. destruct (parse _); [apply Hh|]; exact Hw.
Qed.

Lemma evolves_handleData parse k data w :
  evolves k w (handleData parse data w).
Proof.
  unfold handleData, decode.
  pose proof (decodeLoop_keeps parse handleMessage (evolves k w)
                (fun m w' H => evolves_trans _ _ _ _ H
                                 (evolves_handleMessage k m w'))
                (S (length (buffer (client w) ++ utf8Decode data)))
                (buffer (client w) ++ utf8Decode data) w
                (evolves_refl k w)) as H.
  destruct (decodeLoop _ _ _ _ _) as [buf w']. cbn [snd] in H.
  eapply evolves_trans; [exact H|]. apply evolves_frame; reflexivity.
Qed.

Lemma evolves_invoke k method w : evolves k w (invoke method w).
Proof.
  unfold invoke, newCall.
  destruct method;
    (eapply evolves_trans; [|apply evolves_sendRequest]);
    apply evolves_same_client; reflexivity.
Qed.

Lemma evolves_handler parse k e w : evolves k w (handler parse e w).
Proof.
  destruct e as [method| | |data| | | |seq]; cbn [handler].
  - apply evolves_invoke.
  - apply evolves_frame; reflexivity.
  - apply evolves_frame; reflexivity.
  - apply evolves_handleData.
  - apply evolves_frame; reflexivity.
  - apply evolves_frame; reflexivity.
  - apply evolves_frame; unfold disconnect;
      destruct (socket (client w)); reflexivity.
  - destruct (takeTimer seq (timers w)) as [[t rest]|]; [|apply evolves_refl].
    eapply evolves_trans; [|apply evolves_onTimeout].
    apply evolves_same_client. reflexivity.
Qed.

Lemma evolves_step parse k e w : evolves k w (step parse w e).
Proof.
  unfold step, runJobs.
  eapply evolves_trans; [apply evolves_handler | apply evolves_drain].
Qed.

Lemma evolves_run parse k es : forall w, evolves k w (runEvents parse w es).
Proof.
  induction es as [|e es IH]; intros w; [apply evolves_refl|].
  cbn [runEvents fold_left]. eapply evolves_trans; [apply evolves_step|].
  apply IH.
Qed.

(** ** The invariant of the correlator *)

Record Inv (w : World) : Prop := {
  inv_timer_seq : forall t, t ∈ timers w ->
      Timer.seq t < sequenceNumber (client w);
  inv_pending : forall k p, pendingRequests (client w) !! k = Some p ->
      exists kont, promises w !! Pending.resolver p = Some (awaited kont);
  inv_inj : forall k1 k2 p1 p2,
      pendingRequests (client w) !! k1 = Some p1 ->
      pendingRequests (client w) !! k2 = Some p2 ->
      Pending.resolver p1 = Pending.resolver p2 -> k1 = k2;
  inv_timer : forall t p, t ∈ timers w ->
      pendingRequests (client w) !! Timer.seq t = Some p ->
      Pending.resolver p = Timer.reject t
      /\ Pending.command p = Timer.command t;
  inv_armed : forall k p, pendingRequests (client w) !! k = Some p ->
      exists t, t ∈ timers w /\ Timer.seq t = k;
}.

Lemma Inv_new : Inv newWorld.
Proof.
  split; cbn; intros; try discriminate;
    match goal with H : _ ∈ [] |- _ => inversion H end.
Qed.

Lemma Inv_frame f w :
  pendingRequests (f (client w)) = pendingRequests (client w) ->
  sequenceNumber (f (client w)) = sequenceNumber (client w) ->
  Inv w -> Inv (with_client f w).
Proof.
  intros Hp Hs [H1 H2 H3 H4 H5]. split; wsimpl; rewrite ?Hp, ?Hs; assumption.
Qed.

Lemma Inv_with_jobs js w : Inv w -> Inv (with_jobs js w).
Proof. intros [H1 H2 H3 H4 H5]. split; wsimpl; assumption. Qed.

Lemma Inv_with_calls cs w : Inv w -> Inv (with_calls cs w).
Proof. intros [H1 H2 H3 H4 H5]. split; wsimpl; assumption. Qed.

Lemma Inv_conclude c r w : Inv w -> Inv (conclude c r w).
Proof.
  intros H. unfold conclude. destruct (calls w !! c) as [[?|]|]; try exact H.
  apply Inv_with_calls, H.
Qed.

(** Settling a promise that no pending request holds. *)
Lemma Inv_settle q o w :
  (forall k p, pendingRequests (client w) !! k = Some p ->
               Pending.resolver p <> q) ->
  Inv w -> Inv (settle q o w).
Proof.
  intros Hq Hinv. unfold settle.
  destruct (promises w !! q) as [[[?|] kont]|]; try exact Hinv.
  apply Inv_with_jobs. destruct Hinv as [H1 H2 H3 H4 H5].
  split; wsimpl; try assumption.
  intros k p Hp. destruct (H2 k p Hp) as [kont' Hk]. exists kont'.
  rewrite list_lookup_insert_ne; [exact Hk|].
  intros E. apply (Hq k p Hp). symmetry. exact E.
Qed.

(** A new promise leaves the old ones where they are. *)
Lemma Inv_newPromise kont w : Inv w -> Inv (snd (newPromise kont w)).
Proof.
  intros [H1 H2 H3 H4 H5]. unfold newPromise. split; wsimpl; try assumption.
  intros k p Hp. destruct (H2 k p Hp) as [kont' Hk]. exists kont'.
  rewrite lookup_app_l; [exact Hk|]. eapply lookup_lt_Some, Hk.
Qed.

Lemma Inv_sendRequest command args kont w :
  Inv w -> Inv (sendRequest command args kont w).
Proof.
  intros Hinv. unfold sendRequest.
  pose proof (Inv_newPromise kont w Hinv) as Hnew.
  unfold newPromise in *. wsimpl.
  assert (Hfresh : forall k p,
             pendingRequests (client w) !! k = Some p ->
             Pending.resolver p <> length (promises w)).
  { intros k p Hp E. destruct Hinv as [_ H2 _ _ _].
    destruct (H2 k p Hp) as [kont' Hk].
    apply lookup_lt_Some in Hk. lia. }
  destruct (socket (client w)) as [sock|];
    [destruct (connected (client w))|];
    try (apply Inv_settle; [exact Hfresh | exact Hnew]).
  destruct Hinv as [H1 H2 H3 H4 H5]. split; wsimpl.
  - intros t Ht. apply elem_of_app in Ht as [Ht|Ht].
    + specialize (H1 t Ht). lia.
    + apply list_elem_of_singleton in Ht. subst t. wsimpl. lia.
  - intros k p Hp.
    destruct (decide (k = sequenceNumber (client w))) as [->|Hne].
    + rewrite lookup_insert_eq in Hp. injection Hp as <-. wsimpl.
      exists kont. apply list_lookup_middle. reflexivity.
    + rewrite lookup_insert_ne in Hp by congruence.
      destruct (H2 k p Hp) as [kont' Hk]. exists kont'.
      rewrite lookup_app_l; [exact Hk|]. eapply lookup_lt_Some, Hk.
  - intros k1 k2 p1 p2 Hp1 Hp2 E.
    destruct (decide (k1 = sequenceNumber (client w))) as [->|Hne1];
      destruct (decide (k2 = sequenceNumber (client w))) as [->|Hne2];
      try reflexivity.
    + rewrite lookup_insert_eq in Hp1. injection Hp1 as <-.
      rewrite lookup_insert_ne in Hp2 by congruence. wsimpl.
      exfalso. apply (Hfresh k2 p2 Hp2). symmetry. exact E.
    + rewrite lookup_insert_eq in Hp2. injection Hp2 as <-.
      rewrite lookup_insert_ne in Hp1 by congruence. wsimpl.
      exfalso. apply (Hfresh k1 p1 Hp1). exact E.
    + rewrite lookup_insert_ne in Hp1 by congruence.
      rewrite lookup_insert_ne in Hp2 by congruence.
      apply (H3 k1 k2 p1 p2); assumption.
  - intros t p Ht Hp. apply elem_of_app in Ht as [Ht|Ht].
    + specialize (H1 t Ht).
      rewrite lookup_insert_ne in Hp by lia. apply H4; assumption.
    + apply list_elem_of_singleton in Ht. subst t. wsimpl.
      rewrite lookup_insert_eq in Hp. injection Hp as <-. split; reflexivity.
  - intros k p Hp.
    destruct (decide (k = sequenceNumber (client w))) as [->|Hne].
    + eexists. split; [apply elem_of_app; right; left|]. reflexivity.
    + rewrite lookup_insert_ne in Hp by congruence.
      destruct (H5 k p Hp) as (t & Ht & Hs). exists t.
      split; [apply elem_of_app; left; exact Ht | exact Hs].
Qed.

(** Request [k] goes, with its promise: a response or its timeout. *)
Lemma Inv_retire k p o w :
  Inv w ->
  pendingRequests (client w) !! k = Some p ->
  Inv (settle (Pending.resolver p) o
         (with_client
            (set_pendingRequests (delete k (pendingRequests (client w)))) w)).
Proof.
  intros Hinv Hp. apply Inv_settle.
  - wsimpl. intros k' p' Hp' E.
    apply lookup_delete_Some in Hp' as [Hne Hp'].
    destruct Hinv as [_ _ H3 _ _]. apply Hne.
    apply (H3 k k' p p'); auto.
  - destruct Hinv as [H1 H2 H3 H4 H5]. split; wsimpl.
    + exact H1.
    + intros k' p' Hp'. apply lookup_delete_Some in Hp' as [_ Hp'].
      apply (H2 k' p' Hp').
    + intros k1 k2 p1 p2 Hp1 Hp2.
      apply lookup_delete_Some in Hp1 as [_ Hp1].
      apply lookup_delete_Some in Hp2 as [_ Hp2].
      apply (H3 k1 k2 p1 p2); assumption.
    + intros t p' Ht Hp'. apply lookup_delete_Some in Hp' as [_ Hp'].
      apply H4; assumption.
    + intros k' p' Hp'. apply lookup_delete_Some in Hp' as [_ Hp'].
      apply (H5 k' p' Hp').
Qed.

Lemma Inv_handleMessage m w : Inv w -> Inv (handleMessage m w).
Proof.
  intros Hinv. destruct m as [r|r|e|]; try exact Hinv.
  - unfold handleMessage.
    destruct (pendingRequests (client w) !! DAPResponse.request_seq r)
      as [pending|] eqn:Hp; [|exact Hinv].
    destruct (DAPResponse.success r); apply Inv_retire; auto.
  - unfold handleMessage.
    apply Inv_frame; [apply evolves_handleEvent_fields ..| exact Hinv].
Qed.

Lemma Inv_runJob j w : Inv w -> Inv (runJob j w).
Proof.
  intros Hinv.
  destruct j as [[call|call|sourcePath call|call|call] [response|e]];
    unfold runJob; try (apply Inv_conclude; exact Hinv).
  - apply Inv_sendRequest.
    destruct (DAPResponse.success response), (DAPResponse.body response);
      try exact Hinv.
    apply Inv_frame; [reflexivity .. | exact Hinv].
  - destruct (DAPResponse.success response), (DAPResponse.body response);
      apply Inv_conclude; try exact Hinv.
    apply Inv_frame; [reflexivity .. | exact Hinv].
Qed.

Lemma Inv_drain fuel : forall w, Inv w -> Inv (drain fuel w).
Proof.
  induction fuel as [|fuel IH]; intros w Hinv; [exact Hinv|].
  cbn [drain]. destruct (jobs w) as [|j rest]; [exact Hinv|].
  apply IH, Inv_runJob, Inv_with_jobs, Hinv.
Qed.

Lemma Inv_handleData parse data w : Inv w -> Inv (handleData parse data w).
Proof.
  intros Hinv. unfold handleData, decode.
  pose proof (decodeLoop_keeps parse handleMessage Inv Inv_handleMessage
                (S (length (buffer (client w) ++ utf8Decode data)))
                (buffer (client w) ++ utf8Decode data) w Hinv) as H.
  destruct (decodeLoop _ _ _ _ _) as [buf w']. cbn [snd] in H.
  apply Inv_frame; [reflexivity .. | exact H].
Qed.

Lemma Inv_invoke method w : Inv w -> Inv (invoke method w).
Proof.
  intros Hinv. unfold invoke, newCall.
  destruct method; apply Inv_sendRequest, Inv_with_calls, Hinv.
Qed.

(** ** Timers *)

Lemma takeTimer_Some k ts : forall t rest,
  takeTimer k ts = Some (t, rest) ->
  Timer.seq t = k /\ t ∈ ts
  /\ (forall x, x ∈ rest -> x ∈ ts)
  /\ (forall x, x ∈ ts -> Timer.seq x <> k -> x ∈ rest).
Proof.
  induction ts as [|t0 ts IH]; intros t rest H; [discriminate|].
  cbn [takeTimer] in H.
  destruct (bool_decide (Timer.seq t0 = k)) eqn:E.
  - injection H as <- <-. apply bool_decide_eq_true_1 in E.
    repeat split; try assumption; try left.
    + intros x Hx. right. exact Hx.
    + intros x Hx Hne. apply elem_of_cons in Hx as [->|Hx];
        [contradiction | exact Hx].
  - destruct (takeTimer k ts) as [[t' rest']|]; [|discriminate].
    injection H as <- <-.
    destruct (IH t' rest' eq_refl) as (Hs & Ht & Hsub & Hkeep).
    repeat split; try assumption.
    + right. exact Ht.
    + intros x Hx. apply elem_of_cons in Hx as [->|Hx];
        [left | right; apply Hsub, Hx].
    + intros x Hx Hne. apply elem_of_cons in Hx as [->|Hx];
        [left | right; apply Hkeep; assumption].
Qed.

Lemma takeTimer_armed k ts :
  (exists t, t ∈ ts /\ Timer.seq t = k) ->
  exists t rest, takeTimer k ts = Some (t, rest).
Proof.
  induction ts as [|t0 ts IH]; intros (t & Ht & Hs); [inversion Ht|].
  cbn [takeTimer]. destruct (bool_decide (Timer.seq t0 = k)) eqn:E;
    [eauto|].
  apply bool_decide_eq_false_1 in E.
  apply elem_of_cons in Ht as [->|Ht]; [contradiction|].
  destruct IH as (t' & rest & ->); eauto.
Qed.

Lemma Inv_fire k t rest w :
  Inv w -> takeTimer k (timers w) = Some (t, rest) ->
  Inv (onTimeout t (with_timers rest w)).
Proof.
  intros Hinv Htake.
  destruct (takeTimer_Some _ _ _ _ Htake) as (Hs & Ht & Hsub & Hkeep).
  unfold onTimeout. wsimpl. rewrite Hs.
  destruct (pendingRequests (client w) !! k) as [p|] eqn:Hp.
  - destruct Hinv as [H1 H2 H3 H4 H5].
    destruct (H4 t p Ht) as [Hrej _]; [rewrite Hs; exact Hp|].
    rewrite <- Hrej. apply Inv_settle.
    + wsimpl. intros k' p' Hp' E.
      apply lookup_delete_Some in Hp' as [Hne Hp'].
      apply Hne. apply (H3 k k' p p'); auto.
    + split; wsimpl.
      * intros x Hx. apply H1, Hsub, Hx.
      * intros k' p' Hp'. apply lookup_delete_Some in Hp' as [_ Hp'].
        apply (H2 k' p' Hp').
      * intros k1 k2 p1 p2 Hp1 Hp2.
        apply lookup_delete_Some in Hp1 as [_ Hp1].
        apply lookup_delete_Some in Hp2 as [_ Hp2].
        apply (H3 k1 k2 p1 p2); assumption.
      * intros x p' Hx Hp'. apply lookup_delete_Some in Hp' as [_ Hp'].
        apply H4; [apply Hsub, Hx | exact Hp'].
      * intros k' p' Hp'. apply lookup_delete_Some in Hp' as [Hne Hp'].
        destruct (H5 k' p' Hp') as (x & Hx & Hxs). exists x.
        split; [apply Hkeep; [exact Hx | congruence] | exact Hxs].
  - destruct Hinv as [H1 H2 H3 H4 H5]. split; wsimpl; try assumption.
    + intros x Hx. apply H1, Hsub, Hx.
    + intros x p' Hx Hp'. apply H4; [apply Hsub, Hx | exact Hp'].
    + intros k' p' Hp'. destruct (H5 k' p' Hp') as (x & Hx & Hxs).
      exists x. split; [apply Hkeep; [exact Hx | congruence] | exact Hxs].
Qed.

Lemma Inv_handler parse e w : Inv w -> Inv (handler parse e w).
Proof.
  intros Hinv. destruct e as [method| | |data| | | |seq]; cbn [handler].
  - apply Inv_invoke, Hinv.
  - apply Inv_frame; [reflexivity .. | exact Hinv].
  - apply Inv_frame; [reflexivity .. | exact Hinv].
  - apply Inv_handleData, Hinv.
  - apply Inv_frame; [reflexivity .. | exact Hinv].
  - apply Inv_frame; [reflexivity .. | exact Hinv].
  - apply Inv_frame; [ | | exact Hinv]; unfold disconnect;
      destruct (socket (client w)); reflexivity.
  - destruct (takeTimer seq (timers w)) as [[t rest]|] eqn:Htake;
      [|exact Hinv].
    eapply Inv_fire; eassumption.
Qed.

Lemma Inv_step parse e w : Inv w -> Inv (step parse w e).
Proof. intros H. unfold step, runJobs. apply Inv_drain, Inv_handler, H. Qed.

Lemma Inv_run parse es : forall w, Inv w -> Inv (runEvents parse w es).
Proof.
  induction es as [|e es IH]; intros w H; [exact H|].
  cbn [runEvents fold_left]. apply IH, Inv_step, H.
Qed.

(** ** The promise jobs are all run *)

Definition weight (j : Cont * Outcome) : nat :=
  match j with
  | (KInitialize _, Resolved _) => 2
  | _ => 1
  end.

Fixpoint load (js : list (Cont * Outcome)) : nat :=
  match js with
  | [] => 0%nat
  | j :: js' => (weight j + load js')%nat
  end.

Lemma load_app js1 js2 : load (js1 ++ js2) = (load js1 + load js2)%nat.
Proof.
  induction js1 as [|j js1 IH]; cbn [app load]; [reflexivity | rewrite IH; lia].
Qed.

Lemma load_length js : (load js <= 2 * length js)%nat.
Proof.
  induction js as [|j js IH]; cbn [load length]; [lia|].
  assert (weight j <= 2)%nat
    by (destruct j as [[] []]; cbn; lia).
  lia.
Qed.

Lemma weight_pos j : (1 <= weight j)%nat.
Proof. destruct j as [[] []]; cbn; lia. Qed.

Lemma conclude_jobs c r w : jobs (conclude c r w) = jobs w.
Proof.
  unfold conclude. destruct (calls w !! c) as [[?|]|]; reflexivity.
Qed.

Lemma sendRequest_load command args call w :
  (load (jobs (sendRequest command args (KConfigurationDone call) w))
   <= load (jobs w) + 1)%nat.
Proof.
  unfold sendRequest, newPromise. wsimpl.
  destruct (socket (client w)) as [sock|];
    [destruct (connected (client w))|]; wsimpl; try lia;
    unfold settle; wsimpl; rewrite list_lookup_middle by reflexivity;
    wsimpl; rewrite load_app; cbn; lia.
Qed.

Lemma runJob_load j w :
  (load (jobs (runJob j w)) + 1 <= load (jobs w) + weight j)%nat.
Proof.
  destruct j as [[call|call|sourcePath call|call|call] [response|e]];
    unfold runJob; rewrite ?conclude_jobs; cbn [weight]; try lia.
  - match goal with
    | |- context [sendRequest ?c ?a ?k ?w1] =>
        pose proof (sendRequest_load c a call w1) as H;
        assert (Hj : jobs w1 = jobs w)
          by (destruct (DAPResponse.success response),
                       (DAPResponse.body response); reflexivity)
    end.
    rewrite Hj in H. lia.
  - destruct (DAPResponse.success response), (DAPResponse.body response);
      rewrite conclude_jobs; wsimpl; lia.
Qed.

Lemma drain_done fuel : forall w,
  (load (jobs w) <= fuel)%nat -> jobs (drain fuel w) = [].
Proof.
  induction fuel as [|fuel IH]; intros w Hload.
  - cbn [drain]. destruct (jobs w) as [|j rest]; [reflexivity|].
    cbn [load] in Hload. pose proof (weight_pos j). lia.
  - cbn [drain]. destruct (jobs w) as [|j rest] eqn:Hj; [exact Hj|].
    apply IH. cbn [load] in Hload.
    pose proof (runJob_load j (with_jobs rest w)) as H. wsimpl. lia.
Qed.

(** Enough fuel: after a task no promise job is left. *)
Lemma runJobs_done w : jobs (runJobs w) = [].
Proof. apply drain_done, load_length. Qed.

(** ** What is true of every state the client can be in *)

Lemma reachable_Inv parse w : reachable parse w -> Inv w /\ jobs w = [].
Proof.
  intros [es ->]. split; [apply Inv_run, Inv_new|].
  induction es as [|e es IH] using rev_ind; [reflexivity|].
  unfold runEvents. rewrite fold_left_app. cbn [fold_left].
  unfold step. apply runJobs_done.
Qed.

Lemma reachable_run parse w es :
  reachable parse w -> reachable parse (runEvents parse w es).
Proof.
  intros [es0 ->]. exists (es0 ++ es). unfold runEvents. rewrite fold_left_app.
  reflexivity.
Qed.

Lemma reachable_step parse w e :
  reachable parse w -> reachable parse (step parse w e).
Proof. intros H. apply (reachable_run parse w [e] H). Qed.

(** ** Promises stay what they are *)

(** From [w] to [w']: promise [q] keeps its awaiter, and its outcome once
    it has one. *)
Definition lasts (q : nat) (w w' : World) : Prop :=
  forall cell, promises w !! q = Some cell ->
    exists cell', promises w' !! q = Some cell'
      /\ Promise.awaiter cell' = Promise.awaiter cell
      /\ (Promise.outcome cell <> None -> cell' = cell).

Lemma lasts_refl q w : lasts q w w.
Proof. intros cell H. exists cell. auto. Qed.

Lemma lasts_trans q w1 w2 w3 : lasts q w1 w2 -> lasts q w2 w3 -> lasts q w1 w3.
Proof.
  intros H12 H23 cell H. destruct (H12 cell H) as (c2 & Hc2 & Ha2 & Ho2).
  destruct (H23 c2 Hc2) as (c3 & Hc3 & Ha3 & Ho3).
  exists c3. split; [exact Hc3|]. split; [congruence|].
  intros Hne. rewrite <- (Ho2 Hne). apply Ho3. rewrite (Ho2 Hne). exact Hne.
Qed.

Lemma lasts_same q w w' : promises w' = promises w -> lasts q w w'.
Proof. intros E cell H. exists cell. rewrite E. auto. Qed.

Lemma conclude_promises c r w : promises (conclude c r w) = promises w.
Proof.
  unfold conclude. destruct (calls w !! c) as [[?|]|]; reflexivity.
Qed.

Lemma lasts_settle q q' o w : lasts q w (settle q' o w).
Proof.
  unfold settle. destruct (promises w !! q') as [[[?|] kont]|] eqn:E;
    try apply lasts_refl.
  intros cell H. wsimpl. destruct (decide (q' = q)) as [->|Hne].
  - rewrite list_lookup_insert_eq by (eapply lookup_lt_Some, H).
    eexists. split; [reflexivity|]. rewrite E in H. injection H as <-.
    cbn. split; [reflexivity|]. intros Hn. contradiction.
  - rewrite list_lookup_insert_ne by exact Hne. exists cell. auto.
Qed.

Lemma lasts_append q cell0 w :
  lasts q w (with_promises (promises w ++ [cell0]) w).
Proof.
  intros cell H. exists cell. wsimpl.
  rewrite lookup_app_l by (eapply lookup_lt_Some, H). auto.
Qed.

Lemma lasts_sendRequest q command args kont w :
  lasts q w (sendRequest command args kont w).
Proof.
  unfold sendRequest, newPromise. wsimpl.
  destruct (socket (client w)) as [sock|];
    [destruct (connected (client w))|].
  - eapply lasts_trans; [apply (lasts_append q (awaited kont))|].
    apply lasts_same. reflexivity.
  - eapply lasts_trans; [apply (lasts_append q (awaited kont))|].
    apply lasts_settle.
  - eapply lasts_trans; [apply (lasts_append q (awaited kont))|].
    apply lasts_settle.
Qed.

Lemma lasts_handleMessage q m w : lasts q w (handleMessage m w).
Proof.
  destruct m as [r|r|e|]; try apply lasts_refl.
  - unfold handleMessage.
    destruct (pendingRequests (client w) !! DAPResponse.request_seq r)
      as [pending|]; [|apply lasts_refl].
    destruct (DAPResponse.success r);
      (eapply lasts_trans; [|apply lasts_settle]);
      apply lasts_same; reflexivity.
  - apply lasts_same. reflexivity.
Qed.

Lemma lasts_onTimeout q t w : lasts q w (onTimeout t w).
Proof.
  unfold onTimeout.
  destruct (pendingRequests (client w) !! Timer.seq t); [|apply lasts_refl].
  eapply lasts_trans; [|apply lasts_settle]. apply lasts_same. reflexivity.
Qed.

Lemma lasts_runJob q j w : lasts q w (runJob j w).
Proof.
  destruct j as [[call|call|sourcePath call|call|call] [response|e]];
    unfold runJob;
    try (apply lasts_same, conclude_promises).
  - eapply lasts_trans; [|apply lasts_sendRequest].
    destruct (DAPResponse.success response), (DAPResponse.body response);
      apply lasts_same; reflexivity.
  - destruct (DAPResponse.success response), (DAPResponse.body response);
      apply lasts_same; rewrite conclude_promises; reflexivity.
Qed.

Lemma lasts_drain q fuel : forall w, lasts q w (drain fuel w).
Proof.
  induction fuel as [|fuel IH]; intros w; [apply lasts_refl|].
  cbn [drain]. destruct (jobs w) as [|j rest]; [apply lasts_refl|].
  eapply lasts_trans; [|apply IH].
  eapply lasts_trans; [|apply lasts_runJob].
  apply lasts_same. reflexivity.
Qed.

Lemma lasts_handleData parse q data w : lasts q w (handleData parse data w).
Proof.
  unfold handleData, decode.
  pose proof (decodeLoop_keeps parse handleMessage (lasts q w)
                (fun m w' H => lasts_trans _ _ _ _ H
                                 (lasts_handleMessage q m w'))
                (S (length (buffer (client w) ++ utf8Decode data)))
                (buffer (client w) ++ utf8Decode data) w
                (lasts_refl q w)) as H.
  destruct (decodeLoop _ _ _ _ _) as [buf w']. cbn [snd] in H.
  eapply lasts_trans; [exact H|]. apply lasts_same. reflexivity.
Qed.

Lemma lasts_invoke q method w : lasts q w (invoke method w).
Proof.
  unfold invoke, newCall.
  destruct method;
    (eapply lasts_trans; [|apply lasts_sendRequest]);
    apply lasts_same; reflexivity.
Qed.

Lemma lasts_handler parse q e w : lasts q w (handler parse e w).
Proof.
  destruct e as [method| | |data| | | |seq]; cbn [handler];
    try (apply lasts_same; reflexivity).
  - apply lasts_invoke.
  - apply lasts_handleData.
  - destruct (takeTimer seq (timers w)) as [[t rest]|]; [|apply lasts_refl].
    eapply lasts_trans; [|apply lasts_onTimeout].
    apply lasts_same. reflexivity.
Qed.

Lemma lasts_step parse q e w : lasts q w (step parse w e).
Proof.
  unfold step, runJobs.
  eapply lasts_trans; [apply lasts_handler | apply lasts_drain].
Qed.

Lemma lasts_run parse q es : forall w, lasts q w (runEvents parse w es).
Proof.
  induction es as [|e es IH]; intros w; [apply lasts_refl|].
  cbn [runEvents fold_left]. eapply lasts_trans; [apply lasts_step | apply IH].
Qed.

(** ** A request and its response *)

(** The command a method sends. *)
Definition commandOf (method : Call) : jsstring :=
  match method with
  | Initialize => js "initialize"
  | GetThreads => js "threads"
  | StackTrace _ _ _ => js "stackTrace"
  | Scopes _ => js "scopes"
  | Variables _ _ _ => js "variables"
  | Evaluate _ _ => js "evaluate"
  | SetBreakpoints _ _ => js "setBreakpoints"
  | Continue _ => js "continue"
  | Next _ => js "next"
  | StepIn _ => js "stepIn"
  | StepOut _ => js "stepOut"
  | Pause _ => js "pause"
  end.

(** What the method does once its request is settled. *)
Definition contOf (method : Call) (call : nat) : Cont :=
  match method with
  | Initialize => KInitialize call
  | SetBreakpoints sourcePath _ => KSetBreakpoints sourcePath call
  | GetThreads | StackTrace _ _ _ | Scopes _ | Variables _ _ _
  | Evaluate _ _ => KResult call
  | Continue _ | Next _ | StepIn _ | StepOut _ | Pause _ => KVoid call
  end.

(** How a response settles the promise of its request. *)
Definition settlement (r : DAPResponse.t) : Outcome :=
  if DAPResponse.success r then Resolved r else Rejected (failureMessage r).

Lemma invoke_connected method w sock :
  socket (client w) = Some sock -> connected (client w) = true ->
  pendingRequests (client (invoke method w))
  = <[sequenceNumber (client w) :=
        {| Pending.resolver := length (promises w);
           Pending.command := commandOf method |}]>
      (pendingRequests (client w))
  /\ promises (invoke method w)
     = promises w ++ [awaited (contOf method (length (calls w)))]
  /\ sequenceNumber (client (invoke method w))
     = sequenceNumber (client w) + 1
  /\ jobs (invoke method w) = jobs w.
Proof.
  intros Hs Hc.
  destruct method; unfold invoke, newCall, sendRequest, newPromise; wsimpl;
    rewrite Hs, Hc; wsimpl; repeat split; reflexivity.
Qed.

Lemma handleMessage_unknown r w :
  pendingRequests (client w) !! DAPResponse.request_seq r = None ->
  handleMessage (MsgResponse r) w = w.
Proof. intros H. unfold handleMessage. rewrite H. reflexivity. Qed.

Lemma handleMessage_known r p kont w :
  pendingRequests (client w) !! DAPResponse.request_seq r = Some p ->
  promises w !! Pending.resolver p = Some (awaited kont) ->
  promises (handleMessage (MsgResponse r) w)
  = <[Pending.resolver p :=
        {| Promise.outcome := Some (settlement r);
           Promise.awaiter := kont |}]> (promises w)
  /\ pendingRequests (client (handleMessage (MsgResponse r) w))
     = delete (DAPResponse.request_seq r) (pendingRequests (client w))
  /\ jobs (handleMessage (MsgResponse r) w)
     = jobs w ++ [(kont, settlement r)].
Proof.
  intros Hp Hq. unfold handleMessage, settlement. rewrite Hp.
  destruct (DAPResponse.success r); unfold settle; wsimpl; rewrite Hq;
    unfold awaited; wsimpl; repeat split; reflexivity.
Qed.

Lemma failureMessage_supplied r m :
  DAPResponse.message r = Some m -> m <> [] -> failureMessage r = m.
Proof.
  intros Hm Hne. unfold failureMessage. rewrite Hm.
  destruct m; [contradiction|reflexivity].
Qed.

(** C1. A method called on a connected client sends its request under the
    next sequence number [k], and awaits the promise [q] made for it.
    Whatever the client does afterwards (other calls, responses in any
    order, events, timeouts: the events [es]), as long as request [k] is
    pending a response with request_seq = k settles promise [q] and no
    other and removes the entry of [k]: resolved with the response when
    success=true, rejected with the server-supplied message (or with
    "DAP request failed: <command>" when the server gave none) when
    success=false.  A response whose request_seq is not pending changes
    nothing.  When the timeout of [k] fires the entry of [k] is removed
    (and [q], if [k] was still pending, rejected with the timeout error),
    and from then on a response to [k] has no effect, whatever happened in
    between. *)
Theorem responses_settle_their_requests :
  forall parse (w : World) (method : Call) (es : list Event),
    reachable parse w ->
    is_Some (socket (client w)) ->
    connected (client w) = true ->
    let k := sequenceNumber (client w) in
    let q := length (promises w) in
    let kont := contOf method (length (calls w)) in
    let w1 := step parse w (Invoke method) in
    let w2 := runEvents parse w1 es in
    pendingRequests (client w1) !! k
    = Some {| Pending.resolver := q; Pending.command := commandOf method |}
    /\ promises w1 !! q = Some (awaited kont)
    /\ (forall r, DAPResponse.request_seq r = k ->
          is_Some (pendingRequests (client w2) !! k) ->
          let w3 := handleMessage (MsgResponse r) w2 in
          promises w2 !! q = Some (awaited kont)
          /\ promises w3 !! q
             = Some {| Promise.outcome := Some (settlement r);
                       Promise.awaiter := kont |}
          /\ (forall q', q' <> q -> promises w3 !! q' = promises w2 !! q')
          /\ pendingRequests (client w3)
             = delete k (pendingRequests (client w2)))
    /\ (forall r,
          pendingRequests (client w2) !! DAPResponse.request_seq r = None ->
          handleMessage (MsgResponse r) w2 = w2)
    /\ (forall r m, DAPResponse.success r = false ->
          DAPResponse.message r = Some m -> m <> [] ->
          settlement r = Rejected m)
    /\ (let w3 := step parse w2 (OnTimeout k) in
        pendingRequests (client w3) !! k = None
        /\ (is_Some (pendingRequests (client w2) !! k) ->
            promises w3 !! q
            = Some {| Promise.outcome :=
                        Some (Rejected (js "DAP request timeout: "
                                        ++ commandOf method));
                      Promise.awaiter := kont |})
        /\ forall es' r, DAPResponse.request_seq r = k ->
             handleMessage (MsgResponse r) (runEvents parse w3 es')
             = runEvents parse w3 es').
Proof.
  intros parse w method es Hreach [sock Hsock] Hconn k q kont w1 w2.
  destruct (reachable_Inv parse w Hreach) as [Hinv Hjobs].
  destruct (invoke_connected method w sock Hsock Hconn)
    as (Hpend1 & Hprom1 & Hseq1 & Hjobs1).
  assert (Hw1 : w1 = invoke method w).
  { unfold w1, step, runJobs. cbn [handler]. rewrite Hjobs1, Hjobs.
    reflexivity. }
  assert (Hentry : pendingRequests (client w1) !! k
                   = Some {| Pending.resolver := q;
                             Pending.command := commandOf method |}).
  { rewrite Hw1, Hpend1. apply lookup_insert_eq. }
  assert (Hcell : promises w1 !! q = Some (awaited kont)).
  { rewrite Hw1, Hprom1. apply list_lookup_middle. reflexivity. }
  assert (Hk1 : k < sequenceNumber (client w1)) by (rewrite Hw1, Hseq1; lia).
  assert (Hreach2 : reachable parse w2)
    by (apply reachable_run, reachable_step, Hreach).
  destruct (reachable_Inv parse w2 Hreach2) as [Hinv2 Hjobs2].
  (* the entry of [k] in [w2], if any, is the one made by the call *)
  assert (Hentry2 : forall p, pendingRequests (client w2) !! k = Some p ->
                      p = {| Pending.resolver := q;
                             Pending.command := commandOf method |}).
  { intros p Hp. destruct (evolves_run parse k es w1) as [_ Hev].
    specialize (Hev Hk1 p Hp). rewrite Hentry in Hev. congruence. }
  assert (Hk2 : k < sequenceNumber (client w2)).
  { destruct (evolves_run parse k es w1) as [Hle _]. fold w2 in Hle. lia. }
  (* the promise [q] is still awaited by the method while [k] is pending *)
  assert (Hcell2 : is_Some (pendingRequests (client w2) !! k) ->
                   promises w2 !! q = Some (awaited kont)).
  { intros [p Hp]. pose proof (Hentry2 p Hp) as ->.
    destruct (inv_pending _ Hinv2 k _ Hp) as [kont' Hq]. wsimpl.
    destruct (lasts_run parse q es w1 _ Hcell) as (cell' & Hc' & Ha' & _).
    fold w2 in Hc'. rewrite Hq in Hc'. injection Hc' as <-.
    cbn in Ha'. rewrite Hq, Ha'. reflexivity. }
  split; [exact Hentry|]. split; [exact Hcell|].
  split; [|split; [|split]].
  - intros r Hr Hsome w3. pose proof (Hcell2 Hsome) as Hq.
    destruct Hsome as [p Hp]. pose proof (Hentry2 p Hp) as ->.
    rewrite <- Hr in Hp.
    destruct (handleMessage_known r _ kont w2 Hp Hq) as (Hpr & Hpe & _).
    wsimpl. subst w3. rewrite Hpr, Hpe, Hr.
    split; [exact Hq|]. split; [|split; [|reflexivity]].
    + apply list_lookup_insert_eq. eapply lookup_lt_Some, Hq.
    + intros q' Hne. apply list_lookup_insert_ne. congruence.
  - intros r. apply handleMessage_unknown.
  - intros r m Hfail Hm Hne. unfold settlement. rewrite Hfail.
    f_equal. apply failureMessage_supplied; assumption.
  - intros w3.
    assert (Hgone : pendingRequests (client w3) !! k = None
            /\ (is_Some (pendingRequests (client w2) !! k) ->
                promises w3 !! q
                = Some {| Promise.outcome :=
                            Some (Rejected (js "DAP request timeout: "
                                            ++ commandOf method));
                          Promise.awaiter := kont |})).
    { unfold w3, step, runJobs. cbn [handler].
      set (fuel := (2 * length (jobs _))%nat). clearbody fuel.
      assert (Hcases : (exists p, pendingRequests (client w2) !! k = Some p)
                       \/ pendingRequests (client w2) !! k = None)
        by (destruct (pendingRequests (client w2) !! k); eauto).
      destruct Hcases as [[p Hp]|Hp].
      - pose proof (Hentry2 p Hp) as ->.
        destruct (takeTimer_armed k (timers w2)
                    (inv_armed _ Hinv2 k _ Hp)) as (t & rest & Htake).
        rewrite Htake.
        destruct (takeTimer_Some _ _ _ _ Htake) as (Hs & Ht & _ & _).
        destruct (inv_timer _ Hinv2 t _ Ht ltac:(rewrite Hs; exact Hp))
          as [Hrej Hcmd]. wsimpl.
        pose proof (Hcell2 (ltac:(eauto))) as Hq.
        assert (Hfired :
          pendingRequests (client (onTimeout t (with_timers rest w2))) !! k
          = None
          /\ promises (onTimeout t (with_timers rest w2)) !! q
             = Some {| Promise.outcome :=
                         Some (Rejected (js "DAP request timeout: "
                                         ++ commandOf method));
                       Promise.awaiter := kont |}).
        { unfold onTimeout. wsimpl. rewrite Hs, Hp.
          unfold settle. wsimpl. rewrite <- Hrej, Hq. unfold awaited. wsimpl.
          split; [apply lookup_delete_eq|].
          rewrite <- Hcmd. apply list_lookup_insert_eq.
          eapply lookup_lt_Some, Hq. }
        destruct Hfired as [Hnone Hrejd]. split.
        + destruct (evolves_drain k fuel (onTimeout t (with_timers rest w2)))
            as [_ Hev].
          destruct (pendingRequests (client (drain fuel _)) !! k) as [p'|]
            eqn:Hp'; [|reflexivity].
          rewrite (Hev ltac:(
            destruct (evolves_onTimeout k t (with_timers rest w2)) as [Hle _];
            wsimpl; lia) p' eq_refl) in Hnone.
          discriminate.
        + intros _.
          destruct (lasts_drain q fuel _ _ Hrejd) as (cell' & Hc' & _ & Hsame).
          rewrite Hc'. f_equal. apply Hsame. discriminate.
      - split; [|intros [? ?]; congruence].
        assert (Hh : pendingRequests
                       (client (match takeTimer k (timers w2) with
                                | Some (t, rest) =>
                                    onTimeout t (with_timers rest w2)
                                | None => w2 end)) !! k = None
                     /\ k < sequenceNumber
                           (client (match takeTimer k (timers w2) with
                                    | Some (t, rest) =>
                                        onTimeout t (with_timers rest w2)
                                    | None => w2 end))).
        { destruct (takeTimer k (timers w2)) as [[t rest]|] eqn:Htake;
            [|split; assumption].
          destruct (takeTimer_Some _ _ _ _ Htake) as (Hs & _).
          unfold onTimeout. wsimpl. rewrite Hs, Hp. split; assumption. }
        destruct Hh as [Hnone Hlt].
        match goal with
        | |- pendingRequests (client (drain fuel ?W)) !! k = None =>
            destruct (evolves_drain k fuel W) as [_ Hev];
            destruct (pendingRequests (client (drain fuel W)) !! k) as [p'|]
              eqn:Hp'; [|reflexivity];
            rewrite (Hev Hlt p' eq_refl) in Hnone; discriminate
        end. }
    destruct Hgone as [Hnone Hrejd]. split; [exact Hnone|].
    split; [exact Hrejd|].
    intros es' r Hr. apply handleMessage_unknown. rewrite Hr.
    assert (Hk3 : k < sequenceNumber (client w3)).
    { destruct (evolves_step parse k (OnTimeout k) w2) as [Hle _].
      fold w3 in Hle. lia. }
    destruct (evolves_run parse k es' w3) as [_ Hev].
    destruct (pendingRequests (client (runEvents parse w3 es')) !! k) as [p'|]
      eqn:Hp'; [|reflexivity].
    rewrite (Hev Hk3 p' eq_refl) in Hnone. discriminate.
Qed.

(** [evaluate("hp")] on a freshly connected client, then [getThreads()]
    and the answer to it, and only then the answer to the [evaluate]. *)
Definition evaluateAnswer : DAPResponse.t :=
  {| DAPResponse.seq := 8; DAPResponse.request_seq := 1;
     DAPResponse.success := true; DAPResponse.command := js "evaluate";
     DAPResponse.body := None; DAPResponse.message := None |}.

Definition noParse : jsstring -> option Message := fun _ => None.

Lemma responses_settle_their_requests_witness :
  let w1 := step noParse connectedWorld (Invoke (Evaluate (js "hp") 0)) in
  let w2 := runEvents noParse w1
              [Invoke GetThreads; OnError; OnConnect] in
  pendingRequests (client w1) !! 1
  = Some {| Pending.resolver := 0; Pending.command := js "evaluate" |}
  /\ promises (handleMessage (MsgResponse evaluateAnswer) w2) !! 0%nat
     = Some {| Promise.outcome := Some (Resolved evaluateAnswer);
               Promise.awaiter := KResult 0 |}
  /\ pendingRequests (client (step noParse w2 (OnTimeout 1))) !! 1 = None.
Proof.
  intros w1 w2.
  assert (Hreach : reachable noParse connectedWorld)
    by (exists [Connect; OnConnect]; reflexivity).
  destruct (responses_settle_their_requests noParse connectedWorld
              (Evaluate (js "hp") 0) [Invoke GetThreads; OnError; OnConnect]
              Hreach
              ltac:(eexists; reflexivity) eq_refl)
    as (Hentry & _ & Hresp & _ & _ & Htime & _).
  split; [exact Hentry|]. split.
  - destruct (Hresp evaluateAnswer eq_refl
                ltac:(eexists; vm_compute; reflexivity)) as (_ & Hq & _).
    exact Hq.
  - exact Htime.
Defined.

End Correlator.

(* ===================================================================== *)
(** * DAP client: the frame codec                                          *)
(* ===================================================================== *)

Section Codec.
Import JS Regex Runtime DAP.

(** ** ASCII text goes through UTF-8 unchanged *)

Definition ascii (s : list N) : Prop := Forall (fun c => c < 128) s.

Lemma utf8Encode_ascii s : ascii s -> utf8Encode s = s.
Proof.
  induction 1 as [|c s Hc Hs IH]; [reflexivity|].
  cbn [utf8Encode].
  assert (Hh : is_high_surrogate c = false).
  { unfold is_high_surrogate. apply andb_false_iff. left.
    apply N.leb_gt. lia. }
  assert (Hl : is_low_surrogate c = false).
  { unfold is_low_surrogate. apply andb_false_iff. left.
    apply N.leb_gt. lia. }
  rewrite Hh, Hl. unfold utf8_point.
  destruct (N.ltb_spec c 128); [|lia]. cbn [app]. f_equal. exact IH.
Qed.

Lemma byteLength_ascii s : ascii s -> byteLength s = N.of_nat (length s).
Proof. intros H. unfold byteLength. rewrite utf8Encode_ascii by exact H. reflexivity. Qed.

Lemma utf8Decode_fuel_ascii b : forall fuel,
  ascii b -> (length b <= fuel)%nat -> utf8Decode_fuel fuel b = b.
Proof.
  induction b as [|c b IH]; intros fuel Hb Hfuel.
  - destruct fuel; reflexivity.
  - destruct fuel; [cbn in Hfuel; lia|].
    apply Forall_cons in Hb as [Hc Hb]. cbn [utf8Decode_fuel].
    destruct (N.ltb_spec c 128); [|lia].
    f_equal. apply IH; [exact Hb | cbn in Hfuel; lia].
Qed.

Lemma utf8Decode_ascii b : ascii b -> utf8Decode b = b.
Proof. intros H. apply utf8Decode_fuel_ascii; [exact H | lia]. Qed.

(** Every round of the UTF-8 decoder consumes a byte: as many rounds as
    there are bytes reach the end. *)
Lemma utf8Decode_fuel_enough : forall n b f1 f2,
  (length b <= n)%nat -> (n <= f1)%nat -> (n <= f2)%nat ->
  utf8Decode_fuel f1 b = utf8Decode_fuel f2 b.
Proof.
  induction n as [|n IH]; intros b f1 f2 Hb H1 H2.
  - destruct b; [|cbn in Hb; lia]. destruct f1, f2; reflexivity.
  - destruct b as [|b0 r0]; [destruct f1, f2; reflexivity|].
    destruct f1 as [|f1]; [lia|]. destruct f2 as [|f2]; [lia|].
    cbn [utf8Decode_fuel]. cbn [length] in Hb.
    repeat match goal with
           | |- context [if ?c then _ else _] => destruct c
           | |- context [match ?l with [] => _ | _ :: _ => _ end] =>
               destruct l; cbn [length] in Hb
           end;
      try reflexivity;
      (f_equal; apply IH; cbn [length]; lia).
Qed.

(** ** Decimal numbers are read back *)

Definition digitsValue (l : jsstring) : N :=
  fold_left (fun acc c => 10 * acc + (c - 48)) l 0.

Lemma fold_digits_app l : forall a,
  fold_left (fun acc c => 10 * acc + (c - 48)) l a
  = a * 10 ^ N.of_nat (length l) + digitsValue l.
Proof.
  unfold digitsValue.
  induction l as [|c l IH] using rev_ind; intros a.
  - cbn. lia.
  - rewrite !fold_left_app. cbn [fold_left]. rewrite (IH a), (IH 0).
    rewrite length_app. cbn [length].
    replace (N.of_nat (length l + 1)) with (N.succ (N.of_nat (length l)))
      by lia.
    rewrite N.pow_succ_r'. lia.
Qed.

Lemma digitsValue_cons c l :
  digitsValue (c :: l) = (c - 48) * 10 ^ N.of_nat (length l) + digitsValue l.
Proof.
  unfold digitsValue at 1. cbn [fold_left]. rewrite fold_digits_app. lia.
Qed.

Lemma is_digit_of n : n < 10 -> is_digit (48 + n) = true.
Proof.
  intros H. unfold is_digit. apply andb_true_iff.
  split; apply N.leb_le; lia.
Qed.

Lemma digits_fuel_S fuel n acc :
  digits_fuel (S fuel) n acc
  = if n / 10 =? 0 then (48 + n mod 10) :: acc
    else digits_fuel fuel (n / 10) ((48 + n mod 10) :: acc).
Proof. reflexivity. Qed.

Lemma digits_fuel_spec fuel : forall n acc,
  n < 2 ^ N.of_nat (S fuel) ->
  Forall (fun c => is_digit c = true) acc ->
  Forall (fun c => is_digit c = true) (digits_fuel (S fuel) n acc)
  /\ digitsValue (digits_fuel (S fuel) n acc)
     = n * 10 ^ N.of_nat (length acc) + digitsValue acc
  /\ digits_fuel (S fuel) n acc <> [].
Proof.
  induction fuel as [|fuel IH]; intros n acc Hn Hacc.
  - rewrite digits_fuel_S. change (2 ^ N.of_nat 1) with 2 in Hn.
    assert (n / 10 = 0) as -> by (apply N.div_small; lia).
    cbn [N.eqb]. split; [|split; [|discriminate]].
    + constructor; [|exact Hacc]. apply is_digit_of.
      apply N.mod_lt. lia.
    + rewrite digitsValue_cons. rewrite N.mod_small by lia. lia.
  - rewrite digits_fuel_S. pose proof (N.mod_lt n 10 ltac:(lia)) as Hmod.
    assert (Hd : is_digit (48 + n mod 10) = true) by (apply is_digit_of; lia).
    destruct (N.eqb_spec (n / 10) 0) as [Hz|Hnz].
    + split; [|split; [|discriminate]].
      * constructor; assumption.
      * rewrite digitsValue_cons.
        assert (n < 10) by (apply N.div_small_iff in Hz; lia).
        rewrite N.mod_small by lia. lia.
    + assert (Hlt : n / 10 < 2 ^ N.of_nat (S fuel)).
      { replace (N.of_nat (S (S fuel))) with (N.succ (N.of_nat (S fuel)))
          in Hn by lia.
        rewrite N.pow_succ_r' in Hn.
        apply N.Div0.div_lt_upper_bound. lia. }
      destruct (IH (n / 10) ((48 + n mod 10) :: acc) Hlt
                  ltac:(constructor; assumption)) as (H1 & H2 & H3).
      split; [exact H1|]. split; [|exact H3].
      rewrite H2, digitsValue_cons. cbn [length].
      replace (N.of_nat (S (length acc)))
        with (N.succ (N.of_nat (length acc))) by lia.
      rewrite N.pow_succ_r'.
      rewrite (N.add_comm 48 (n mod 10)), N.add_sub.
      pose proof (N.div_mod n 10 ltac:(lia)) as Hdm.
      set (q := n / 10) in *. set (r := n mod 10) in *.
      rewrite Hdm. ring.
Qed.

Lemma toDecimal_spec n :
  Forall (fun c => is_digit c = true) (toDecimal n)
  /\ digitsValue (toDecimal n) = n
  /\ toDecimal n <> [].
Proof.
  unfold toDecimal.
  destruct (digits_fuel_spec (N.to_nat (N.log2 n)) n []) as (H1 & H2 & H3).
  - destruct n as [|p]; [cbn; lia|].
    replace (N.of_nat (S (N.to_nat (N.log2 (N.pos p)))))
      with (N.succ (N.log2 (N.pos p))) by lia.
    apply N.log2_spec. lia.
  - constructor.
  - split; [exact H1|]. split; [|exact H3]. rewrite H2. cbn. lia.
Qed.

Lemma take_while_all p l :
  Forall (fun c => p c = true) l -> take_while p l = l /\ drop_while p l = [].
Proof.
  induction 1 as [|c l Hc Hl [IH1 IH2]]; [split; reflexivity|].
  cbn. rewrite Hc. split; [f_equal|]; assumption.
Qed.

Lemma parseInt10_toDecimal n : parseInt10 (toDecimal n) = n.
Proof.
  destruct (toDecimal_spec n) as (Hd & Hv & _).
  unfold parseInt10. rewrite (proj1 (take_while_all _ _ Hd)). exact Hv.
Qed.

(** ** The header pattern *)

Definition header (n : N) : jsstring := js "Content-Length: " ++ toDecimal n.

Lemma frame_header message :
  frame message = header (byteLength message) ++ CRLFCRLF ++ message.
Proof. unfold frame, header. rewrite <- !app_assoc. reflexivity. Qed.

Lemma search_first r pos s c :
  run (Grp 0 r) pos s [] accept = Some c -> search r pos s = Some c.
Proof. intros H. destruct s; cbn [search]; rewrite H; reflexivity. Qed.

Lemma run_LitI_self l : forall pos rest c k,
  run (fold_right
         (fun c r => Seq (Chr (fun x => unit_eqb (fold_case x) (fold_case c))) r)
         Eps l) pos (l ++ rest) c k
  = k (pos + length l)%nat rest c.
Proof.
  induction l as [|a l IH]; intros pos rest c k.
  - cbn. rewrite Nat.add_0_r. reflexivity.
  - cbn [fold_right app length]. rewrite run_Seq, run_Chr.
    unfold unit_eqb at 1. rewrite N.eqb_refl. rewrite IH.
    f_equal. lia.
Qed.

Lemma digit_not_space d : is_digit d = true -> is_space d = false.
Proof.
  unfold is_digit, is_space. intros H. apply andb_prop in H as [H1 H2].
  apply N.leb_le in H1, H2.
  repeat (apply orb_false_iff; split);
    try (apply N.eqb_neq; lia);
    apply andb_false_iff; left; apply N.leb_gt; lia.
Qed.

(** The pattern finds the number of a header the client would write. *)
Lemma contentLength_of_header n :
  exists m, js_match (header n) contentLengthPattern = Some m
            /\ group 1 m = Some (toDecimal n).
Proof.
  destruct (toDecimal_spec n) as (Hd & _ & Hne).
  unfold header. destruct (toDecimal n) as [|d ds]; [contradiction|].
  apply Forall_cons in Hd as [Hd Hds].
  destruct (take_while_all _ _ Hds) as [Htw Hdw].
  eexists. split.
  - unfold js_match. apply search_first.
    change (js "Content-Length: " ++ d :: ds)
      with (js "Content-Length:" ++ 32 :: d :: ds).
    unfold contentLengthPattern. cbn [Seqs].
    rewrite run_Grp, run_Seq. unfold LitI. rewrite run_LitI_self.
    rewrite run_Seq. unfold ws.
    erewrite run_Star_class; [reflexivity|].
    cbn [take_while drop_while]. change (is_space 32) with true.
    cbn iota. rewrite (digit_not_space d Hd).
    unfold Plus, digit. rewrite run_Grp, run_Seq, run_Chr, Hd.
    erewrite run_Star_class; [reflexivity|].
    rewrite Htw, Hdw. reflexivity.
  - cbn [group Nat.eqb]. f_equal.
    match goal with
    | |- take ?k (d :: ds) = _ =>
        replace k with (length (d :: ds)) by (cbn [length]; lia)
    end.
    apply firstn_all.
Qed.

(** ** Finding the end of the header *)

Lemma indexOf_skip pre : forall i s,
  Forall (fun c => c <> 13) pre ->
  indexOf_from i (pre ++ s) CRLFCRLF
  = indexOf_from (i + length pre) s CRLFCRLF.
Proof.
  induction pre as [|c pre IH]; intros i s Hpre.
  - cbn. rewrite Nat.add_0_r. reflexivity.
  - apply Forall_cons in Hpre as [Hc Hpre].
    cbn [app indexOf_from startsWith CRLFCRLF length].
    unfold unit_eqb.
    destruct (N.eqb_spec 13 c); [congruence|]. cbn [andb].
    rewrite IH by exact Hpre. f_equal. lia.
Qed.

Lemma indexOf_found i s : indexOf_from i (CRLFCRLF ++ s) CRLFCRLF = Some i.
Proof.
  unfold CRLFCRLF. cbn [app indexOf_from startsWith unit_eqb N.eqb Pos.eqb andb].
  rewrite startsWith_nil. reflexivity.
Qed.

Lemma header_no_CR n : Forall (fun c => c <> 13) (header n).
Proof.
  unfold header. apply Forall_app. split.
  - repeat constructor; discriminate.
  - destruct (toDecimal_spec n) as (Hd & _ & _).
    eapply Forall_impl; [exact Hd|]. cbn. intros c Hc ->. discriminate.
Qed.

Lemma header_ascii n : ascii (header n).
Proof.
  unfold header. apply Forall_app. split.
  - repeat constructor.
  - destruct (toDecimal_spec n) as (Hd & _ & _).
    eapply Forall_impl; [exact Hd|]. cbn. intros c Hc.
    unfold is_digit in Hc. apply andb_prop in Hc as [_ Hc].
    apply N.leb_le in Hc. lia.
Qed.

(** ** One round of the decoder on a well-formed header *)

Local Open Scope nat_scope.

Lemma decodeLoop_framed {W} parse (handle : Message -> W -> W) fuel n body w :
  decodeLoop parse handle (S fuel) (header n ++ CRLFCRLF ++ body) w
  = if length body <? N.to_nat n
    then (header n ++ CRLFCRLF ++ body, w)
    else decodeLoop parse handle fuel (drop (N.to_nat n) body)
           (match parse (take (N.to_nat n) body) with
            | Some m => handle m w
            | None => w
            end).
Proof.
  cbn [decodeLoop]. unfold indexOf.
  rewrite indexOf_skip by apply header_no_CR. rewrite indexOf_found.
  cbn [Nat.add]. unfold substring, substring_from.
  rewrite Nat.sub_0_r, drop_0, take_app_length.
  destruct (contentLength_of_header n) as (m & -> & ->).
  cbn [default from_option id]. unfold id.
  rewrite parseInt10_toDecimal.
  rewrite !length_app. change (length CRLFCRLF) with 4.
  destruct (Nat.ltb_spec (length body) (N.to_nat n)) as [Hshort|Hlong].
  - destruct (Nat.ltb_spec (length (header n) + (4 + length body))
                (length (header n) + 4 + N.to_nat n)); [reflexivity|lia].
  - destruct (Nat.ltb_spec (length (header n) + (4 + length body))
                (length (header n) + 4 + N.to_nat n)); [lia|].
    replace (length (header n) + 4 + N.to_nat n - (length (header n) + 4))
      with (N.to_nat n) by lia.
    assert (E1 : drop (length (header n) + 4 + N.to_nat n)
                   (header n ++ CRLFCRLF ++ body) = drop (N.to_nat n) body).
    { rewrite drop_app_ge by lia.
      replace (length (header n) + 4 + N.to_nat n - length (header n))
        with (4 + N.to_nat n) by lia.
      reflexivity. }
    assert (E2 : drop (length (header n) + 4)
                   (header n ++ CRLFCRLF ++ body) = body).
    { rewrite drop_app_ge by lia.
      replace (length (header n) + 4 - length (header n)) with 4 by lia.
      reflexivity. }
    rewrite E1, E2. reflexivity.
Qed.

Lemma indexOf_none_of_no_CR s :
  Forall (fun c => c <> 13%N) s -> indexOf s CRLFCRLF = None.
Proof.
  intros H. unfold indexOf. rewrite <- (app_nil_r s).
  rewrite indexOf_skip by exact H. reflexivity.
Qed.

(** A frame that is not complete yet stays in the buffer. *)
Lemma decodeLoop_incomplete {W} parse (handle : Message -> W -> W)
    fuel message k w :
  ascii message ->
  k < length (frame message) ->
  decodeLoop parse handle fuel (take k (frame message)) w
  = (take k (frame message), w).
Proof.
  intros Hascii Hk. destruct fuel as [|fuel]; [reflexivity|].
  rewrite frame_header in *. rewrite byteLength_ascii in * by exact Hascii.
  set (n := N.of_nat (length message)) in *.
  rewrite !length_app in Hk. change (length CRLFCRLF) with 4 in Hk.
  destruct (Nat.le_gt_cases k (length (header n))) as [Hin|Hout].
  - rewrite take_app_le by exact Hin. cbn [decodeLoop].
    rewrite indexOf_none_of_no_CR; [reflexivity|].
    apply Forall_take, header_no_CR.
  - rewrite take_app_ge by lia.
    destruct (Nat.le_gt_cases 4 (k - length (header n))) as [Hterm|Hcut].
    + rewrite take_app_ge by (change (length CRLFCRLF) with 4; lia).
      change (length CRLFCRLF) with 4.
      rewrite decodeLoop_framed.
      rewrite length_take. replace (N.to_nat n) with (length message)
        by (unfold n; lia).
      destruct (Nat.ltb_spec
                  (Nat.min (k - length (header n) - 4) (length message))
                  (length message)); [reflexivity|lia].
    + cbn [decodeLoop]. unfold indexOf.
      rewrite indexOf_skip by apply header_no_CR.
      destruct (k - length (header n)) as [|[|[|[|j]]]]; try lia;
        reflexivity.
Qed.

(** A complete frame is taken out of the buffer and its payload parsed. *)
Lemma decodeLoop_complete {W} parse (handle : Message -> W -> W)
    fuel message m w :
  ascii message ->
  parse message = Some m ->
  decodeLoop parse handle (S fuel) (frame message) w = ([], handle m w).
Proof.
  intros Hascii Hparse. rewrite frame_header.
  rewrite byteLength_ascii by exact Hascii. rewrite decodeLoop_framed.
  rewrite Nat2N.id. rewrite Nat.ltb_irrefl, firstn_all, drop_all, Hparse.
  destruct fuel; reflexivity.
Qed.

(** ** The loop of the decoder ends within its fuel *)

Lemma startsWith_length p : forall s,
  startsWith s p = true -> length p <= length s.
Proof.
  intros s H. pose proof (startsWith_prefix p s H) as E.
  apply (f_equal length) in E. rewrite length_app in E. lia.
Qed.

Lemma indexOf_from_bound p : forall s i j,
  indexOf_from i s p = Some j -> i <= j /\ j - i + length p <= length s.
Proof.
  induction s as [|x s IH]; intros i j H; cbn [indexOf_from] in H.
  - destruct (startsWith [] p) eqn:E; [|discriminate].
    injection H as <-. apply startsWith_length in E. lia.
  - destruct (startsWith (x :: s) p) eqn:E.
    + injection H as <-. apply startsWith_length in E. lia.
    + apply IH in H. cbn [length]. lia.
Qed.

(** Every round that goes on shortens the buffer, so the loop run with
    more rounds than the buffer has units gives the same result whatever
    the number of rounds. *)
Lemma decodeLoop_fuel {W} parse (handle : Message -> W -> W) : forall n buf w f1 f2,
  length buf <= n -> n < f1 -> n < f2 ->
  decodeLoop parse handle f1 buf w = decodeLoop parse handle f2 buf w.
Proof.
  induction n as [|n IH]; intros buf w f1 f2 Hlen H1 H2;
    (destruct f1 as [|f1]; [lia|]); (destruct f2 as [|f2]; [lia|]);
    cbn [decodeLoop].
  - destruct buf; [reflexivity | cbn in Hlen; lia].
  - destruct (indexOf buf CRLFCRLF) as [headerEnd|] eqn:Hidx; [|reflexivity].
    apply indexOf_from_bound in Hidx. change (length CRLFCRLF) with 4 in Hidx.
    destruct (js_match _ contentLengthPattern) as [m|].
    + destruct (Nat.ltb _ _); [reflexivity|].
      apply IH; try lia. unfold substring_from. rewrite length_drop. lia.
    + apply IH; try lia. unfold substring_from. rewrite length_drop. lia.
Qed.

(** ** Decoding and dispatching are independent *)

Definition collect (m : Message) (log : list Message) : list Message :=
  log ++ [m].

Lemma decodeLoop_collect {W} parse (handle : Message -> W -> W) :
  forall fuel buf w log,
    exists msgs,
      decodeLoop parse collect fuel buf log
      = (fst (decodeLoop parse handle fuel buf w), log ++ msgs)
      /\ snd (decodeLoop parse handle fuel buf w)
         = fold_left (fun w m => handle m w) msgs w.
Proof.
  induction fuel as [|fuel IH]; intros buf w log.
  - exists []. rewrite app_nil_r. split; reflexivity.
  - cbn [decodeLoop].
    destruct (indexOf buf CRLFCRLF) as [headerEnd|];
      [|exists []; rewrite app_nil_r; split; reflexivity].
    destruct (js_match _ contentLengthPattern) as [m|]; [|apply IH].
    destruct (Nat.ltb _ _);
      [exists []; rewrite app_nil_r; split; reflexivity|].
    destruct (parse _) as [msg|]; [|apply IH].
    destruct (IH (substring_from buf
                    (headerEnd + 4
                     + N.to_nat (parseInt10 (default [] (group 1 m)))))
                (handle msg w) (collect msg log)) as (msgs & H1 & H2).
    exists (msg :: msgs). rewrite H1, H2. unfold collect.
    rewrite <- app_assoc. split; reflexivity.
Qed.

(** [handleData] hands the messages it decodes to [handleMessage], in
    order; what it decodes depends on the buffer and the bytes only. *)
Lemma handleData_dispatch parse data w :
  let decoded := feed parse (buffer (client w), []) data in
  handleData parse data w
  = with_client (set_buffer (fst decoded))
      (fold_left (fun w m => handleMessage m w) (snd decoded) w).
Proof.
  unfold handleData, feed, decode. cbn [fst snd].
  set (buf := buffer (client w) ++ utf8Decode data).
  destruct (decodeLoop_collect parse handleMessage (S (length buf)) buf w [])
    as (msgs & H1 & H2).
  fold collect. rewrite H1. cbn [fst snd app].
  destruct (decodeLoop parse handleMessage (S (length buf)) buf w)
    as [b w'] eqn:E. cbn [fst snd] in *. rewrite H2. reflexivity.
Qed.

(** ** Round trip of ASCII requests, for every way of cutting the bytes *)

Lemma feed_empty parse st :
  fst st = [] -> feed parse st [] = st.
Proof.
  destruct st as [buf log]. cbn [fst]. intros ->. reflexivity.
Qed.

Lemma feed_chunks parse message m : forall chunks k,
  ascii message ->
  parse message = Some m ->
  k < length (frame message) ->
  take k (frame message) ++ concat chunks = frame message ->
  fold_left (feed parse) chunks (take k (frame message), []) = ([], [m]).
Proof.
  intros chunks k Hascii Hparse. revert k.
  assert (Hframe : ascii (frame message)).
  { rewrite frame_header. apply Forall_app. split; [apply header_ascii|].
    apply Forall_app. split; [repeat constructor | exact Hascii]. }
  induction chunks as [|c cs IH]; intros k Hk Hcat.
  - cbn [concat] in Hcat. rewrite app_nil_r in Hcat.
    apply (f_equal length) in Hcat. rewrite length_take in Hcat. lia.
  - cbn [concat fold_left] in *.
    assert (HA : length (take k (frame message)) = k)
      by (rewrite length_take; lia).
    assert (Hc : take k (frame message) ++ c
                 = take (k + length c) (frame message)).
    { set (A := take k (frame message)) in *. rewrite <- Hcat, app_assoc.
      symmetry. apply take_app_length'. rewrite length_app. lia. }
    assert (Hcascii : ascii c).
    { rewrite <- Hcat in Hframe.
      apply Forall_app in Hframe as [_ Hframe].
      apply Forall_app in Hframe as [Hframe _]. exact Hframe. }
    assert (Hlen : k + length c + length (concat cs) = length (frame message)).
    { apply (f_equal length) in Hcat.
      rewrite !length_app, length_take in Hcat. lia. }
    unfold feed at 2. cbn [fst snd]. unfold decode.
    rewrite utf8Decode_ascii by exact Hcascii. rewrite Hc.
    destruct (Nat.lt_ge_cases (k + length c) (length (frame message)))
      as [Hmore|Hdone].
    + rewrite decodeLoop_incomplete by assumption.
      apply IH; [exact Hmore|].
      rewrite <- Hc, <- app_assoc. exact Hcat.
    + rewrite take_ge by lia.
      rewrite (decodeLoop_complete parse _ _ message m) by assumption.
      cbn [app].
      assert (Hcs : Forall (fun c => c = []) cs).
      { assert (Hnil : concat cs = [])
          by (apply length_zero_iff_nil; lia).
        clear -Hnil. induction cs as [|x cs IH]; [constructor|].
        cbn [concat] in Hnil. apply app_eq_nil in Hnil as [-> Hnil].
        constructor; [reflexivity | apply IH, Hnil]. }
      clear -Hcs. induction Hcs as [|x cs -> _ IH]; [reflexivity|].
      cbn [fold_left]. rewrite feed_empty by reflexivity. exact IH.
Qed.

(** The nearby statement that does hold: a request whose JSON text is
    ASCII, written by [sendRequest] and fed back in chunks cut anywhere,
    is decoded to exactly one message, the request itself. *)
Lemma ascii_request_round_trip parse (r : DAPRequest.t) chunks :
  ascii (stringifyRequest r) ->
  parse (stringifyRequest r) = Some (MsgRequest r) ->
  concat chunks = utf8Encode (encodeRequest r) ->
  decodeChunks parse chunks = ([], [MsgRequest r]).
Proof.
  intros Hascii Hparse Hcat. unfold decodeChunks, encodeRequest in *.
  assert (Hframe : ascii (frame (stringifyRequest r))).
  { rewrite frame_header. apply Forall_app. split; [apply header_ascii|].
    apply Forall_app. split; [repeat constructor | exact Hascii]. }
  rewrite utf8Encode_ascii in Hcat by exact Hframe.
  change ([] : jsstring) with (take 0 (frame (stringifyRequest r))) at 1.
  apply feed_chunks; try assumption.
  rewrite frame_header, !length_app. change (length CRLFCRLF) with 4. lia.
Qed.

(** ** A request that is not ASCII *)

(** [evaluate] called with this expression on a connected client. *)
Definition evaluateRequest (expression : jsstring) : DAPRequest.t :=
  {| DAPRequest.seq := 1;
     DAPRequest.command := js "evaluate";
     DAPRequest.arguments :=
       JObj [(js "expression", JStr expression);
             (js "frameId", JNum 0);
             (js "context", JStr (js "hover"))] |}.

(** [sendRequest] does write [encodeRequest] of the request. *)
Example evaluate_written parse expression :
  option_map Socket.written
    (socket (client (step parse
       (with_client onConnect (with_client openSocket newWorld))
       (Invoke (Evaluate expression 0)))))
  = Some [encodeRequest (evaluateRequest expression)].
Proof. reflexivity. Qed.

(** A parser that hands back the very text it was given, to see what the
    decoder passes to [JSON.parse]. *)
Definition probe (payload : jsstring) : option Message :=
  Some (MsgRequest {| DAPRequest.seq := 0; DAPRequest.command := payload;
                      DAPRequest.arguments := JNull |}).

Definition payloads (st : jsstring * list Message) : list jsstring :=
  omap (fun m => match m with
                 | MsgRequest r => Some (DAPRequest.command r)
                 | _ => None
                 end) (snd st).

(** U+00E9, LATIN SMALL LETTER E WITH ACUTE. *)
Definition eAcute : jsstring := [233%N].

(** C4, on the code.  The request [evaluate] of the one-letter expression
    U+00E9 has a JSON text of 108 units and 109 bytes, and the header
    written says 109.  The decoder counts units of the decoded string, not
    bytes: fed the whole frame it waits for a 109th unit and hands over no
    message at all, whatever [JSON.parse] is; fed the frame byte by byte it
    hands [JSON.parse] a text in which the letter has become two U+FFFD;
    and fed two such frames it hands [JSON.parse] the first text with the
    first letter of the next header stuck to it. *)
Theorem nonascii_request_not_decoded : forall parse,
  length (stringifyRequest (evaluateRequest eAcute)) = 108
  /\ byteLength (stringifyRequest (evaluateRequest eAcute)) = 109%N
  /\ decodeChunks parse [utf8Encode (encodeRequest (evaluateRequest eAcute))]
     = (encodeRequest (evaluateRequest eAcute), [])
  /\ payloads (decodeChunks probe
        (map (fun b => [b])
           (utf8Encode (encodeRequest (evaluateRequest eAcute)))))
     = [stringifyRequest (evaluateRequest [65533%N; 65533%N])]
  /\ payloads (decodeChunks probe
        [utf8Encode (encodeRequest (evaluateRequest eAcute));
         utf8Encode (encodeRequest (evaluateRequest eAcute))])
     = [stringifyRequest (evaluateRequest eAcute) ++ js "C"].
Proof.
  intros parse. repeat split; vm_compute; reflexivity.
Qed.

(** The same request with an ASCII letter comes back, cut anywhere. *)
Example ascii_request_decoded :
  payloads (decodeChunks probe
     [utf8Encode (encodeRequest (evaluateRequest (js "e")))])
  = [stringifyRequest (evaluateRequest (js "e"))]
  /\ payloads (decodeChunks probe
        (map (fun b => [b])
           (utf8Encode (encodeRequest (evaluateRequest (js "e"))))))
     = [stringifyRequest (evaluateRequest (js "e"))].
Proof. split; vm_compute; reflexivity. Qed.

End Codec.

(* ===================================================================== *)
(** * Telemetry: when an error is recorded, and what the tools read        *)
(* ===================================================================== *)

Section Recording.
Import JS Regex Telemetry.
Local Open Scope nat_scope.







End Recording.

Section Readers.
Import JS Regex Telemetry.
Local Open Scope nat_scope.

(** The handlers never touch the binding of [activeProcess.debugMessages]:
    only [get_debug_output] rebinds it. *)
Lemma stdoutLine_rebound now p line :
  GodotProcess.rebound (stdoutLine now p line) = GodotProcess.rebound p.
Proof. unfold stdoutLine. destruct (nonblank line); reflexivity. Qed.

Lemma stderrLine_rebound parse now p line :
  GodotProcess.rebound (stderrLine parse now p line) = GodotProcess.rebound p.
Proof.
  unfold stderrLine. destruct (nonblank line); [|reflexivity].
  destruct (parseAndStoreError _ _ _ _). reflexivity.
Qed.

Lemma fold_rebound (f : GodotProcess.t -> jsstring -> GodotProcess.t) lines :
  (forall q l, GodotProcess.rebound (f q l) = GodotProcess.rebound q) ->
  forall p, GodotProcess.rebound (fold_left f lines p) = GodotProcess.rebound p.
Proof.
  intros Hf. induction lines as [|l lines IH]; intros p; simpl.
  - reflexivity.
  - rewrite IH. apply Hf.
Qed.

Lemma perform_rebound parse p op :
  GodotProcess.rebound p = Some [] ->
  GodotProcess.rebound (perform parse p op) = Some [].
Proof.
  intros H. destruct op as [now data|now data| |]; simpl.
  - unfold onStdout. rewrite fold_rebound by apply stdoutLine_rebound.
    exact H.
  - unfold onStderr. rewrite fold_rebound by apply stderrLine_rebound.
    exact H.
  - exact H.
  - reflexivity.
Qed.

(** X2. Once [get_debug_output] has been called with [clearAfterRead], it
    never returns a message again for that process: the member it reads has
    been bound to a new array, and the stdout and stderr handlers keep
    pushing to the one they captured.  Whatever output arrives afterwards,
    every later call answers with no message and [total_buffered] 0. *)
Theorem cleared_debug_output_stays_empty :
  forall (parseStderrLine : Z -> jsstring -> DebugMessage.t)
         (args args' : DebugOutputArgs.t) (p : GodotProcess.t)
         (ops : list Operation),
    DebugOutputArgs.clearAfterRead args = Some true ->
    let later :=
      option_map (fun q => fold_left (perform parseStderrLine) ops q)
        (snd (handleGetDebugOutput args (Some p))) in
    exists q out,
      later = Some q
      /\ fst (handleGetDebugOutput args' later) = Some out
      /\ DebugOutput.messages out = []
      /\ DebugOutput.total_buffered out = 0
      /\ DebugOutput.oldest_timestamp out = None.
Proof.
  intros parse args args' p ops Hclear later. subst later.
  assert (Hsnd : snd (handleGetDebugOutput args (Some p))
                 = Some (clearDebugMessages p)).
  { unfold handleGetDebugOutput. cbn [snd]. rewrite Hclear. reflexivity. }
  rewrite Hsnd. cbn [option_map].
  set (q := fold_left (perform parse) ops (clearDebugMessages p)).
  assert (Hq : GodotProcess.rebound q = Some []).
  { subst q. assert (H0 : GodotProcess.rebound (clearDebugMessages p) = Some [])
      by reflexivity.
    revert H0. generalize (clearDebugMessages p).
    induction ops as [|op ops IH]; intros p0 H0; simpl; [exact H0|].
    apply IH, perform_rebound, H0. }
  exists q. unfold handleGetDebugOutput, shownDebugMessages. rewrite Hq.
  eexists. split; [reflexivity|]. split; [reflexivity|].
  cbn [DebugOutput.messages DebugOutput.total_buffered
       DebugOutput.oldest_timestamp length].
  repeat split.
  destruct (DebugOutputArgs.sinceTimestamp args'); cbn [List.filter];
    destruct (bool_decide _); cbn [List.filter length Z.of_nat];
    destruct (_ <? _)%Z; reflexivity.
Qed.

Definition readAndClear : DebugOutputArgs.t :=
  {| DebugOutputArgs.sinceTimestamp := None;
     DebugOutputArgs.category := None;
     DebugOutputArgs.limit := None;
     DebugOutputArgs.clearAfterRead := Some true |}.

Definition readAll : DebugOutputArgs.t :=
  {| DebugOutputArgs.sinceTimestamp := None;
     DebugOutputArgs.category := None;
     DebugOutputArgs.limit := None;
     DebugOutputArgs.clearAfterRead := None |}.

Definition anyStderr (now : Z) (line : jsstring) : DebugMessage.t :=
  {| DebugMessage.timestamp := now; DebugMessage.category := cat_error;
     DebugMessage.message := trim line; DebugMessage.source := js "stderr" |}.

(** A process that prints "ready" after the buffer was read and cleared:
    the handlers' array holds the message, the tool shows none. *)
Lemma cleared_debug_output_stays_empty_witness :
  exists q out,
    option_map (fun q => fold_left (perform anyStderr)
                           [Stdout 5%Z (js "ready")] q)
      (snd (handleGetDebugOutput readAndClear (Some spawned))) = Some q
    /\ fst (handleGetDebugOutput readAll
              (option_map (fun q => fold_left (perform anyStderr)
                                      [Stdout 5%Z (js "ready")] q)
                 (snd (handleGetDebugOutput readAndClear (Some spawned)))))
       = Some out
    /\ DebugOutput.messages out = []
    /\ DebugOutput.total_buffered out = 0
    /\ DebugOutput.oldest_timestamp out = None.
Proof.
  apply (cleared_debug_output_stays_empty anyStderr readAndClear readAll
           spawned [Stdout 5%Z (js "ready")]).
  reflexivity.
Defined.

(** What the two filters of [get_debug_output] let through. *)
Definition selected (args : DebugOutputArgs.t) (msg : DebugMessage.t) : bool :=
  match DebugOutputArgs.sinceTimestamp args with
  | Some ts => (ts <? DebugMessage.timestamp msg)%Z
  | None => true
  end
  && (bool_decide (default (js "all") (DebugOutputArgs.category args)
                   = js "all")
      || bool_decide (categoryName (DebugMessage.category msg)
                      = default (js "all") (DebugOutputArgs.category args))).

Lemma filter_filter {A} (f g : A -> bool) l :
  List.filter g (List.filter f l) = List.filter (fun x => f x && g x) l.
Proof.
  induction l as [|x l IH]; simpl; [reflexivity|].
  destruct (f x); simpl; [destruct (g x)|]; rewrite ?IH; reflexivity.
Qed.

Lemma filter_true {A} (l : list A) : List.filter (fun _ => true) l = l.
Proof. induction l as [|x l IH]; simpl; [|rewrite IH]; reflexivity. Qed.

Lemma filter_ext_eq {A} (f g : A -> bool) l :
  (forall x, f x = g x) -> List.filter f l = List.filter g l.
Proof.
  intros H. induction l as [|x l IH]; simpl; [reflexivity|].
  rewrite H, IH. reflexivity.
Qed.

(** X3. [get_debug_output] answers with the most recent messages among
    those that pass its filters: with [n] the limit clamped to 1..1000
    (100 when none is given), it returns the last [n] matching messages of
    the buffer, in buffer order, or all of them when there are fewer; a
    limit of 0 or less still returns one message, and [total_buffered]
    counts the buffer before any filter. *)
Theorem debug_output_latest_within_limit :
  forall (args : DebugOutputArgs.t) (p : GodotProcess.t),
    let n := Z.to_nat
               (Z.min (Z.max (default 100%Z (DebugOutputArgs.limit args)) 1)
                  1000) in
    let category := default (js "all") (DebugOutputArgs.category args) in
    let buffered :=
      match GodotProcess.rebound p with
      | Some l => l
      | None => GodotProcess.debugMessages p
      end in
    let matching :=
      List.filter
        (fun msg =>
           match DebugOutputArgs.sinceTimestamp args with
           | Some ts => (ts <? DebugMessage.timestamp msg)%Z
           | None => true
           end
           && (bool_decide (category = js "all")
               || bool_decide
                    (categoryName (DebugMessage.category msg) = category)))
        buffered in
    exists out,
      fst (handleGetDebugOutput args (Some p)) = Some out
      /\ 1 <= n <= 1000
      /\ DebugOutput.messages out = drop (length matching - n) matching
      /\ length (DebugOutput.messages out) = Nat.min n (length matching)
      /\ DebugOutput.total_buffered out = length buffered.
Proof.
  intros args p n category buffered matching.
  change buffered with (shownDebugMessages p) in *.
  change (List.filter _ (shownDebugMessages p))
    with (List.filter (selected args) (shownDebugMessages p)) in matching.
  clear category buffered.
  unfold handleGetDebugOutput. cbn [fst]. eexists. split; [reflexivity|].
  cbn [DebugOutput.messages DebugOutput.total_buffered].
  assert (Hn : 1 <= n <= 1000) by (subst n; lia).
  split; [exact Hn|].
  set (filtered2 := if bool_decide _ then _ else _).
  assert (Hf : filtered2 = matching).
  { subst filtered2 matching. unfold selected.
    destruct (DebugOutputArgs.sinceTimestamp args) as [ts|];
      destruct (bool_decide (default (js "all") (DebugOutputArgs.category args)
                             = js "all")) eqn:Hall.
    - apply filter_ext_eq. intros x. rewrite andb_true_r. reflexivity.
    - rewrite filter_filter. apply filter_ext_eq. intros x. reflexivity.
    - symmetry. rewrite <- (filter_true (shownDebugMessages p)) at 2.
      apply filter_ext_eq. intros x. reflexivity.
    - apply filter_ext_eq. intros x. reflexivity. }
  rewrite Hf.
  assert (Hmsgs :
    (if (Z.min (Z.max (default 100%Z (DebugOutputArgs.limit args)) 1) 1000
         <? Z.of_nat (length matching))%Z
     then slice_last n matching else matching) = mostRecent n matching).
  { destruct (Z.ltb_spec
                (Z.min (Z.max (default 100%Z (DebugOutputArgs.limit args)) 1)
                   1000) (Z.of_nat (length matching))) as [Hlt|Hge].
    - reflexivity.
    - symmetry. apply mostRecent_short. subst n. lia. }
  fold n. rewrite Hmsgs. split; [reflexivity|].
  split; [apply mostRecent_length | reflexivity].
Qed.










End Readers.

(* ===================================================================== *)
(** * The client: calls, connection and session state                      *)
(* ===================================================================== *)

Section Client.
Import JS Regex Runtime DAP.

Ltac wcbn :=
  cbn [client promises calls timers jobs
       with_client with_promises with_calls with_timers with_jobs
       socket connected paused currentThreadId sequenceNumber
       pendingRequests buffer capabilities breakpoints
       set_socket set_connected set_paused set_currentThreadId
       set_sequenceNumber set_pendingRequests set_buffer set_capabilities
       set_breakpoints
       Pending.resolver Pending.command Timer.seq Timer.command Timer.reject
       Promise.outcome Promise.awaiter Socket.written
       DAPRequest.seq DAPRequest.command DAPRequest.arguments fst snd] in *.

Section Calls.
Import JS Regex Runtime DAP.
Local Open Scope Z_scope.


Definition notConnected : jsstring := js "Not connected to DAP server".

Lemma lookup_snoc {A} (l : list A) x : (l ++ [x]) !! length l = Some x.
Proof. apply list_lookup_middle. reflexivity. Qed.

Lemma insert_snoc {A} (l : list A) x y :
  <[length l := y]> (l ++ [x]) = l ++ [y].
Proof.
  rewrite insert_app_r_alt by lia. rewrite Nat.sub_diag. reflexivity.
Qed.

Lemma sendRequest_notConnected command args kont w :
  socket (client w) = None \/ connected (client w) = false ->
  sendRequest command args kont w
  = with_jobs (jobs w ++ [(kont, Rejected notConnected)])
      (with_promises
         (promises w ++ [{| Promise.outcome := Some (Rejected notConnected);
                            Promise.awaiter := kont |}]) w).
Proof.
  intros H. unfold sendRequest, newPromise. wcbn.
  assert (Hs : settle (length (promises w)) (Rejected notConnected)
                 (with_promises
                    (promises w ++ [{| Promise.outcome := None;
                                       Promise.awaiter := kont |}]) w)
               = with_jobs (jobs w ++ [(kont, Rejected notConnected)])
                   (with_promises
                      (promises w
                       ++ [{| Promise.outcome := Some (Rejected notConnected);
                              Promise.awaiter := kont |}]) w)).
  { unfold settle. wcbn. rewrite lookup_snoc, insert_snoc. reflexivity. }
  destruct (socket (client w)) as [sock|]; [|exact Hs].
  destruct (connected (client w)); [|exact Hs].
  destruct H; discriminate.
Qed.

(** X6. A method called while the client has no socket or is not connected
    sends nothing: the promise it returns is rejected with "Not connected
    to DAP server", no sequence number is used, nothing is written or
    registered as pending, and no timer is armed. *)
Theorem not_connected_request_fails :
  forall (parse : jsstring -> option Message) (w : World) (method : Call),
    jobs w = [] ->
    socket (client w) = None \/ connected (client w) = false ->
    let w' := step parse w (Invoke method) in
    client w' = client w
    /\ timers w' = timers w
    /\ calls w' = calls w ++ [Some (Thrown notConnected)]
    /\ promises w'
       = promises w
         ++ [{| Promise.outcome := Some (Rejected notConnected);
                Promise.awaiter := contOf method (length (calls w)) |}]
    /\ jobs w' = [].
Proof.
  intros parse w method Hjobs Hnc w'. subst w'.
  unfold step, handler.
  assert (Hinv : invoke method w
                 = with_jobs [(contOf method (length (calls w)),
                               Rejected notConnected)]
                     (with_promises
                        (promises w
                         ++ [{| Promise.outcome := Some (Rejected notConnected);
                                Promise.awaiter :=
                                  contOf method (length (calls w)) |}])
                        (with_calls (calls w ++ [None]) w))).
  { destruct method; unfold invoke, newCall; wcbn;
      rewrite sendRequest_notConnected by (wcbn; exact Hnc);
      wcbn; rewrite Hjobs; reflexivity. }
  rewrite Hinv. unfold runJobs. wcbn.
  cbn [length Nat.mul Nat.add drain]. wcbn.
  assert (Hjob : forall w0,
            calls w0 = calls w ++ [None] ->
            runJob (contOf method (length (calls w)), Rejected notConnected) w0
            = with_calls (calls w ++ [Some (Thrown notConnected)]) w0).
  { intros w0 Hc. destruct method; cbn [contOf runJob]; unfold conclude;
      rewrite Hc, lookup_snoc, insert_snoc; reflexivity. }
  match goal with
  | |- context [runJob ?j ?x] => rewrite (Hjob x eq_refl)
  end.
  wcbn. cbn [drain]. wcbn.
  repeat split; reflexivity.
Qed.

Lemma not_connected_request_fails_witness :
  calls (step noParse newWorld (Invoke GetThreads))
  = [Some (Thrown notConnected)]
  /\ client (step noParse newWorld (Invoke GetThreads)) = newClient.
Proof.
  destruct (not_connected_request_fails noParse newWorld GetThreads)
    as (Hc & _ & Hcalls & _).
  - reflexivity.
  - left. reflexivity.
  - split; [exact Hcalls | exact Hc].
Defined.

(** X7. In every state the client can reach, each entry of
    [pendingRequests] is a request in flight: its sequence number is below
    the counter, its promise is not settled, the timer armed for it is
    still there with the same promise and command, no other entry shares
    its promise, and no promise job is left to run. *)
Theorem pending_requests_are_in_flight :
  forall (parse : jsstring -> option Message) (w : World) (k : Z)
         (p : Pending.t),
    reachable parse w ->
    pendingRequests (client w) !! k = Some p ->
    k < sequenceNumber (client w)
    /\ (exists kont,
          promises w !! Pending.resolver p
          = Some {| Promise.outcome := None; Promise.awaiter := kont |})
    /\ (exists t, t ∈ timers w /\ Timer.seq t = k
                  /\ Timer.reject t = Pending.resolver p
                  /\ Timer.command t = Pending.command p)
    /\ (forall k' p', pendingRequests (client w) !! k' = Some p' ->
          Pending.resolver p' = Pending.resolver p -> k' = k)
    /\ jobs w = [].
Proof.
  intros parse w k p Hreach Hp.
  destruct (reachable_Inv parse w Hreach) as [HI Hjobs].
  destruct (inv_armed w HI k p Hp) as (t & Ht & Hseq).
  split; [rewrite <- Hseq; apply (inv_timer_seq w HI), Ht|].
  split; [apply (inv_pending w HI k p Hp)|].
  split.
  - exists t. rewrite <- Hseq in Hp.
    destruct (inv_timer w HI t p Ht Hp) as [Hr Hc]. auto.
  - split; [|exact Hjobs].
    intros k' p' Hp' Heq. exact (inv_inj w HI k' k p' p Hp' Hp Heq).
Qed.

Lemma pending_requests_are_in_flight_witness :
  let w := runEvents noParse newWorld
             [Connect; OnConnect; Invoke (Evaluate (js "hp") 0)] in
  1 < sequenceNumber (client w)
  /\ exists t, t ∈ timers w /\ Timer.seq t = 1
               /\ Timer.reject t = 0%nat
               /\ Timer.command t = js "evaluate".
Proof.
  intros w.
  destruct (pending_requests_are_in_flight noParse w 1
              {| Pending.resolver := 0; Pending.command := js "evaluate" |})
    as (Hk & _ & Ht & _).
  - exists [Connect; OnConnect; Invoke (Evaluate (js "hp") 0)]. reflexivity.
  - vm_compute. reflexivity.
  - split; [exact Hk | exact Ht].
Defined.

End Calls.

Section Written.
Import JS Regex Runtime DAP.
Local Open Scope Z_scope.

(** What has been written to the current socket: request frames whose
    sequence numbers grow, all below the counter. *)
Definition requestsWritten (w : World) (rs : list DAPRequest.t) : Prop :=
  match socket (client w) with
  | Some sock => Socket.written sock = map encodeRequest rs
  | None => rs = []
  end.

Definition wellNumbered (w : World) : Prop :=
  1 <= sequenceNumber (client w)
  /\ exists rs,
       requestsWritten w rs
       /\ StronglySorted Z.lt (map DAPRequest.seq rs)
       /\ Forall (fun r => 1 <= DAPRequest.seq r < sequenceNumber (client w)) rs.

Lemma wellNumbered_same w w' :
  socket (client w') = socket (client w) ->
  sequenceNumber (client w') = sequenceNumber (client w) ->
  wellNumbered w -> wellNumbered w'.
Proof.
  intros Hs Hn (H1 & rs & Hw & Hsorted & Hall).
  split; [rewrite Hn; exact H1|].
  exists rs. unfold requestsWritten in *. rewrite Hs, Hn. auto.
Qed.

Lemma wellNumbered_new : wellNumbered newWorld.
Proof.
  split; [cbn; lia|]. exists []. split; [reflexivity|]. split; constructor.
Qed.

Lemma StronglySorted_snoc (l : list Z) x :
  StronglySorted Z.lt l -> Forall (fun y => y < x) l ->
  StronglySorted Z.lt (l ++ [x]).
Proof.
  induction 1 as [|y l Hs IH Hy]; intros Hall; simpl.
  - repeat constructor.
  - inversion Hall as [|? ? Hyx Hl]; subst.
    constructor; [apply IH, Hl|].
    apply Forall_app. split; [exact Hy | repeat constructor; exact Hyx].
Qed.

Lemma settle_client' p o w : client (settle p o w) = client w.
Proof.
  unfold settle. destruct (promises w !! p) as [[[o'|] k]|]; reflexivity.
Qed.

Lemma conclude_client' c r w : client (conclude c r w) = client w.
Proof.
  unfold conclude. destruct (calls w !! c) as [[r'|]|]; reflexivity.
Qed.

Lemma wellNumbered_sendRequest command args kont w :
  wellNumbered w -> wellNumbered (sendRequest command args kont w).
Proof.
  intros HW. unfold sendRequest, newPromise.
  cbn [client with_promises].
  destruct (socket (client w)) as [sock|] eqn:Hsock;
    [destruct (connected (client w)) eqn:Hconn|].
  - destruct HW as (H1 & rs & Hw & Hsorted & Hall).
    unfold requestsWritten in Hw. rewrite Hsock in Hw.
    split; [wcbn; lia|].
    exists (rs ++ [{| DAPRequest.seq := sequenceNumber (client w);
                      DAPRequest.command := command;
                      DAPRequest.arguments := args |}]).
    split; [|split].
    + unfold requestsWritten. wcbn. rewrite Hw, map_app. reflexivity.
    + rewrite map_app. apply StronglySorted_snoc; [exact Hsorted|].
      apply Forall_map. eapply Forall_impl; [exact Hall|].
      intros r Hr. cbn beta in *. wcbn. lia.
    + wcbn. apply Forall_app. split.
      * eapply Forall_impl; [exact Hall|]. intros r Hr. cbn beta in *. lia.
      * constructor; [|constructor]. wcbn. lia.
  - eapply wellNumbered_same; [| |exact HW]; rewrite settle_client';
      reflexivity.
  - eapply wellNumbered_same; [| |exact HW]; rewrite settle_client';
      reflexivity.
Qed.

Lemma handleEvent_socket e c :
  socket (handleEvent e c) = socket c
  /\ sequenceNumber (handleEvent e c) = sequenceNumber c.
Proof.
  unfold handleEvent.
  repeat match goal with
         | |- context [bool_decide ?P] => destruct (bool_decide P)
         | |- context [match ?x with _ => _ end] => destruct x
         end; split; reflexivity.
Qed.

Lemma wellNumbered_handleMessage m w :
  wellNumbered w -> wellNumbered (handleMessage m w).
Proof.
  intros HW. destruct m as [r|r|e|]; cbn [handleMessage]; try exact HW.
  - destruct (pendingRequests (client w) !! DAPResponse.request_seq r);
      [|exact HW].
    destruct (DAPResponse.success r);
      (eapply wellNumbered_same; [| |exact HW]); rewrite settle_client';
      reflexivity.
  - eapply wellNumbered_same; [| |exact HW]; cbn [client with_client];
      apply handleEvent_socket.
Qed.

Lemma wellNumbered_runJob j w : wellNumbered w -> wellNumbered (runJob j w).
Proof.
  intros HW. destruct j as [[call|call|sourcePath call|call|call] [r|e]];
    cbn [runJob];
    try (eapply wellNumbered_same; [| |exact HW]; rewrite conclude_client';
         reflexivity).
  - apply wellNumbered_sendRequest.
    destruct (DAPResponse.success r), (DAPResponse.body r); exact HW.
  - destruct (DAPResponse.success r), (DAPResponse.body r);
      (eapply wellNumbered_same; [| |exact HW]); rewrite conclude_client';
      reflexivity.
Qed.

Lemma wellNumbered_drain fuel : forall w,
  wellNumbered w -> wellNumbered (drain fuel w).
Proof.
  induction fuel as [|fuel IH]; intros w HW; cbn [drain]; [exact HW|].
  destruct (jobs w) as [|j rest] eqn:Hj; [exact HW|].
  apply IH, wellNumbered_runJob.
  eapply wellNumbered_same; [| |exact HW]; reflexivity.
Qed.

Lemma wellNumbered_handler parse e w :
  wellNumbered w -> wellNumbered (handler parse e w).
Proof.
  intros HW. destruct e as [method| | |data| | | |seq]; cbn [handler].
  - destruct method; unfold invoke, newCall; cbn [fst snd];
      apply wellNumbered_sendRequest;
      (eapply wellNumbered_same; [| |exact HW]); reflexivity.
  - destruct HW as (H1 & _). split; [exact H1|].
    exists []. split; [reflexivity|]. split; constructor.
  - eapply wellNumbered_same; [| |exact HW]; reflexivity.
  - unfold handleData, decode.
    pose proof (decodeLoop_keeps parse handleMessage wellNumbered
                  wellNumbered_handleMessage
                  (S (length (buffer (client w) ++ utf8Decode data)))
                  (buffer (client w) ++ utf8Decode data) w HW) as Hk.
    destruct (decodeLoop parse handleMessage _ _ w) as [buf w1].
    cbn [snd] in Hk.
    eapply wellNumbered_same; [| |exact Hk]; reflexivity.
  - destruct HW as (H1 & _). split; [exact H1|].
    exists []. split; [reflexivity|]. split; constructor.
  - eapply wellNumbered_same; [| |exact HW]; reflexivity.
  - destruct (socket (client w)) eqn:Hs.
    + destruct HW as (H1 & _).
      unfold wellNumbered, requestsWritten, disconnect. wcbn. rewrite Hs.
      wcbn. split; [exact H1|].
      exists []. split; [reflexivity|]. split; constructor.
    + eapply wellNumbered_same; [| |exact HW]; unfold disconnect; wcbn;
        rewrite Hs; wcbn; first [reflexivity | exact Hs].
  - destruct (takeTimer seq (timers w)) as [[t rest]|]; [|exact HW].
    unfold onTimeout. cbn [client with_timers].
    destruct (pendingRequests (client w) !! Timer.seq t).
    + eapply wellNumbered_same; [| |exact HW]; rewrite settle_client';
        reflexivity.
    + eapply wellNumbered_same; [| |exact HW]; reflexivity.
Qed.

Lemma wellNumbered_run parse es : forall w,
  wellNumbered w -> wellNumbered (runEvents parse w es).
Proof.
  induction es as [|e es IH]; intros w HW; [exact HW|].
  cbn [runEvents fold_left]. apply IH.
  unfold step, runJobs. apply wellNumbered_drain, wellNumbered_handler, HW.
Qed.

(** X8. Whatever the client has done, what it has written to its current
    socket is a sequence of request frames whose sequence numbers strictly
    increase in the order written, start at 1 or above and are all below
    the counter: no sequence number is ever sent twice on a connection. *)
Theorem written_sequence_numbers_increase :
  forall (parse : jsstring -> option Message) (w : World) (sock : Socket.t),
    reachable parse w ->
    socket (client w) = Some sock ->
    exists rs : list DAPRequest.t,
      Socket.written sock = map encodeRequest rs
      /\ StronglySorted Z.lt (map DAPRequest.seq rs)
      /\ NoDup (map DAPRequest.seq rs)
      /\ Forall (fun r => 1 <= DAPRequest.seq r < sequenceNumber (client w)) rs.
Proof.
  intros parse w sock [es ->] Hsock.
  destruct (wellNumbered_run parse es newWorld wellNumbered_new)
    as (_ & rs & Hw & Hsorted & Hall).
  unfold requestsWritten in Hw. rewrite Hsock in Hw.
  exists rs. repeat split; try assumption.
  clear -Hsorted. induction Hsorted as [|x l Hs IH Hx]; constructor.
  - intros Hin. rewrite Forall_forall in Hx. specialize (Hx x Hin). lia.
  - exact IH.
Qed.

Definition twoRequests : World :=
  runEvents noParse newWorld
    [Connect; OnConnect; Invoke GetThreads; Invoke GetThreads].

Lemma written_sequence_numbers_increase_witness :
  exists rs : list DAPRequest.t,
    Socket.written
      {| Socket.written :=
           [encodeRequest {| DAPRequest.seq := 1;
                             DAPRequest.command := js "threads";
                             DAPRequest.arguments := JObj [] |};
            encodeRequest {| DAPRequest.seq := 2;
                             DAPRequest.command := js "threads";
                             DAPRequest.arguments := JObj [] |}] |}
    = map encodeRequest rs
    /\ StronglySorted Z.lt (map DAPRequest.seq rs)
    /\ NoDup (map DAPRequest.seq rs)
    /\ Forall (fun r => 1 <= DAPRequest.seq r
                        < sequenceNumber (client twoRequests)) rs.
Proof.
  apply (written_sequence_numbers_increase noParse twoRequests).
  - eexists. reflexivity.
  - vm_compute. reflexivity.
Defined.

End Written.

Section SessionState.
Import JS Regex Runtime DAP.
Local Open Scope Z_scope.

(** The events of a chunk, handled one after the other. *)
Definition handleEvents (es : list DAPEvent.t) (c : DAPClient) : DAPClient :=
  fold_left (fun c e => handleEvent e c) es c.

(** The events that set or reset [paused]. *)
Definition runControl (e : DAPEvent.t) : Prop :=
  DAPEvent.event e = js "stopped" \/ DAPEvent.event e = js "continued"
  \/ DAPEvent.event e = js "terminated".

Lemma handleEvent_other e c : ~ runControl e -> handleEvent e c = c.
Proof.
  intros H. unfold handleEvent, runControl in *.
  rewrite !bool_decide_eq_false_2 by tauto. reflexivity.
Qed.

Lemma handleEvents_other es : forall c,
  Forall (fun e => ~ runControl e) es -> handleEvents es c = c.
Proof.
  induction es as [|e es IH]; intros c H; [reflexivity|].
  inversion H as [|? ? He Hes]; subst. unfold handleEvents in *.
  cbn [fold_left]. rewrite handleEvent_other by exact He. apply IH, Hes.
Qed.

Lemma handleEvents_app es1 es2 c :
  handleEvents (es1 ++ es2) c = handleEvents es2 (handleEvents es1 c).
Proof. unfold handleEvents. apply fold_left_app. Qed.

Lemma handleEvent_frame e c :
  socket (handleEvent e c) = socket c
  /\ connected (handleEvent e c) = connected c
  /\ sequenceNumber (handleEvent e c) = sequenceNumber c
  /\ pendingRequests (handleEvent e c) = pendingRequests c
  /\ buffer (handleEvent e c) = buffer c
  /\ capabilities (handleEvent e c) = capabilities c
  /\ breakpoints (handleEvent e c) = breakpoints c.
Proof.
  unfold handleEvent.
  repeat match goal with
         | |- context [bool_decide ?P] => destruct (bool_decide P)
         | |- context [match ?x with _ => _ end] => destruct x
         end; repeat split; reflexivity.
Qed.

(** X9. [paused] tells whether the last "stopped", "continued" or
    "terminated" event received was a "stopped": after such an event,
    followed by any events of other kinds ("output", "breakpoint", unknown
    ones), the client is paused exactly when the event was "stopped"; and
    no event changes the socket, the connection flag, the sequence counter,
    the pending requests, the buffer, the capabilities or the breakpoint
    registry. *)
Theorem paused_follows_events :
  forall (c : DAPClient) (before after : list DAPEvent.t) (e : DAPEvent.t),
    runControl e ->
    Forall (fun x => ~ runControl x) after ->
    let c' := handleEvents (before ++ e :: after) c in
    paused c' = bool_decide (DAPEvent.event e = js "stopped")
    /\ socket c' = socket c
    /\ connected c' = connected c
    /\ sequenceNumber c' = sequenceNumber c
    /\ pendingRequests c' = pendingRequests c
    /\ buffer c' = buffer c
    /\ capabilities c' = capabilities c
    /\ breakpoints c' = breakpoints c.
Proof.
  intros c before after e He Hafter c'. subst c'.
  split.
  - change (e :: after) with ([e] ++ after).
    rewrite !handleEvents_app, (handleEvents_other after) by exact Hafter.
    unfold handleEvents at 1. cbn [fold_left]. unfold handleEvent.
    destruct He as [He|[He|He]]; rewrite He.
    + rewrite bool_decide_eq_true_2 by reflexivity.
      destruct (DAPEvent.body e) as [[[t|]]|]; cbn [EventBody.threadId];
        try reflexivity.
      destruct (t =? 0); reflexivity.
    + reflexivity.
    + reflexivity.
  - generalize (before ++ e :: after). intros es. revert c.
    induction es as [|x es IH]; intros c; [repeat split|].
    unfold handleEvents in *. cbn [fold_left].
    destruct (IH (handleEvent x c)) as (H1 & H2 & H3 & H4 & H5 & H6 & H7).
    destruct (handleEvent_frame x c) as (F1 & F2 & F3 & F4 & F5 & F6 & F7).
    rewrite H1, H2, H3, H4, H5, H6, H7. repeat split; assumption.
Qed.

Definition stoppedAt (threadId : option Z) : DAPEvent.t :=
  {| DAPEvent.seq := 4; DAPEvent.event := js "stopped";
     DAPEvent.body := Some {| EventBody.threadId := threadId |} |}.

Definition outputEvent : DAPEvent.t :=
  {| DAPEvent.seq := 5; DAPEvent.event := js "output";
     DAPEvent.body := None |}.

Lemma paused_follows_events_witness :
  paused (handleEvents ([terminated] ++ stoppedAt (Some 2) :: [outputEvent])
            newClient) = true
  /\ breakpoints (handleEvents
                    ([terminated] ++ stoppedAt (Some 2) :: [outputEvent])
                    storedClient)
     = breakpoints storedClient.
Proof.
  split.
  - apply (paused_follows_events newClient [terminated] [outputEvent]
             (stoppedAt (Some 2))).
    + left. reflexivity.
    + repeat constructor. intros [H|[H|H]]; vm_compute in H; discriminate.
  - apply (paused_follows_events storedClient [terminated] [outputEvent]
             (stoppedAt (Some 2))).
    + left. reflexivity.
    + repeat constructor. intros [H|[H|H]]; vm_compute in H; discriminate.
Defined.

(** A "stopped" event that names a thread: its body has a [threadId] that
    is not 0. *)
Definition namesThread (e : DAPEvent.t) (threadId : Z) : Prop :=
  DAPEvent.event e = js "stopped"
  /\ DAPEvent.body e = Some {| EventBody.threadId := Some threadId |}
  /\ threadId <> 0.

Lemma handleEvent_thread_kept e c :
  (forall t, ~ namesThread e t) ->
  currentThreadId (handleEvent e c) = currentThreadId c.
Proof.
  intros H. unfold handleEvent.
  destruct (bool_decide (DAPEvent.event e = js "stopped")) eqn:Hs.
  - apply bool_decide_eq_true_1 in Hs.
    destruct (DAPEvent.body e) as [[[t|]]|] eqn:Hb;
      cbn [EventBody.threadId]; try reflexivity.
    destruct (Z.eqb_spec t 0) as [Ht|Ht]; [reflexivity|].
    exfalso. apply (H t). repeat split; assumption.
  - repeat match goal with
           | |- context [bool_decide ?P] => destruct (bool_decide P)
           end; reflexivity.
Qed.

(** X10. The current thread id is the one named by the last "stopped"
    event that carried a thread id other than 0: such an event sets it, and
    the events after it that name no thread ("stopped" without a body or
    with thread id 0 or none, and the events of every other kind, also
    "continued" and "terminated") leave it as it is. *)
Theorem thread_follows_stopped_events :
  forall (c : DAPClient) (before after : list DAPEvent.t) (e : DAPEvent.t)
         (threadId : Z),
    namesThread e threadId ->
    Forall (fun x => forall t, ~ namesThread x t) after ->
    currentThreadId (handleEvents (before ++ e :: after) c) = threadId
    /\ currentThreadId (handleEvents after c) = currentThreadId c.
Proof.
  intros c before after e threadId (He & Hb & Ht) Hafter.
  assert (Hkeep : forall c0,
            currentThreadId (handleEvents after c0) = currentThreadId c0).
  { clear -Hafter. induction after as [|x after IH]; intros c0;
      [reflexivity|].
    inversion Hafter as [|? ? Hx Hrest]; subst.
    unfold handleEvents in *. cbn [fold_left].
    rewrite (IH Hrest). apply handleEvent_thread_kept, Hx. }
  split; [|apply Hkeep].
  change (e :: after) with ([e] ++ after).
  rewrite !handleEvents_app, Hkeep.
  unfold handleEvents at 1. cbn [fold_left]. unfold handleEvent.
  rewrite He, bool_decide_eq_true_2 by reflexivity. rewrite Hb.
  cbn [EventBody.threadId].
  destruct (Z.eqb_spec threadId 0) as [H0|H0]; [contradiction|reflexivity].
Qed.

Lemma thread_follows_stopped_events_witness :
  currentThreadId
    (handleEvents ([] ++ stoppedAt (Some 2) :: [stoppedAt (Some 0); terminated])
       newClient) = 2
  /\ currentThreadId (handleEvents [stoppedAt (Some 0); terminated] newClient)
     = currentThreadId newClient.
Proof.
  apply (thread_follows_stopped_events newClient []
           [stoppedAt (Some 0); terminated] (stoppedAt (Some 2)) 2).
  - repeat split. discriminate.
  - repeat constructor; intros t (H1 & H2 & H3).
    + injection H2 as H2. congruence.
    + vm_compute in H1. discriminate.
Defined.

End SessionState.

Section Connection.
Import JS Regex Runtime DAP.
Local Open Scope Z_scope.

(** X11. Losing or dropping the connection settles nothing: the close and
    error handlers of the socket, [disconnect()] and a new [connect()]
    leave every pending request registered, its promise unsettled and its
    timer armed (the request is rejected only when that timer fires); the
    sequence counter, the receive buffer, the capabilities and the
    breakpoint registry are not reset either. *)
Theorem connection_loss_settles_nothing :
  forall (parse : jsstring -> option Message) (w : World) (e : Event),
    jobs w = [] ->
    e ∈ [OnClose; OnError; Disconnect; Connect; OnConnect] ->
    let w' := step parse w e in
    pendingRequests (client w') = pendingRequests (client w)
    /\ promises w' = promises w
    /\ calls w' = calls w
    /\ timers w' = timers w
    /\ sequenceNumber (client w') = sequenceNumber (client w)
    /\ buffer (client w') = buffer (client w)
    /\ capabilities (client w') = capabilities (client w)
    /\ breakpoints (client w') = breakpoints (client w).
Proof.
  intros parse w e Hjobs He w'. subst w'.
  assert (Hstep : forall f, step parse w e = with_client f w ->
            pendingRequests (f (client w)) = pendingRequests (client w) ->
            sequenceNumber (f (client w)) = sequenceNumber (client w) ->
            buffer (f (client w)) = buffer (client w) ->
            capabilities (f (client w)) = capabilities (client w) ->
            breakpoints (f (client w)) = breakpoints (client w) ->
            pendingRequests (client (step parse w e))
            = pendingRequests (client w)
            /\ promises (step parse w e) = promises w
            /\ calls (step parse w e) = calls w
            /\ timers (step parse w e) = timers w
            /\ sequenceNumber (client (step parse w e))
               = sequenceNumber (client w)
            /\ buffer (client (step parse w e)) = buffer (client w)
            /\ capabilities (client (step parse w e)) = capabilities (client w)
            /\ breakpoints (client (step parse w e)) = breakpoints (client w)).
  { intros f -> ? ? ? ? ?. cbn [client with_client promises calls timers].
    repeat split; assumption. }
  assert (Hrun : forall f, step parse (w) e = runJobs (with_client f w) ->
                           step parse w e = with_client f w).
  { intros f ->. unfold runJobs. cbn [jobs with_client]. rewrite Hjobs.
    reflexivity. }
  repeat (apply elem_of_cons in He as [->|He]);
    [| | | | |apply elem_of_nil in He; contradiction].
  - apply (Hstep onClose); [apply Hrun|..]; reflexivity.
  - apply (Hstep onError); [apply Hrun|..]; reflexivity.
  - apply (Hstep disconnect); [apply Hrun; reflexivity|..];
      unfold disconnect; destruct (socket (client w)); reflexivity.
  - apply (Hstep openSocket); [apply Hrun|..]; reflexivity.
  - apply (Hstep onConnect); [apply Hrun|..]; reflexivity.
Qed.

Lemma connection_loss_settles_nothing_witness :
  pendingRequests (client (step noParse inFlight OnClose))
  = pendingRequests (client inFlight)
  /\ timers (step noParse inFlight OnClose) = timers inFlight.
Proof.
  destruct (connection_loss_settles_nothing noParse inFlight OnClose)
    as (Hp & _ & _ & Ht & _).
  - reflexivity.
  - apply list_elem_of_In. left. reflexivity.
  - split; [exact Hp | exact Ht].
Defined.

Lemma sendRequest_connected command args kont w sock :
  socket (client w) = Some sock -> connected (client w) = true ->
  sendRequest command args kont w
  = {| client :=
         set_socket
           (Some {| Socket.written :=
                      Socket.written sock
                      ++ [encodeRequest
                            {| DAPRequest.seq := sequenceNumber (client w);
                               DAPRequest.command := command;
                               DAPRequest.arguments := args |}] |})
           (set_pendingRequests
              (<[sequenceNumber (client w) :=
                   {| Pending.resolver := length (promises w);
                      Pending.command := command |}]>
                 (pendingRequests (client w)))
              (set_sequenceNumber (sequenceNumber (client w) + 1) (client w)));
       promises := promises w ++ [awaiting kont];
       calls := calls w;
       timers := timers w
                 ++ [{| Timer.seq := sequenceNumber (client w);
                        Timer.command := command;
                        Timer.reject := length (promises w) |}];
       jobs := jobs w |}.
Proof.
  intros Hs Hc. unfold sendRequest, newPromise. wcbn. rewrite Hs, Hc.
  reflexivity.
Qed.

(** A response to a pending request, up to the promise job it queues. *)
Lemma handleMessage_settles r p kont w :
  jobs w = [] ->
  pendingRequests (client w) !! DAPResponse.request_seq r = Some p ->
  promises w !! Pending.resolver p = Some (awaiting kont) ->
  handleMessage (MsgResponse r) w
  = {| client :=
         set_pendingRequests
           (delete (DAPResponse.request_seq r) (pendingRequests (client w)))
           (client w);
       promises :=
         <[Pending.resolver p :=
             {| Promise.outcome := Some (settlement r);
                Promise.awaiter := kont |}]> (promises w);
       calls := calls w;
       timers := timers w;
       jobs := [(kont, settlement r)] |}.
Proof.
  intros Hj Hp Hq. unfold handleMessage, settlement. rewrite Hp.
  destruct (DAPResponse.success r); unfold settle; wcbn; rewrite Hq;
    unfold awaiting; wcbn; rewrite Hj; reflexivity.
Qed.

(** One promise job that queues no other. *)
Lemma runJobs_one j w :
  jobs (runJob j (with_jobs [] w)) = [] ->
  runJobs (with_jobs [j] w) = runJob j (with_jobs [] w).
Proof.
  intros H. unfold runJobs. wcbn. cbn [length Nat.mul Nat.add drain]. wcbn.
  change (with_jobs [] (with_jobs [j] w)) with (with_jobs [] w).
  rewrite H. reflexivity.
Qed.

Lemma conclude_open call r w :
  calls w !! call = Some None ->
  conclude call r w = with_calls (<[call := Some r]> (calls w)) w.
Proof. intros H. unfold conclude. rewrite H. reflexivity. Qed.

(** The text of the error a failed response is turned into: its message
    when it has a non-empty one, else "DAP request failed: " and the
    command. *)
Definition errorText (r : DAPResponse.t) : jsstring :=
  match DAPResponse.message r with
  | Some (c :: message) => c :: message
  | _ => js "DAP request failed: " ++ DAPResponse.command r
  end.

Lemma failureMessage_errorText r : failureMessage r = errorText r.
Proof.
  unfold failureMessage, errorText.
  destruct (DAPResponse.message r) as [[|c m]|]; reflexivity.
Qed.

(** X12. [initialize()] is a handshake of two requests.  When the answer
    to "initialize" succeeds, its body (if it has one) becomes the cached
    capabilities and "configurationDone" is sent under the next sequence
    number, the call still being open; the answer to that second request
    then ends the call: with the cached capabilities when it succeeds,
    with its error when it fails, the capabilities staying cached either
    way.  When the answer to "initialize" fails, the call throws that
    error, nothing is cached and "configurationDone" is never sent. *)
Theorem initialize_handshake :
  forall (w : World) (sock : Socket.t) (k : Z) (p : Pending.t) (call : nat)
         (r1 : DAPResponse.t),
    jobs w = [] ->
    socket (client w) = Some sock ->
    connected (client w) = true ->
    pendingRequests (client w) !! k = Some p ->
    promises w !! Pending.resolver p = Some (awaiting (KInitialize call)) ->
    calls w !! call = Some None ->
    DAPResponse.request_seq r1 = k ->
    let n := sequenceNumber (client w) in
    let w1 := receive (MsgResponse r1) w in
    (DAPResponse.success r1 = true ->
       capabilities (client w1)
       = match DAPResponse.body r1 with
         | Some body => Some body
         | None => capabilities (client w)
         end
       /\ socket (client w1)
          = Some {| Socket.written :=
                      Socket.written sock
                      ++ [encodeRequest
                            {| DAPRequest.seq := n;
                               DAPRequest.command := js "configurationDone";
                               DAPRequest.arguments := JObj [] |}] |}
       /\ sequenceNumber (client w1) = n + 1
       /\ calls w1 !! call = Some None
       /\ forall r2 : DAPResponse.t,
            DAPResponse.request_seq r2 = n ->
            let w2 := receive (MsgResponse r2) w1 in
            calls w2 !! call
            = Some (Some (if DAPResponse.success r2
                          then Returned
                                 (VCapabilities (capabilities (client w1)))
                          else Thrown (errorText r2)))
            /\ capabilities (client w2) = capabilities (client w1))
    /\ (DAPResponse.success r1 = false ->
          calls w1 !! call = Some (Some (Thrown (errorText r1)))
          /\ capabilities (client w1) = capabilities (client w)
          /\ socket (client w1) = Some sock
          /\ sequenceNumber (client w1) = n).
Proof.
  intros w sock k p call r1 Hjobs Hsock Hconn Hpend Hinner Hcall Hk n w1.
  pose proof (lookup_lt_Some _ _ _ Hcall) as Hlt.
  subst k. subst w1 n. unfold receive.
  setoid_rewrite <- failureMessage_errorText.
  rewrite (handleMessage_settles r1 p (KInitialize call) w Hjobs Hpend Hinner).
  set (q := Pending.resolver p) in *.
  set (ps := <[q := {| Promise.outcome := Some (settlement r1);
                       Promise.awaiter := KInitialize call |}]> (promises w)).
  assert (Hps : length ps = length (promises w))
    by (unfold ps; apply length_insert).
  split.
  - intros Hok. unfold settlement. rewrite Hok.
    set (c1 := match DAPResponse.body r1 with
               | Some body => set_capabilities (Some body)
               | None => fun c => c
               end
                 (set_pendingRequests
                    (delete (DAPResponse.request_seq r1)
                       (pendingRequests (client w))) (client w))).
    assert (Hc1 : socket c1 = Some sock /\ connected c1 = true
                  /\ sequenceNumber c1 = sequenceNumber (client w)
                  /\ capabilities c1
                     = match DAPResponse.body r1 with
                       | Some body => Some body
                       | None => capabilities (client w)
                       end).
    { unfold c1. destruct (DAPResponse.body r1); wcbn; auto. }
    destruct Hc1 as (Hs1 & Hn1 & Hq1 & Hcap1).
    set (W := {| client := c1; promises := ps; calls := calls w;
                 timers := timers w; jobs := [] |}).
    assert (Hjob : runJob (KInitialize call, Resolved r1)
                     (with_jobs []
                        {| client :=
                             set_pendingRequests
                               (delete (DAPResponse.request_seq r1)
                                  (pendingRequests (client w))) (client w);
                           promises := ps; calls := calls w;
                           timers := timers w;
                           jobs := [(KInitialize call, Resolved r1)] |})
                   = sendRequest (js "configurationDone") (JObj [])
                       (KConfigurationDone call) W).
    { cbn [runJob]. rewrite Hok. unfold W, c1.
      destruct (DAPResponse.body r1); reflexivity. }
    change {| client := ?c; promises := ?a; calls := ?b; timers := ?d;
              jobs := [?j] |}
      with (with_jobs [j] {| client := c; promises := a; calls := b;
                             timers := d; jobs := [j] |}).
    rewrite runJobs_one;
      rewrite Hjob, (sendRequest_connected _ _ _ W sock Hs1 Hn1);
      [|reflexivity].
    change (client W) with c1. change (promises W) with ps.
    change (calls W) with (calls w). change (timers W) with (timers w).
    change (jobs W) with (@nil (Cont * Outcome)).
    clear Hjob. clearbody c1 ps. clear W.
    wcbn. rewrite Hq1, Hps.
    split; [exact Hcap1|]. split; [reflexivity|]. split; [reflexivity|].
    split; [exact Hcall|].
    intros r2 H2.
    match goal with
    | |- context [handleMessage (MsgResponse r2) ?X] => set (W1 := X)
    end.
    assert (Hp2 : pendingRequests (client W1) !! DAPResponse.request_seq r2
                  = Some {| Pending.resolver := length (promises w);
                            Pending.command := js "configurationDone" |}).
    { unfold W1. wcbn. rewrite H2. apply lookup_insert_eq. }
    assert (Hq2 : promises W1 !! length (promises w)
                  = Some (awaiting (KConfigurationDone call))).
    { unfold W1. wcbn. rewrite <- Hps. apply lookup_snoc. }
    rewrite (handleMessage_settles r2 _ (KConfigurationDone call) W1
               eq_refl Hp2 Hq2).
    change {| client := ?c; promises := ?a; calls := ?b; timers := ?d;
              jobs := [?j] |}
      with (with_jobs [j] {| client := c; promises := a; calls := b;
                             timers := d; jobs := [j] |}).
    assert (Hcalls1 : calls W1 !! call = Some None) by exact Hcall.
    unfold settlement.
    destruct (DAPResponse.success r2);
      (rewrite runJobs_one; cbn [runJob];
       rewrite conclude_open by exact Hcalls1; [|reflexivity]);
      wcbn; (split; [apply list_lookup_insert_eq; exact Hlt|]);
      reflexivity.
  - intros Hfail. unfold settlement. rewrite Hfail.
    change {| client := ?c; promises := ?a; calls := ?b; timers := ?d;
              jobs := [?j] |}
      with (with_jobs [j] {| client := c; promises := a; calls := b;
                             timers := d; jobs := [j] |}).
    rewrite runJobs_one; cbn [runJob];
      rewrite conclude_open by exact Hcall; [|reflexivity].
    wcbn. split; [apply list_lookup_insert_eq; exact Hlt|].
    split; [reflexivity|]. split; [exact Hsock | reflexivity].
Qed.

Definition initializing : World :=
  step noParse connectedWorld (Invoke Initialize).

Definition initialized : DAPResponse.t :=
  {| DAPResponse.seq := 1; DAPResponse.request_seq := 1;
     DAPResponse.success := true; DAPResponse.command := js "initialize";
     DAPResponse.body := Some someCapabilities;
     DAPResponse.message := None |}.

Definition configured : DAPResponse.t :=
  {| DAPResponse.seq := 2; DAPResponse.request_seq := 2;
     DAPResponse.success := true;
     DAPResponse.command := js "configurationDone";
     DAPResponse.body := None; DAPResponse.message := None |}.

Lemma initialize_handshake_witness :
  capabilities (client (receive (MsgResponse initialized) initializing))
  = Some someCapabilities
  /\ calls (receive (MsgResponse configured)
              (receive (MsgResponse initialized) initializing)) !! 0%nat
     = Some (Some (Returned (VCapabilities (Some someCapabilities)))).
Proof.
  destruct (initialize_handshake initializing {| Socket.written :=
              [encodeRequest
                 {| DAPRequest.seq := 1; DAPRequest.command := js "initialize";
                    DAPRequest.arguments :=
                      JObj [(js "clientID", JStr (js "godot-mcp"));
                            (js "clientName", JStr (js "Godot MCP Server"));
                            (js "adapterID", JStr (js "godot"));
                            (js "linesStartAt1", JBool true);
                            (js "columnsStartAt1", JBool true);
                            (js "pathFormat", JStr (js "path"));
                            (js "supportsVariableType", JBool true)] |}] |}
              1 {| Pending.resolver := 0; Pending.command := js "initialize" |}
              0%nat initialized) as [Hok _];
    try (vm_compute; reflexivity).
  destruct (Hok eq_refl) as (Hcap & _ & _ & _ & Hdone).
  split; [exact Hcap|].
  destruct (Hdone configured eq_refl) as [Hcall _].
  rewrite Hcall, Hcap. reflexivity.
Defined.

End Connection.

End Client.

(* ===================================================================== *)
(** * The frame decoder on a stream of frames                              *)
(* ===================================================================== *)

Section Stream.
Import JS Regex Runtime DAP.
Local Open Scope nat_scope.

(** Frames written one after the other, each as [sendRequest] frames its
    message. *)
Definition stream (texts : list jsstring) : jsstring :=
  concat (map frame texts).

Lemma frame_ascii message : ascii message -> ascii (frame message).
Proof.
  intros H. rewrite frame_header. apply Forall_app. split; [apply header_ascii|].
  apply Forall_app. split; [repeat constructor | exact H].
Qed.

Lemma frame_length message : 4 <= length (frame message).
Proof.
  rewrite frame_header, !length_app. change (length CRLFCRLF) with 4. lia.
Qed.

Lemma stream_ascii texts : Forall ascii texts -> ascii (stream texts).
Proof.
  induction 1 as [|t texts Ht _ IH]; [constructor|].
  unfold stream. cbn [map concat]. apply Forall_app. split.
  - apply frame_ascii, Ht.
  - exact IH.
Qed.

(** What is left of the buffer when the loop stops: nothing, or the
    beginning of a frame that is not complete. *)
Definition partial (tl : jsstring) (texts : list jsstring) : Prop :=
  tl = []
  \/ exists t rest k, texts = t :: rest /\ tl = take k (frame t)
                      /\ k < length (frame t).

Lemma decodeLoop_nil {W} parse (handle : Message -> W -> W) fuel w :
  decodeLoop parse handle fuel [] w = ([], w).
Proof. destruct fuel; reflexivity. Qed.

(** One call of the loop on complete frames followed by the beginning of
    another one. *)
Lemma decodeLoop_stream parse texts : forall fuel log tl after,
  Forall ascii texts ->
  Forall ascii after ->
  partial tl after ->
  length (stream texts ++ tl) < fuel ->
  decodeLoop parse collect fuel (stream texts ++ tl) log
  = (tl, log ++ omap parse texts).
Proof.
  induction texts as [|t texts IH]; intros fuel log tl after Hascii Hafter Htl Hfuel.
  - cbn [stream map concat app omap]. rewrite app_nil_r.
    destruct Htl as [->|(t & rest & k & -> & -> & Hk)].
    + apply decodeLoop_nil.
    + inversion Hafter; subst. apply decodeLoop_incomplete; assumption.
  - inversion Hascii as [|? ? Ht Htexts]; subst.
    destruct fuel as [|fuel]; [lia|].
    unfold stream in *. cbn [map concat] in *.
    rewrite <- app_assoc in *. rewrite frame_header in *.
    rewrite byteLength_ascii in * by exact Ht.
    rewrite <- !app_assoc in *.
    rewrite decodeLoop_framed. rewrite Nat2N.id.
    rewrite !length_app in Hfuel. change (length CRLFCRLF) with 4 in Hfuel.
    destruct (Nat.ltb_spec (length (t ++ concat (map frame texts) ++ tl))
                (length t)) as [Hshort|Hlong].
    { rewrite length_app in Hshort. lia. }
    rewrite take_app_length, drop_app_length.
    change (omap parse (t :: texts))
      with (match parse t with
            | Some y => y :: omap parse texts
            | None => omap parse texts
            end).
    destruct (parse t) as [m|].
    + rewrite (IH fuel (collect m log) tl after Htexts Hafter Htl)
        by (rewrite length_app; lia).
      unfold collect. rewrite <- app_assoc. reflexivity.
    + rewrite (IH fuel log tl after Htexts Hafter Htl)
        by (rewrite length_app; lia).
      reflexivity.
Qed.

(** A prefix of a stream: some complete frames, then the beginning of the
    next one. *)
Lemma stream_prefix texts : forall p q,
  p ++ q = stream texts ->
  exists done rest tl,
    texts = done ++ rest /\ p = stream done ++ tl /\ tl ++ q = stream rest
    /\ partial tl rest.
Proof.
  induction texts as [|t texts IH]; intros p q H.
  - unfold stream in H. cbn in H. apply app_eq_nil in H as [-> ->].
    exists [], [], []. repeat split. left. reflexivity.
  - unfold stream in H. cbn [map concat] in H. fold (stream texts) in H.
    destruct (Nat.lt_ge_cases (length p) (length (frame t))) as [Hlt|Hge].
    + exists [], (t :: texts), p. split; [reflexivity|].
      split; [reflexivity|]. split; [exact H|].
      right. exists t, texts, (length p). split; [reflexivity|].
      split; [|exact Hlt].
      apply (f_equal (take (length p))) in H.
      rewrite take_app_length in H.
      rewrite take_app_le in H by lia. exact H.
    + assert (Hp : p = frame t ++ drop (length (frame t)) p).
      { rewrite <- (take_drop (length (frame t)) p) at 1. f_equal.
        apply (f_equal (take (length (frame t)))) in H.
        rewrite take_app_le in H by exact Hge.
        rewrite take_app_length in H. exact H. }
      set (p' := drop (length (frame t)) p) in *.
      assert (H' : p' ++ q = stream texts).
      { rewrite Hp, <- app_assoc in H. apply app_inv_head in H. exact H. }
      destruct (IH p' q H') as (done & rest & tl & -> & Hp' & Hq & Htl).
      exists (t :: done), rest, tl. split; [reflexivity|].
      split; [|split; assumption].
      rewrite Hp, Hp'. unfold stream. cbn [map concat].
      rewrite <- app_assoc. reflexivity.
Qed.

Lemma stream_app a b : stream (a ++ b) = stream a ++ stream b.
Proof. unfold stream. rewrite map_app, concat_app. reflexivity. Qed.

Lemma feed_stream parse : forall chunks buf log rest,
  Forall ascii rest ->
  buf ++ concat chunks = stream rest ->
  partial buf rest ->
  fold_left (feed parse) chunks (buf, log) = ([], log ++ omap parse rest).
Proof.
  induction chunks as [|c cs IH]; intros buf log rest Hascii Hcat Hbuf.
  - cbn [concat fold_left] in *. rewrite app_nil_r in Hcat.
    destruct Hbuf as [->|(t & rest' & k & -> & -> & Hk)].
    + destruct rest as [|t rest].
      * rewrite app_nil_r. reflexivity.
      * exfalso. unfold stream in Hcat. cbn [map concat] in Hcat.
        apply (f_equal length) in Hcat. rewrite length_app in Hcat.
        pose proof (frame_length t). cbn [length] in Hcat. lia.
    + exfalso. unfold stream in Hcat. cbn [map concat] in Hcat.
      apply (f_equal length) in Hcat.
      rewrite length_app, length_take in Hcat. lia.
  - cbn [concat fold_left] in *.
    assert (Hall : ascii (buf ++ c ++ concat cs))
      by (rewrite Hcat; apply stream_ascii, Hascii).
    assert (Hc : ascii c).
    { apply Forall_app in Hall as [_ Hall].
      apply Forall_app in Hall as [Hall _]. exact Hall. }
    rewrite app_assoc in Hcat.
    destruct (stream_prefix rest (buf ++ c) (concat cs) Hcat)
      as (done & rest' & tl & -> & Hp & Hq & Htl).
    apply Forall_app in Hascii as [Hdone Hrest'].
    unfold feed at 2. cbn [fst snd]. unfold decode.
    rewrite utf8Decode_ascii by exact Hc. rewrite Hp.
    fold collect.
    rewrite (decodeLoop_stream parse done _ log tl rest' Hdone Hrest' Htl)
      by lia.
    rewrite (IH tl (log ++ omap parse done) rest' Hrest' Hq Htl).
    rewrite omap_app, app_assoc. reflexivity.
Qed.

(** X13. For traffic whose payloads are ASCII the decoder does not depend
    on how the bytes are cut into chunks: fed a sequence of frames (each a
    [Content-Length] header with the payload's length, a blank line and the
    payload) in any chunking, it hands to the message handler exactly the
    payloads that [JSON.parse] accepts, once each and in order; a payload
    that does not parse is dropped without disturbing the frames after it,
    and the buffer is empty at the end. *)
Theorem ascii_stream_decoded_in_any_chunking :
  forall (parse : jsstring -> option Message) (texts : list jsstring)
         (chunks : list (list N)),
    Forall (Forall (fun c => (c < 128)%N)) texts ->
    concat chunks
    = utf8Encode
        (concat
           (map (fun text =>
                   js "Content-Length: "
                   ++ toDecimal (N.of_nat (length text))
                   ++ [13; 10; 13; 10]%N ++ text) texts)) ->
    decodeChunks parse chunks = ([], omap parse texts).
Proof.
  intros parse texts chunks Hascii Hcat.
  assert (Hstream : concat
                      (map (fun text =>
                              js "Content-Length: "
                              ++ toDecimal (N.of_nat (length text))
                              ++ [13; 10; 13; 10]%N ++ text) texts)
                    = stream texts).
  { unfold stream. clear Hcat.
    induction Hascii as [|t texts Ht _ IH]; [reflexivity|].
    cbn [map concat]. rewrite IH. f_equal. unfold frame.
    rewrite byteLength_ascii by exact Ht. reflexivity. }
  rewrite Hstream in Hcat.
  rewrite utf8Encode_ascii in Hcat by (apply stream_ascii, Hascii).
  unfold decodeChunks.
  apply (feed_stream parse chunks [] [] texts Hascii Hcat).
  left. reflexivity.
Qed.

(** A parser that accepts one text only. *)
Definition onlyBraces (text : jsstring) : option Message :=
  if bool_decide (text = js "{}") then Some MsgOther else None.

(** Two frames, the first of which does not parse, cut in the middle of
    the second header: one message is handed over. *)
Lemma ascii_stream_decoded_in_any_chunking_witness :
  decodeChunks onlyBraces
    [js "Content-Length: 1" ++ [13; 10; 13; 10; 120]%N ++ js "Content-Le";
     js "ngth: 2" ++ [13; 10; 13; 10]%N ++ js "{}"]
  = ([], omap onlyBraces [js "x"; js "{}"]).
Proof.
  apply (ascii_stream_decoded_in_any_chunking onlyBraces [js "x"; js "{}"]).
  - repeat constructor.
  - vm_compute. reflexivity.
Defined.

(** X14. A header block without a [Content-Length] field is thrown away
    with the blank line that ends it, and the loop goes on with what
    follows: the buffer is then decoded as if it had started there. *)
Theorem header_without_length_is_skipped :
  forall (W : Type) (parse : jsstring -> option Message)
         (handle : Message -> W -> W) (junk rest : jsstring) (w : W),
    indexOf (junk ++ [13; 10; 13; 10]%N ++ rest) [13; 10; 13; 10]%N
    = Some (length junk) ->
    js_match junk contentLengthPattern = None ->
    decodeLoop parse handle
      (S (length (junk ++ [13; 10; 13; 10]%N ++ rest)))
      (junk ++ [13; 10; 13; 10]%N ++ rest) w
    = decodeLoop parse handle (S (length rest)) rest w.
Proof.
  intros W parse handle junk rest w Hidx Hno.
  transitivity (decodeLoop parse handle
                  (length (junk ++ [13; 10; 13; 10]%N ++ rest)) rest w).
  - cbn [decodeLoop]. change CRLFCRLF with [13; 10; 13; 10]%N.
    rewrite Hidx. unfold substring, substring_from.
    rewrite Nat.sub_0_r, drop_0, take_app_length, Hno.
    replace (drop (length junk + 4) (junk ++ [13; 10; 13; 10]%N ++ rest))
      with rest; [reflexivity|].
    rewrite drop_app_ge by lia.
    replace (length junk + 4 - length junk) with 4 by lia. reflexivity.
  - apply (decodeLoop_fuel parse handle (length rest)); try lia.
    rewrite !length_app. cbn [length]. lia.
Qed.

Lemma header_without_length_is_skipped_witness :
  decodeLoop probe collect
    (S (length (js "Content-Type: json" ++ [13; 10; 13; 10]%N
                ++ frame (js "{}"))))
    (js "Content-Type: json" ++ [13; 10; 13; 10]%N ++ frame (js "{}")) []
  = decodeLoop probe collect (S (length (frame (js "{}")))) (frame (js "{}")) [].
Proof.
  apply (header_without_length_is_skipped (list Message) probe collect
           (js "Content-Type: json") (frame (js "{}")) []).
  - vm_compute. reflexivity.
  - vm_compute. reflexivity.
Defined.




End Stream.

(* ===================================================================== *)
(** * Scope analyzer: the shape of the symbol table                        *)
(* ===================================================================== *)

Section Table.
Import JS Regex GDScript.
Local Open Scope Z_scope.

(** ** A starred class that cannot be followed *)

Lemma star_loop_class_none p (K : cont) : forall fuel s pos c,
  (forall j, (j <= length (take_while p s))%nat ->
             K (pos + j)%nat (drop j s) c = None) ->
  star_loop (run (Chr p)) K fuel pos s c = None.
Proof.
  induction fuel as [|fuel IH]; intros s pos c H.
  - cbn [star_loop]. specialize (H 0%nat). rewrite Nat.add_0_r in H.
    apply H. lia.
  - assert (H0 : K pos s c = None).
    { specialize (H 0%nat). rewrite Nat.add_0_r in H. apply H. lia. }
    cbn [star_loop]. rewrite run_Chr.
    destruct s as [|x s']; [exact H0|].
    destruct (p x) eqn:Hp; [|exact H0].
    replace (Nat.eqb (S pos) pos) with false
      by (symmetry; apply Nat.eqb_neq; lia).
    rewrite IH; [exact H0|].
    intros j Hj. specialize (H (S j)).
    replace (pos + S j)%nat with (S pos + j)%nat in H by lia.
    apply H. cbn [take_while]. rewrite Hp. cbn [length]. lia.
Qed.

(** A line with something else than white space is not matched by
    [/^\s*$/]. *)
Lemma blankPattern_none line :
  trimStart line <> [] -> matches line blankPattern = false.
Proof.
  intros H. unfold matches, blankPattern. cbn [Seqs].
  rewrite js_match_Bol, run_Seq.
  change (run (Star ws) 0%nat line [] ?k)
    with (star_loop (run (Chr is_space)) k (S (length line)) 0%nat line []).
  rewrite star_loop_class_none; [reflexivity|].
  intros j Hj. rewrite run_Eol.
  destruct (drop j line) as [|y rest] eqn:Hd; [|reflexivity].
  exfalso. apply H. unfold trimStart.
  pose proof (take_while_drop_while is_space line) as Hsplit.
  apply (f_equal length) in Hd. rewrite length_drop in Hd. cbn in Hd.
  apply (f_equal length) in Hsplit. rewrite length_app in Hsplit.
  apply length_zero_iff_nil. lia.
Qed.

(** ** The invariant of the scan *)

(** The variables recorded for a function, seen at line [hi]: the
    parameters in order, on its first line, then locals of later lines up
    to [hi]. *)
Definition bodyOf (hi : Z) (f : FunctionInfo.t) : Prop :=
  1 <= FunctionInfo.startLine f
  /\ exists locals,
       FunctionInfo.localVariables f
       = map (parameterVariable (FunctionInfo.startLine f))
           (FunctionInfo.parameters f) ++ locals
       /\ Forall (fun v => VariableInfo.scope v = local
                           /\ FunctionInfo.startLine f < VariableInfo.line v
                              <= hi) locals.

Lemma bodyOf_mono lo hi f : lo <= hi -> bodyOf lo f -> bodyOf hi f.
Proof.
  intros Hle (H1 & locals & Heq & Hall). split; [exact H1|].
  exists locals. split; [exact Heq|].
  eapply Forall_impl; [exact Hall|]. cbn. intros v (? & ?). split; [auto|lia].
Qed.

Lemma bodyOf_setEndLine hi e f : bodyOf hi f -> bodyOf hi (setEndLine e f).
Proof. intros H. exact H. Qed.

Lemma bodyOf_pushLocal hi f v :
  VariableInfo.scope v = local ->
  FunctionInfo.startLine f < VariableInfo.line v <= hi ->
  bodyOf hi f -> bodyOf hi (pushLocal v f).
Proof.
  intros Hs Hl (H1 & locals & Heq & Hall). split; [exact H1|].
  exists (locals ++ [v]). cbn [pushLocal FunctionInfo.localVariables
                                FunctionInfo.startLine FunctionInfo.parameters].
  rewrite Heq, app_assoc. split; [reflexivity|].
  apply Forall_app. split; [exact Hall|]. repeat constructor; tauto.
Qed.

Lemma bodyOf_scanLocal hi line cvs f :
  FunctionInfo.startLine f < hi ->
  bodyOf (hi - 1) f -> bodyOf hi (scanLocal hi line cvs f).
Proof.
  intros Hlt Hb. apply (bodyOf_mono (hi - 1) hi) in Hb; [|lia].
  unfold scanLocal.
  repeat match goal with
         | |- context [match ?x with _ => _ end] => destruct x
         | |- context [if ?x then _ else _] => destruct x
         end; try exact Hb; apply bodyOf_pushLocal; cbn; auto; lia.
Qed.

Record tableInv (i : Z) (st : Scan) : Prop := {
  t_indent : functionIndent st = 0%nat;
  t_funcs : forall f, f ∈ funcs st ->
      FunctionInfo.startLine f <= FunctionInfo.endLine f <= i
      /\ bodyOf (FunctionInfo.endLine f) f;
  t_current : forall f, currentFunction st = Some f ->
      FunctionInfo.startLine f <= i /\ bodyOf i f;
  t_class : forall v, v ∈ classVars st ->
      VariableInfo.scope v = class
      /\ 1 <= VariableInfo.line v <= i
      /\ (forall f, f ∈ funcs st ->
            ~ (FunctionInfo.startLine f <= VariableInfo.line v
               <= FunctionInfo.endLine f))
      /\ (forall f, currentFunction st = Some f ->
            VariableInfo.line v < FunctionInfo.startLine f);
}.

Lemma tableInv_start : tableInv 0 scanStart.
Proof.
  split; cbn; try reflexivity; try discriminate;
    intros x Hx; inversion Hx.
Qed.

(** Closing the current function at line [i]. *)
Lemma tableInv_close i st f :
  tableInv i st -> currentFunction st = Some f ->
  tableInv i {| currentFunction := None;
                functionIndent := functionIndent st;
                classVars := classVars st;
                funcs := funcs st ++ [setEndLine i f] |}.
Proof.
  intros [Hi Hf Hc Hv] Hcur. destruct (Hc f Hcur) as [Hs Hb].
  split; cbn [currentFunction functionIndent classVars funcs].
  - exact Hi.
  - intros g Hg. apply elem_of_app in Hg as [Hg|Hg]; [auto|].
    apply list_elem_of_singleton in Hg. subst g.
    cbn [setEndLine FunctionInfo.startLine FunctionInfo.endLine].
    split; [lia|]. exact Hb.
  - discriminate.
  - intros v Hin. destruct (Hv v Hin) as (H1 & H2 & H3 & H4).
    split; [exact H1|]. split; [exact H2|]. split; [|discriminate].
    intros g Hg. apply elem_of_app in Hg as [Hg|Hg]; [auto|].
    apply list_elem_of_singleton in Hg. subst g.
    cbn [setEndLine FunctionInfo.startLine FunctionInfo.endLine].
    specialize (H4 f Hcur). lia.
Qed.

Lemma tableInv_mono i j st : i <= j -> tableInv i st -> tableInv j st.
Proof.
  intros Hij [Hi Hf Hc Hv]. split.
  - exact Hi.
  - intros f Hin. destruct (Hf f Hin) as [? ?]. split; [lia|assumption].
  - intros f Hcur. destruct (Hc f Hcur) as [? ?].
    split; [lia|]. eapply bodyOf_mono; eassumption.
  - intros v Hin. destruct (Hv v Hin) as (H1 & H2 & H3 & H4).
    repeat split; auto; lia.
Qed.

Lemma funcPattern_indent line m :
  js_match line funcPattern = Some m ->
  (length line - length (trimStart line))%nat = 0%nat.
Proof.
  intros H. apply funcPattern_start in H as [rest ->].
  rewrite trimStart_func. lia.
Qed.

(** One round of the loop. *)
Lemma tableInv_scanLine (i : nat) line st :
  tableInv (Z.of_nat i) st ->
  tableInv (Z.of_nat (S i)) (scanLine i line st).
Proof.
  intros Hinv.
  assert (Hstep : Z.of_nat i <= Z.of_nat (S i)) by lia.
  unfold scanLine, scanBody, exitFunction.
  set (T := trimStart line).
  set (ci := (length line - length T)%nat).
  destruct (Nat.eqb (length T) 0) eqn:Hblank.
  { (* an empty line: nothing happens *)
    cbn [negb andb orb].
    destruct (currentFunction st); eapply tableInv_mono; eassumption. }
  destruct (isComment T) eqn:Hcomment.
  { cbn [negb andb orb].
    destruct (currentFunction st); eapply tableInv_mono; eassumption. }
  cbn [negb andb orb].
  assert (HT : T <> []).
  { intros E. rewrite E in Hblank. discriminate. }
  rewrite (blankPattern_none line HT). rewrite andb_true_r.
  rewrite (t_indent _ _ Hinv).
  (* the state after the exit check *)
  set (st1 := match currentFunction st with
              | Some f =>
                  if Nat.leb ci 0
                  then {| currentFunction := None;
                          functionIndent := 0%nat;
                          classVars := classVars st;
                          funcs := funcs st ++ [setEndLine (Z.of_nat i) f] |}
                  else st
              | None => st
              end).
  assert (Hinv1 : tableInv (Z.of_nat i) st1).
  { subst st1. destruct (currentFunction st) as [f|] eqn:Hcur; [|exact Hinv].
    destruct (Nat.leb ci 0); [|exact Hinv].
    pose proof (tableInv_close _ _ _ Hinv Hcur) as Hc.
    rewrite (t_indent _ _ Hinv) in Hc. exact Hc. }
  assert (Hexit : ci = 0%nat -> currentFunction st1 = None).
  { intros E. subst st1. destruct (currentFunction st) as [f|] eqn:Hcur;
      [|exact Hcur].
    rewrite E. reflexivity. }
  clearbody st1. clear Hinv. rename Hinv1 into Hinv.
  destruct (js_match line funcPattern) as [m|] eqn:Hfunc.
  - (* a function definition *)
    pose proof (funcPattern_indent _ _ Hfunc) as Hci. fold T ci in Hci.
    specialize (Hexit Hci). rewrite Hexit.
    destruct Hinv as [Hi Hf Hc Hv].
    split; cbn [currentFunction functionIndent classVars funcs].
    + exact Hci.
    + intros f Hin. destruct (Hf f Hin) as [? ?]. split; [lia|assumption].
    + intros f [= <-]. unfold bodyOf.
      cbn [openFunction FunctionInfo.startLine FunctionInfo.parameters
           FunctionInfo.localVariables].
      split; [lia|]. split; [lia|].
      exists []. rewrite app_nil_r. split; [reflexivity|constructor].
    + intros v Hin. destruct (Hv v Hin) as (H1 & H2 & H3 & H4).
      split; [exact H1|]. split; [lia|]. split; [exact H3|].
      intros f [= <-]. cbn [openFunction FunctionInfo.startLine]. lia.
  - destruct (Nat.eqb ci 0) eqn:Hci.
    + apply Nat.eqb_eq in Hci. specialize (Hexit Hci).
      destruct (js_match line classVarPattern) as [m|].
      * (* a class variable: no function is open *)
        destruct Hinv as [Hi Hf Hc Hv].
        split; cbn [currentFunction functionIndent classVars funcs].
        -- exact Hi.
        -- intros f Hin. destruct (Hf f Hin) as [? ?].
           split; [lia|assumption].
        -- intros f Hcur. rewrite Hexit in Hcur. discriminate.
        -- intros v Hin. apply elem_of_app in Hin as [Hin|Hin].
           ++ destruct (Hv v Hin) as (H1 & H2 & H3 & H4).
              repeat split; auto; lia.
           ++ apply list_elem_of_singleton in Hin. subst v.
              cbn [VariableInfo.scope VariableInfo.line].
              split; [reflexivity|]. split; [lia|]. split.
              ** intros f Hfin. destruct (Hf f Hfin) as [? ?]. lia.
              ** intros f Hcur. rewrite Hexit in Hcur. discriminate.
      * rewrite Hexit. eapply tableInv_mono; eassumption.
    + destruct (currentFunction st1) as [f|] eqn:Hcur;
        [|eapply tableInv_mono; eassumption].
      destruct Hinv as [Hi Hf Hc Hv]. destruct (Hc f Hcur) as [Hs Hb].
      split; cbn [currentFunction functionIndent classVars funcs].
      * exact Hi.
      * intros g Hin. destruct (Hf g Hin) as [? ?]. split; [lia|assumption].
      * intros f' [= <-]. rewrite scanLocal_startLine. split; [lia|].
        replace (Z.of_nat (S i)) with (Z.of_nat i + 1) by lia.
        apply bodyOf_scanLocal; [lia|].
        replace (Z.of_nat i + 1 - 1) with (Z.of_nat i) by lia. exact Hb.
      * intros v Hin. destruct (Hv v Hin) as (H1 & H2 & H3 & H4).
        split; [exact H1|]. split; [lia|]. split; [exact H3|].
        intros f' [= <-]. rewrite scanLocal_startLine. apply H4, Hcur.
Qed.

Lemma tableInv_scanLines lines : forall (i : nat) st,
  tableInv (Z.of_nat i) st ->
  tableInv (Z.of_nat (i + length lines)) (scanLines i lines st).
Proof.
  induction lines as [|line lines IH]; intros i st Hinv.
  - simpl. rewrite Nat.add_0_r. exact Hinv.
  - cbn [scanLines length].
    replace (i + S (length lines))%nat with (S i + length lines)%nat by lia.
    apply IH, tableInv_scanLine, Hinv.
Qed.

(** The table of a parsed script. *)
Lemma parsed_table content :
  let n := Z.of_nat (length (split_on 10 content)) in
  let info := parseGDScriptContent content in
  (forall f, f ∈ functions info ->
     FunctionInfo.startLine f <= FunctionInfo.endLine f <= n
     /\ bodyOf (FunctionInfo.endLine f) f)
  /\ (forall v, v ∈ classVariables info ->
        VariableInfo.scope v = class
        /\ 1 <= VariableInfo.line v <= n
        /\ forall f, f ∈ functions info ->
             ~ (FunctionInfo.startLine f <= VariableInfo.line v
                <= FunctionInfo.endLine f)).
Proof.
  intros n info. subst n info. unfold parseGDScriptContent.
  pose proof (tableInv_scanLines (split_on 10 content) 0 scanStart
                tableInv_start) as Hinv.
  cbn [Nat.add] in Hinv.
  set (st := scanLines 0 (split_on 10 content) scanStart) in *.
  set (n := Z.of_nat (length (split_on 10 content))) in *.
  unfold finish. cbn [functions classVariables].
  destruct (currentFunction st) as [f|] eqn:Hcur.
  - pose proof (tableInv_close _ _ _ Hinv Hcur) as [_ Hf _ Hv].
    cbn [funcs classVars] in *. split; [exact Hf|].
    intros v Hin. destruct (Hv v Hin) as (H1 & H2 & H3 & _). auto.
  - destruct Hinv as [_ Hf _ Hv]. split; [exact Hf|].
    intros v Hin. destruct (Hv v Hin) as (H1 & H2 & H3 & _). auto.
Qed.

Lemma filter_all {A} (f : A -> bool) l :
  Forall (fun x => f x = true) l -> List.filter f l = l.
Proof.
  induction 1 as [|x l Hx _ IH]; [reflexivity|].
  cbn [List.filter]. rewrite Hx, IH. reflexivity.
Qed.

Lemma filter_none {A} (f : A -> bool) l :
  Forall (fun x => f x = false) l -> List.filter f l = [].
Proof.
  induction 1 as [|x l Hx _ IH]; [reflexivity|].
  cbn [List.filter]. rewrite Hx, IH. reflexivity.
Qed.

(** X16. Every function of a parsed script lies within the script
    (1 <= startLine <= endLine <= number of lines), and the variables
    recorded for it are its parameters, in order, declared on its first
    line with scope "parameter", followed by locals with scope "local"
    whose lines are after the first line and not after the last one.  So
    on the first line of a function the variables in scope are the class
    variables and its parameters, and on its last line they are the class
    variables and everything recorded for it. *)
Theorem function_table_well_formed :
  forall (content : jsstring) (f : FunctionInfo.t),
    let info := parseGDScriptContent content in
    f ∈ functions info ->
    1 <= FunctionInfo.startLine f
    /\ FunctionInfo.startLine f <= FunctionInfo.endLine f
    /\ FunctionInfo.endLine f <= Z.of_nat (length (split_on 10 content))
    /\ (exists locals,
          FunctionInfo.localVariables f
          = map (fun p => {| VariableInfo.name := p;
                             VariableInfo.type := None;
                             VariableInfo.line := FunctionInfo.startLine f;
                             VariableInfo.scope := parameter |})
              (FunctionInfo.parameters f) ++ locals
          /\ Forall (fun v => VariableInfo.scope v = local
                              /\ FunctionInfo.startLine f < VariableInfo.line v
                              /\ VariableInfo.line v <= FunctionInfo.endLine f)
               locals)
    /\ getVariablesAtLine info (FunctionInfo.startLine f)
       = classVariables info
         ++ map (fun p => {| VariableInfo.name := p;
                            VariableInfo.type := None;
                            VariableInfo.line := FunctionInfo.startLine f;
                            VariableInfo.scope := parameter |})
             (FunctionInfo.parameters f)
    /\ getVariablesAtLine info (FunctionInfo.endLine f)
       = classVariables info ++ FunctionInfo.localVariables f.
Proof.
  intros content f info Hin.
  destruct (parsed_table content) as [Hf _]. fold info in Hf.
  destruct (Hf f Hin) as [Hrange (H1 & locals & Heq & Hall)].
  destruct (parsed_ordered content) as [Hord _]. fold info in Hord.
  split; [exact H1|]. split; [lia|]. split; [lia|]. split.
  { exists locals. split; [exact Heq|].
    eapply Forall_impl; [exact Hall|]. cbn. tauto. }
  assert (Hparams : Forall (fun v => VariableInfo.line v
                                     = FunctionInfo.startLine f)
                      (map (parameterVariable (FunctionInfo.startLine f))
                         (FunctionInfo.parameters f))).
  { apply Forall_map. apply Forall_forall. reflexivity. }
  unfold getVariablesAtLine. split.
  - rewrite (localsAtLine_of _ 0 _ f Hord Hin)
      by (apply contains_spec; lia).
    unfold declaredBy. rewrite Heq, List.filter_app.
    rewrite filter_all, filter_none.
    + rewrite app_nil_r. reflexivity.
    + eapply Forall_impl; [exact Hall|]. cbn. intros v (_ & Hv).
      apply Z.leb_gt. lia.
    + eapply Forall_impl; [exact Hparams|]. cbn. intros v Hv.
      apply Z.leb_le. lia.
  - rewrite (localsAtLine_of _ 0 _ f Hord Hin)
      by (apply contains_spec; lia).
    unfold declaredBy. f_equal. apply filter_all.
    rewrite Heq. apply Forall_app. split.
    + eapply Forall_impl; [exact Hparams|]. cbn. intros v Hv.
      apply Z.leb_le. lia.
    + eapply Forall_impl; [exact Hall|]. cbn. intros v (_ & Hv).
      apply Z.leb_le. lia.
Qed.

Lemma function_table_well_formed_witness :
  getVariablesAtLine (parseGDScriptContent twoFunctions) 3
  = classVariables (parseGDScriptContent twoFunctions)
    ++ [{| VariableInfo.name := js "a"; VariableInfo.type := None;
           VariableInfo.line := 3; VariableInfo.scope := parameter |}].
Proof.
  assert (Hf : exists f,
             functions (parseGDScriptContent twoFunctions) !! 0%nat = Some f
             /\ FunctionInfo.parameters f = [js "a"]
             /\ FunctionInfo.startLine f = 3)
    by (vm_compute; eexists; repeat split).
  destruct Hf as (f & Hf & Hp & Hs).
  destruct (function_table_well_formed twoFunctions f
              (list_elem_of_lookup_2 _ _ _ Hf)) as (_ & _ & _ & _ & Hfirst & _).
  rewrite Hs, Hp in Hfirst. exact Hfirst.
Defined.

(** X17. A class variable of a parsed script has scope "class", a line
    within the script, and that line is in the range of no function: a
    line that is not indented always ends the function before it, so a
    declaration at the left margin is never taken for a line of a
    function body. *)
Theorem class_variables_outside_functions :
  forall (content : jsstring) (v : VariableInfo.t),
    let info := parseGDScriptContent content in
    v ∈ classVariables info ->
    VariableInfo.scope v = class
    /\ 1 <= VariableInfo.line v
    /\ VariableInfo.line v <= Z.of_nat (length (split_on 10 content))
    /\ forall f, f ∈ functions info ->
         VariableInfo.line v < FunctionInfo.startLine f
         \/ FunctionInfo.endLine f < VariableInfo.line v.
Proof.
  intros content v info Hin.
  destruct (parsed_table content) as [_ Hv]. fold info in Hv.
  destruct (Hv v Hin) as (H1 & H2 & H3).
  split; [exact H1|]. split; [lia|]. split; [lia|].
  intros f Hf. specialize (H3 f Hf). lia.
Qed.

Lemma class_variables_outside_functions_witness :
  Forall (fun f => 1 < FunctionInfo.startLine f \/ FunctionInfo.endLine f < 1)
    (functions (parseGDScriptContent twoFunctions)).
Proof.
  assert (Hv : exists v,
             classVariables (parseGDScriptContent twoFunctions) !! 0%nat
             = Some v /\ VariableInfo.line v = 1)
    by (vm_compute; eexists; repeat split).
  destruct Hv as (v & Hv & Hl).
  destruct (class_variables_outside_functions twoFunctions v
              (list_elem_of_lookup_2 _ _ _ Hv)) as (_ & _ & _ & Hout).
  rewrite Hl in Hout. apply Forall_forall. exact Hout.
Defined.

End Table.

Section Names.
Import JS Regex GDScript.
Local Open Scope Z_scope.

Lemma set_add_spec name names :
  NoDup names ->
  NoDup (set_add name names)
  /\ (forall n, n ∈ set_add name names <-> n ∈ names \/ n = name)
  /\ exists more, set_add name names = names ++ more.
Proof.
  intros Hnd. unfold set_add.
  destruct (bool_decide (name ∈ names)) eqn:Hin.
  - apply bool_decide_eq_true_1 in Hin. split; [exact Hnd|]. split.
    + intros n. split; [auto|]. intros [H| ->]; assumption.
    + exists []. rewrite app_nil_r. reflexivity.
  - apply bool_decide_eq_false_1 in Hin. split; [|split].
    + apply NoDup_app. split; [exact Hnd|]. split.
      * intros x Hx Hx'. apply list_elem_of_singleton in Hx'. subst x.
        contradiction.
      * apply NoDup_singleton.
    + intros n. rewrite elem_of_app, list_elem_of_singleton. tauto.
    + exists [name]. reflexivity.
Qed.

Lemma set_add_fold (vs : list VariableInfo.t) : forall names,
  NoDup names ->
  let result :=
    fold_left (fun names v => set_add (VariableInfo.name v) names) vs names in
  NoDup result
  /\ (forall n, n ∈ result
                <-> n ∈ names \/ exists v, v ∈ vs /\ VariableInfo.name v = n)
  /\ exists more, result = names ++ more.
Proof.
  induction vs as [|v vs IH]; intros names Hnd; cbn [fold_left].
  - split; [exact Hnd|]. split.
    + intros n. split; [auto|]. intros [H|(v & Hv & _)]; [exact H|].
      inversion Hv.
    + exists []. rewrite app_nil_r. reflexivity.
  - destruct (set_add_spec (VariableInfo.name v) names Hnd)
      as (Hnd1 & Hmem1 & more1 & Hmore1).
    destruct (IH _ Hnd1) as (Hnd2 & Hmem2 & more2 & Hmore2).
    split; [exact Hnd2|]. split.
    + intros n. rewrite Hmem2, Hmem1. split.
      * intros [[H| ->]|(v' & Hv' & Hn)]; [auto| |].
        -- right. exists v. split; [left|reflexivity].
        -- right. exists v'. split; [right; exact Hv'|exact Hn].
      * intros [H|(v' & Hv' & Hn)]; [auto|].
        apply elem_of_cons in Hv' as [->|Hv']; [auto|].
        right. exists v'. auto.
    + exists (more1 ++ more2). rewrite Hmore2, Hmore1, app_assoc.
      reflexivity.
Qed.

(** X18. The names [getVariableNamesAtLine] returns begin with "self",
    hold no name twice, and are "self" together with the names of the
    variables [getVariablesAtLine] finds at that line, no more and no
    less. *)
Theorem variable_names_are_unique :
  forall (scriptInfo : ScriptInfo) (line : Z),
    let names := getVariableNamesAtLine scriptInfo line in
    (exists more, names = js "self" :: more)
    /\ NoDup names
    /\ forall n, n ∈ names
                 <-> n = js "self"
                     \/ exists v, v ∈ getVariablesAtLine scriptInfo line
                                  /\ VariableInfo.name v = n.
Proof.
  intros scriptInfo line names. subst names. unfold getVariableNamesAtLine.
  assert (H0 : set_add (js "self") [] = [js "self"]) by reflexivity.
  rewrite H0.
  destruct (set_add_fold (getVariablesAtLine scriptInfo line) [js "self"])
    as (Hnd & Hmem & more & Hmore).
  { apply NoDup_singleton. }
  cbn zeta in *. split; [exists more; exact Hmore|]. split; [exact Hnd|].
  intros n. rewrite Hmem, list_elem_of_singleton. tauto.
Qed.

End Names.

(* ===================================================================== *)
(** * Variable discovery: the inferred types and the names evaluated       *)
(* ===================================================================== *)

Section Inference.
Import JS Regex GDScript Locals.
Local Open Scope nat_scope.

(** X19. The inferred type is "null" for the text [null] and for no other
    text: the second text the chain tests for, [<null>], holds both angle
    brackets and is typed "Object" by the test before. *)
Theorem null_type_only_for_null :
  forall val : jsstring,
    (inferType val = js "null" <-> val = js "null")
    /\ inferType (js "<null>") = js "Object".
Proof.
  intros val. split; [split|].
  - unfold inferType. intros H.
    repeat match type of H with
           | (if ?c then _ else _) = _ => destruct c eqn:?
           end; try (vm_compute in H; discriminate).
    match goal with
    | Hor : _ || _ = true |- _ => apply orb_true_iff in Hor as [Hn|Hn]
    end; apply bool_decide_eq_true_1 in Hn; [exact Hn|].
    subst val.
    match goal with
    | Hand : includes _ _ && includes _ _ = false |- _ =>
        vm_compute in Hand; discriminate
    end.
  - intros ->. vm_compute. reflexivity.
  - vm_compute. reflexivity.
Qed.

(** ** Decimal numerals *)

Lemma digits_shape n :
  exists d ds, toDecimal n = d :: ds /\ is_digit d = true
               /\ Forall (fun c => is_digit c = true) ds.
Proof.
  destruct (toDecimal_spec n) as (Hall & _ & Hne).
  destruct (toDecimal n) as [|d ds]; [contradiction|].
  inversion Hall; subst. eauto.
Qed.

Lemma digit_range d : is_digit d = true -> (48 <= d <= 57)%N.
Proof.
  unfold is_digit. intros H. apply andb_prop in H as [H1 H2].
  apply N.leb_le in H1, H2. lia.
Qed.

Lemma not_digit_head c d s rest :
  is_digit d = true -> is_digit c = false ->
  startsWith (d :: s) (c :: rest) = false.
Proof.
  intros Hd Hc. cbn [startsWith]. unfold unit_eqb.
  destruct (N.eqb_spec c d) as [->|]; [congruence|reflexivity].
Qed.


(** The tests of the chain that come before the numeric ones fail on a
    text that begins with a digit or a minus sign. *)
Lemma numeric_head x s :
  is_digit x = true \/ x = 45%N ->
  startsWith (x :: s) (js "(") = false
  /\ x :: s <> js "true"
  /\ x :: s <> js "false".
Proof.
  intros H.
  assert (Hx : x <> 40%N /\ x <> 116%N /\ x <> 102%N).
  { destruct H as [H| ->]; [apply digit_range in H|]; lia. }
  destruct Hx as (H1 & H2 & H3). split; [|split].
  - change (js "(") with [40%N]. cbn [startsWith]. unfold unit_eqb.
    destruct (N.eqb_spec 40 x); [congruence|reflexivity].
  - change (js "true") with (116%N :: js "rue"). congruence.
  - change (js "false") with (102%N :: js "alse"). congruence.
Qed.

Lemma take_while_digits ds rest :
  Forall (fun c => is_digit c = true) ds ->
  match rest with [] => True | x :: _ => is_digit x = false end ->
  take_while is_digit (ds ++ rest) = ds
  /\ drop_while is_digit (ds ++ rest) = rest.
Proof.
  intros Hds Hrest. induction Hds as [|d ds Hd _ IH].
  - destruct rest as [|x rest]; [split; reflexivity|].
    cbn [app take_while drop_while]. rewrite Hrest. split; reflexivity.
  - cbn [app take_while drop_while]. rewrite Hd.
    destruct IH as [-> ->]. split; reflexivity.
Qed.

(** [\d+] followed by the end of the text, on digits. *)
Lemma run_digits_end d ds pos c (k : cont) res :
  is_digit d = true -> Forall (fun c => is_digit c = true) ds ->
  k (S pos + length ds) [] c = Some res ->
  run (Seq (Plus digit) Eol) pos (d :: ds) c k = Some res.
Proof.
  intros Hd Hds Hk. unfold Plus, digit. rewrite !run_Seq, run_Chr, Hd.
  apply run_Star_class.
  destruct (take_while_digits ds [] Hds I) as [Ht Hr].
  rewrite app_nil_r in Ht, Hr. rewrite Ht, Hr, run_Eol. exact Hk.
Qed.

Lemma intPattern_digits d ds :
  is_digit d = true -> Forall (fun c => is_digit c = true) ds ->
  matches (d :: ds) intPattern = true
  /\ matches (45%N :: d :: ds) intPattern = true.
Proof.
  intros Hd Hds. unfold matches, intPattern. cbn [Seqs].
  rewrite !js_match_Bol, !run_Seq. unfold Opt. rewrite !run_Alt.
  rewrite Lit_units. change (js "-") with [45%N].
  rewrite !run_units. split.
  - rewrite (not_digit_head 45 d ds [] Hd) by reflexivity.
    rewrite run_Eps.
    erewrite (run_digits_end d ds); [reflexivity|assumption..|reflexivity].
  - cbn [startsWith unit_eqb N.eqb Pos.eqb andb length drop].
    rewrite ?startsWith_nil.
    erewrite (run_digits_end d ds); [reflexivity|assumption..|reflexivity].
Qed.

(** X20. The text of a decimal integer, with or without a minus sign, is
    given the type "int". *)
Theorem decimal_integers_are_int :
  forall n : N,
    inferType (toDecimal n) = js "int"
    /\ inferType (js "-" ++ toDecimal n) = js "int".
Proof.
  intros n. destruct (digits_shape n) as (d & ds & -> & Hd & Hds).
  destruct (intPattern_digits d ds Hd Hds) as [Hplain Hminus].
  change (js "-" ++ d :: ds) with (45%N :: d :: ds).
  split; unfold inferType.
  - destruct (numeric_head d ds (or_introl Hd)) as (-> & Ht & Hf).
    rewrite !bool_decide_eq_false_2 by assumption.
    cbn [andb orb]. rewrite Hplain. reflexivity.
  - destruct (numeric_head 45 (d :: ds) (or_intror eq_refl))
      as (-> & Ht & Hf).
    rewrite !bool_decide_eq_false_2 by assumption.
    cbn [andb orb]. rewrite Hminus. reflexivity.
Qed.

End Inference.

Section Evaluated.
Import JS Regex GDScript Locals.
Local Open Scope nat_scope.

Lemma includes_process frameName :
  includes frameName (js "process") = true ->
  Nat.eqb (length frameName) 0 = false
  /\ frameName <> js "_ready" /\ frameName <> js "_init".
Proof.
  intros H. split; [|split].
  - destruct frameName; [vm_compute in H; discriminate|reflexivity].
  - intros E. rewrite E in H. vm_compute in H. discriminate.
  - intros E. rewrite E in H. vm_compute in H. discriminate.
Qed.

(** X21. The names evaluated for a stack frame begin with "self" and hold
    no name twice; "delta" is among them exactly when the name of the
    frame's function contains "process" or the script, if it could be
    read, declares a variable of that name in scope, and every other name
    is "self" or a variable the scope analyzer finds at the line of the
    frame. *)
Theorem evaluated_names :
  forall (script : option (option jsstring)) (line : Z)
         (frameName : jsstring),
    let names := variableNames script line frameName in
    let scoped :=
      match script with
      | Some (Some content) =>
          getVariablesAtLine (parseGDScriptContent content) line
      | _ => []
      end in
    (exists more, names = js "self" :: more)
    /\ NoDup names
    /\ forall n, n ∈ names
                 <-> n = js "self"
                     \/ (exists v, v ∈ scoped /\ VariableInfo.name v = n)
                     \/ (n = js "delta"
                         /\ includes frameName (js "process") = true).
Proof.
  intros script line frameName names scoped. subst names.
  unfold variableNames.
  set (names0 := match script with
                 | Some file => getVariableNamesAtLine (parseGDScript file) line
                 | None => [js "self"]
                 end).
  assert (H0 : (exists more, names0 = js "self" :: more)
               /\ NoDup names0
               /\ forall n, n ∈ names0
                    <-> n = js "self"
                        \/ exists v, v ∈ scoped /\ VariableInfo.name v = n).
  { subst names0 scoped. destruct script as [file|].
    - assert (Hvars : getVariablesAtLine (parseGDScript file) line
                      = match file with
                        | Some content =>
                            getVariablesAtLine (parseGDScriptContent content)
                              line
                        | None => []
                        end) by (destruct file; reflexivity).
      rewrite <- Hvars. unfold getVariableNamesAtLine.
      change (set_add (js "self") []) with [js "self"].
      destruct (set_add_fold
                  (getVariablesAtLine (parseGDScript file) line)
                  [js "self"] (NoDup_singleton _))
        as (Hnd & Hmem & more & Hmore).
      cbn zeta in *. split; [exists more; exact Hmore|].
      split; [exact Hnd|].
      intros n. rewrite Hmem, list_elem_of_singleton. tauto.
    - split; [exists []; reflexivity|]. split; [apply NoDup_singleton|].
      intros n. rewrite list_elem_of_singleton. split; [auto|].
      intros [H|(v & Hv & _)]; [exact H|inversion Hv]. }
  destruct H0 as ((more & Hmore) & Hnd & Hmem). clearbody names0.
  destruct (includes frameName (js "process")) eqn:Hproc.
  - destruct (includes_process _ Hproc) as (-> & Hready & Hinit).
    rewrite !bool_decide_eq_false_2 by assumption. cbn [negb andb].
    destruct (bool_decide (js "delta" ∈ names0)) eqn:Hdelta; cbn [negb].
    + apply bool_decide_eq_true_1 in Hdelta.
      split; [exists more; exact Hmore|]. split; [exact Hnd|].
      intros n. rewrite Hmem. split; [tauto|].
      intros [H|[H|[-> _]]]; [auto|auto|]. apply Hmem. exact Hdelta.
    + apply bool_decide_eq_false_1 in Hdelta.
      split; [exists (more ++ [js "delta"]); rewrite Hmore; reflexivity|].
      split.
      * apply NoDup_app. split; [exact Hnd|]. split; [|apply NoDup_singleton].
        intros x Hx Hx'. apply list_elem_of_singleton in Hx'. subst x.
        contradiction.
      * intros n. rewrite elem_of_app, list_elem_of_singleton, Hmem. tauto.
  - rewrite andb_false_r. cbn [andb].
    split; [exists more; exact Hmore|]. split; [exact Hnd|].
    intros n. rewrite Hmem. split; [tauto|].
    intros [H|[H|[_ H]]]; [auto|auto|discriminate].
Qed.

End Evaluated.
